(** * Sparse multivariable polynomials: a shallow embedding of poly.c

    The development follows [src/poly.h], [src/poly.c] and
    [src/mono_array.c].  A C [Poly] is either a coefficient ([arr == NULL])
    or a non-empty array of monomials; a [Mono] is a coefficient polynomial
    together with an exponent.  Every [assert] of the C code is modelled as
    a failure ([None]) of an [option]-valued function, so that "no assertion
    fires" is the statement that a call returns [Some _]. *)

From Stdlib Require Import ZArith List Lia Bool Permutation Sorted.
From Stdlib Require Import Morphisms Setoid.
From Stdlib Require Import Ascii.
From Stdlib Require String Decimal DecimalPos.
Import String.StringSyntax.
Delimit Scope string_scope with string.
Import ListNotations.
Open Scope Z_scope.

(** ** Machine integers

    [poly_coeff_t] is [long] (64 bits) and [poly_exp_t] is [int] (32 bits).
    Arithmetic on them is modelled on [Z] with the two's complement
    wrap-around written out. *)

Definition wrap (bits : Z) (z : Z) : Z :=
  (z + 2 ^ (bits - 1)) mod 2 ^ bits - 2 ^ (bits - 1).

Definition wrap64 (z : Z) : Z := wrap 64 z.
Definition wrap32 (z : Z) : Z := wrap 32 z.

Definition coeff_min : Z := - 2 ^ 63.
Definition coeff_max : Z := 2 ^ 63 - 1.
Definition exp_max : Z := 2 ^ 31 - 1.

(** ** The term model *)

Inductive Poly : Type :=
| Coeff (coeff : Z)
| Terms (arr : list Mono)
with Mono : Type :=
| MkMono (p : Poly) (exp : Z).

(** [m->p] and [m->exp]. *)
Definition m_p (m : Mono) : Poly := let 'MkMono p _ := m in p.
Definition m_exp (m : Mono) : Z := let 'MkMono _ e := m in e.

(** ** Assertions and failure *)

Definition bind {A B : Type} (x : option A) (f : A -> option B) : option B :=
  match x with
  | Some a => f a
  | None => None
  end.

Notation "x <- c ;; k" := (bind c (fun x => k))
  (at level 61, c at next level, right associativity).
Notation "'assert!' c ;; k" := (if c then k else None)
  (at level 61, c at next level, right associativity).

Fixpoint mapM {A B : Type} (f : A -> option B) (l : list A) : option (list B) :=
  match l with
  | [] => Some []
  | a :: l' => b <- f a ;; bs <- mapM f l' ;; Some (b :: bs)
  end.

(** ** Constructors and structural queries (poly.h) *)

Definition MonoGetExp (m : Mono) : Z := m_exp m.

Definition PolyFromCoeff (c : Z) : Poly := Coeff c.

(** [assert(arr != NULL && size != 0)].  Arrays come from [MonoNewArray],
    which returns [NULL] exactly when asked for zero elements, so the
    pointer test and the size test fail together. *)
Definition PolyFromSizeAndArray (size : nat) (arr : list Mono) : option Poly :=
  assert! negb (Nat.eqb size 0) ;; Some (Terms (firstn size arr)).

Definition PolyZero : Poly := PolyFromCoeff 0.

Definition PolyIsCoeff (p : Poly) : bool :=
  match p with
  | Coeff _ => true
  | Terms _ => false
  end.

Definition PolyIsZero (p : Poly) : bool :=
  match p with
  | Coeff c => c =? 0
  | Terms _ => false
  end.

(** [assert(n == 0 || !PolyIsZero(p))]. *)
Definition MonoFromPoly (p : Poly) (n : Z) : option Mono :=
  assert! (n =? 0) || negb (PolyIsZero p) ;; Some (MkMono p n).

(** ** Deep copy *)

Fixpoint PolyClone (p : Poly) : option Poly :=
  match p with
  | Coeff c => Some (PolyFromCoeff c)
  | Terms arr =>
      new_array <-
        mapM (fun m => c <- PolyClone (m_p m) ;; Some (MkMono c (m_exp m))) arr ;;
      PolyFromSizeAndArray (length arr) new_array
  end.

Definition MonoClone (m : Mono) : option Mono :=
  c <- PolyClone (m_p m) ;; Some (MkMono c (m_exp m)).

(** ** The monomial array helpers (mono_array.c) *)

Definition TrimAndInterpretMonoArr (array_to_resize : list Mono)
           (used reserved : nat) : option Poly :=
  match used, array_to_resize with
  | O, _ => Some PolyZero
  | S _, [] => None
  | S u, first :: _ =>
      if Nat.eqb u 0 && PolyIsZero (m_p first) then Some PolyZero
      else if Nat.eqb u 0 && (MonoGetExp first =? 0) && PolyIsCoeff (m_p first) then
        match m_p first with
        | Coeff for_later => Some (PolyFromCoeff for_later)
        | Terms _ => None
        end
      else if Nat.eqb used reserved then PolyFromSizeAndArray reserved array_to_resize
      else PolyFromSizeAndArray used array_to_resize
  end.

(** [MonoSort] is [qsort] with a comparator on exponents.  The order [qsort]
    leaves between monomials of equal exponent is unspecified; the model is
    the stable choice (insertion sort). *)
Fixpoint MonoInsert (m : Mono) (l : list Mono) : list Mono :=
  match l with
  | [] => [m]
  | h :: t => if m_exp m <=? m_exp h then m :: l else h :: MonoInsert m t
  end.

Definition MonoSort (array_to_sort : list Mono) : list Mono :=
  fold_right MonoInsert [] array_to_sort.

(** ** Addition (poly.c)

    The helpers are written over the recursive call [PolyAdd] they make,
    which is tied below. *)

Definition PolyAddTwoCoeffs (p q : Poly) : option Poly :=
  match p, q with
  | Coeff a, Coeff b => Some (PolyFromCoeff (wrap64 (a + b)))
  | _, _ => None
  end.

Section PolyAddCode.

Variable PolyAdd : Poly -> Poly -> option Poly.

Definition MonoAdd (m n : Mono) : option Mono :=
  s <- PolyAdd (m_p m) (m_p n) ;; Some (MkMono s (m_exp m)).

Definition PolyAddCoeffIfPhasConst (p q : Poly) : option Poly :=
  match p with
  | Terms (first :: rest) =>
      new_poly_for_x0 <- PolyAdd (m_p first) q ;;
      clones <- mapM MonoClone rest ;;
      if PolyIsZero new_poly_for_x0 then
        PolyFromSizeAndArray (length clones) clones
      else
        m0 <- MonoFromPoly new_poly_for_x0 0 ;;
        PolyFromSizeAndArray (S (length clones)) (m0 :: clones)
  | _ => None
  end.

Definition PolyAddCoeffIfPDoesntHaveConst (p q : Poly) : option Poly :=
  match p with
  | Terms arr =>
      m0 <- MonoFromPoly q 0 ;;
      clones <- mapM MonoClone arr ;;
      PolyFromSizeAndArray (S (length clones)) (m0 :: clones)
  | Coeff _ => None
  end.

(** The part of [PolyAddCoeffToNonCoeff] after its swap: [p] is the
    non-constant polynomial and [q] the constant. *)
Definition PolyAddCoeffToNonCoeff_ordered (p q : Poly) : option Poly :=
  assert! PolyIsCoeff q ;;
  if PolyIsZero q then PolyClone p
  else
    match p with
    | Terms (first :: _) =>
        if MonoGetExp first =? 0 then PolyAddCoeffIfPhasConst p q
        else PolyAddCoeffIfPDoesntHaveConst p q
    | _ => None
    end.

(** The merge loop of [PolyAddTwoNonCoeffs] followed by [CopyWhatsLeft]:
    the lists are the parts of [p->arr] and [q->arr] from [index_p] and
    [index_q] on, the result is what is appended to [new_array]. *)
Fixpoint PolyAddMerge (lp : list Mono) : list Mono -> option (list Mono) :=
  fix merge_q (lq : list Mono) : option (list Mono) :=
    match lp, lq with
    | [], _ => mapM MonoClone lq
    | _, [] => mapM MonoClone lp
    | mono_from_p :: lp', mono_from_q :: lq' =>
        if MonoGetExp mono_from_p =? MonoGetExp mono_from_q then
          new_mono <- MonoAdd mono_from_p mono_from_q ;;
          tl <- PolyAddMerge lp' lq' ;;
          if negb (PolyIsZero (m_p new_mono)) then Some (new_mono :: tl)
          else Some tl
        else if MonoGetExp mono_from_p >? MonoGetExp mono_from_q then
          c <- MonoClone mono_from_q ;;
          tl <- merge_q lq' ;;
          Some (c :: tl)
        else
          c <- MonoClone mono_from_p ;;
          tl <- PolyAddMerge lp' lq ;;
          Some (c :: tl)
    end.

Definition PolyAddTwoNonCoeffs (p q : Poly) : option Poly :=
  match p, q with
  | Terms lp, Terms lq =>
      new_array <- PolyAddMerge lp lq ;;
      TrimAndInterpretMonoArr new_array (length new_array)
                              (length lp + length lq)
  | _, _ => None
  end.

End PolyAddCode.

(** [PolyAdd(p, q)] for a constant [q]: the only recursive call is on the
    coefficient of [p]'s first monomial, again with [q]. *)
Fixpoint PolyAddConst (p q : Poly) {struct p} : option Poly :=
  match p with
  | Coeff _ => PolyAddTwoCoeffs p q
  | Terms _ => PolyAddCoeffToNonCoeff_ordered PolyAddConst p q
  end.

Fixpoint PolyAdd (p q : Poly) {struct p} : option Poly :=
  match p, q with
  | Coeff _, Coeff _ => PolyAddTwoCoeffs p q
  | Coeff _, Terms _ => PolyAddCoeffToNonCoeff_ordered PolyAddConst q p
  | Terms _, Coeff _ => PolyAddCoeffToNonCoeff_ordered PolyAdd p q
  | Terms _, Terms _ => PolyAddTwoNonCoeffs PolyAdd p q
  end.

(** [PolyAddCoeffToNonCoeff] with its swap, and the body of [PolyAdd] as the
    C source has it; [PolyAdd_unfold] below shows that [PolyAdd] satisfies
    this equation. *)
Definition PolyAddCoeffToNonCoeff (rec : Poly -> Poly -> option Poly)
           (p q : Poly) : option Poly :=
  if PolyIsCoeff p then PolyAddCoeffToNonCoeff_ordered rec q p
  else PolyAddCoeffToNonCoeff_ordered rec p q.

Definition PolyAdd_body (rec : Poly -> Poly -> option Poly)
           (p q : Poly) : option Poly :=
  if PolyIsCoeff p && PolyIsCoeff q then PolyAddTwoCoeffs p q
  else if PolyIsCoeff p || PolyIsCoeff q then PolyAddCoeffToNonCoeff rec p q
  else PolyAddTwoNonCoeffs rec p q.

(** ** Summing an array of monomials *)

(** The scan of [PolyAddMonos]: [done] is [copy_array[0 .. new_index)],
    [cur] is [copy_array[new_index]] and [rest] is [copy_array[i ..]]. *)
Fixpoint PolyAddMonosLoop (done : list Mono) (cur : Mono) (rest : list Mono)
  : option (list Mono) :=
  match rest with
  | [] => Some (done ++ [cur])
  | mono_i :: rest' =>
      if MonoGetExp cur =? MonoGetExp mono_i then
        new_mono <- MonoAdd PolyAdd cur mono_i ;;
        PolyAddMonosLoop done new_mono rest'
      else
        c <- MonoClone mono_i ;;
        if negb (PolyIsZero (m_p cur)) then PolyAddMonosLoop (done ++ [cur]) c rest'
        else PolyAddMonosLoop done c rest'
  end.

(** [PolyAddMonos] from the sorted [copy_array] on: the scan, then
    [TrimAndInterpretMonoArr] on the [new_index + 1] slots filled. *)
Definition PolyAddMonosScan (copy_array : list Mono) : option Poly :=
  match copy_array with
  | [] => None
  | first :: rest =>
      scanned <- PolyAddMonosLoop [] first rest ;;
      TrimAndInterpretMonoArr scanned (length scanned) (length scanned)
  end.

Definition PolyAddMonos (count : nat) (monos : list Mono) : option Poly :=
  if Nat.eqb count 0 then Some PolyZero
  else
    assert! Nat.leb count (length monos) ;;
    PolyAddMonosScan (MonoSort (firstn count monos)).

(** The array argument of the two public entry points may be [NULL]. *)
Definition PolyOwnMonos (count : nat) (monos : option (list Mono)) : option Poly :=
  match monos with
  | None => Some PolyZero
  | Some arr => PolyAddMonos count arr
  end.

Definition PolyCloneMonos (count : nat) (monos : option (list Mono)) : option Poly :=
  match monos with
  | None => Some PolyZero
  | Some arr =>
      assert! Nat.leb count (length arr) ;;
      clone_mono_array <- mapM MonoClone (firstn count arr) ;;
      PolyAddMonos count clone_mono_array
  end.

(** ** Multiplication *)

Definition PolyMulTwoCoeffs (p q : Poly) : option Poly :=
  match p, q with
  | Coeff a, Coeff b => Some (PolyFromCoeff (wrap64 (b * a)))
  | _, _ => None
  end.

Section PolyMulCode.

Variable PolyMul : Poly -> Poly -> option Poly.

(** The exponent of the product is the plain [int] sum. *)
Definition MonoMul (m n : Mono) : option Mono :=
  c <- PolyMul (m_p m) (m_p n) ;;
  Some (MkMono c (wrap32 (m_exp m + m_exp n))).

Definition MonoMulCoeff (m : Mono) (coeff : Poly) : option Mono :=
  assert! PolyIsCoeff coeff ;;
  c <- PolyMul (m_p m) coeff ;;
  Some (MkMono c (m_exp m)).

(** The part of [PolyMulCoeffAndNonCoeff] after its swap. *)
Definition PolyMulCoeffAndNonCoeff_ordered (p q : Poly) : option Poly :=
  assert! PolyIsCoeff q ;;
  if PolyIsZero q then Some PolyZero
  else
    match p with
    | Terms arr =>
        result <- mapM (fun m => MonoMulCoeff m q) arr ;;
        PolyAddMonos (length arr) result
    | Coeff _ => None
    end.

(** The two nested loops of [PolyMul]: [i] over [p->arr], [j] over
    [q->arr], products stored in that order. *)
Definition PolyMulCross (lp lq : list Mono) : option (list Mono) :=
  rows <- mapM (fun mi => mapM (fun mj => MonoMul mi mj) lq) lp ;;
  Some (concat rows).

Definition PolyMulTwoNonCoeffs (p q : Poly) : option Poly :=
  match p, q with
  | Terms lp, Terms lq =>
      new_array <- PolyMulCross lp lq ;;
      PolyAddMonos (length new_array) new_array
  | _, _ => None
  end.

End PolyMulCode.

(** [PolyMul(p, q)] for a constant [q]. *)
Fixpoint PolyMulConst (p q : Poly) {struct p} : option Poly :=
  match p with
  | Coeff _ => PolyMulTwoCoeffs p q
  | Terms _ => PolyMulCoeffAndNonCoeff_ordered PolyMulConst p q
  end.

Fixpoint PolyMul (p q : Poly) {struct p} : option Poly :=
  match p, q with
  | Coeff _, Coeff _ => PolyMulTwoCoeffs p q
  | Coeff _, Terms _ => PolyMulCoeffAndNonCoeff_ordered PolyMulConst q p
  | Terms _, Coeff _ => PolyMulCoeffAndNonCoeff_ordered PolyMul p q
  | Terms _, Terms _ => PolyMulTwoNonCoeffs PolyMul p q
  end.

Definition PolyMulCoeffAndNonCoeff (rec : Poly -> Poly -> option Poly)
           (p q : Poly) : option Poly :=
  if PolyIsCoeff p then PolyMulCoeffAndNonCoeff_ordered rec q p
  else PolyMulCoeffAndNonCoeff_ordered rec p q.

Definition PolyMul_body (rec : Poly -> Poly -> option Poly)
           (p q : Poly) : option Poly :=
  if PolyIsCoeff p && PolyIsCoeff q then PolyMulTwoCoeffs p q
  else if PolyIsCoeff p || PolyIsCoeff q then PolyMulCoeffAndNonCoeff rec p q
  else PolyMulTwoNonCoeffs rec p q.

(** ** Negation and subtraction *)

Definition NEG : Z := -1.

Fixpoint PolyNeg (p : Poly) : option Poly :=
  match p with
  | Coeff c => Some (PolyFromCoeff (wrap64 (NEG * c)))
  | Terms arr =>
      new_mono_array <-
        mapM (fun m => negative_poly <- PolyNeg (m_p m) ;;
                       MonoFromPoly negative_poly (m_exp m)) arr ;;
      PolyFromSizeAndArray (length arr) new_mono_array
  end.

Definition MonoNeg (m : Mono) : option Mono :=
  negative_poly <- PolyNeg (m_p m) ;; MonoFromPoly negative_poly (m_exp m).

Definition PolySub (p q : Poly) : option Poly :=
  negated_q <- PolyNeg q ;; PolyAdd p negated_q.

(** ** Degrees *)

Definition max_step (maxi actual : Z) : Z :=
  if actual >? maxi then actual else maxi.

Fixpoint PolyDegBy (p : Poly) (var_idx : nat) : option Z :=
  match p with
  | Coeff c => if c =? 0 then Some (-1) else Some 0
  | Terms arr =>
      match var_idx with
      | O => m <- nth_error arr (length arr - 1) ;; Some (MonoGetExp m)
      | S var_idx' =>
          actuals <- mapM (fun m => PolyDegBy (m_p m) var_idx') arr ;;
          Some (fold_left max_step actuals (-1))
      end
  end.

Definition CONST_DEGREE : Z := -1.
Definition SMALL_VALUE : Z := -1.

Fixpoint PolyDeg (p : Poly) : Z :=
  match p with
  | Coeff c => if c =? 0 then CONST_DEGREE else 0
  | Terms arr =>
      fold_left max_step
                (map (fun m => wrap32 (m_exp m + PolyDeg (m_p m))) arr)
                SMALL_VALUE
  end.

Definition MonoDeg (m : Mono) : Z := wrap32 (m_exp m + PolyDeg (m_p m)).

(** ** Equality *)

Fixpoint PolyIsEq (p q : Poly) {struct p} : bool :=
  match p, q with
  | Coeff a, Coeff b => a =? b
  | Coeff _, Terms _ => false
  | Terms _, Coeff _ => false
  | Terms lp, Terms lq =>
      if negb (Nat.eqb (length lp) (length lq)) then false
      else
        (fix loop (lp lq : list Mono) {struct lp} : bool :=
           match lp, lq with
           | m :: lp', n :: lq' =>
               if negb ((m_exp m =? m_exp n) && PolyIsEq (m_p m) (m_p n))
               then false
               else loop lp' lq'
           | _, _ => true
           end) lp lq
  end.

Definition MonoIsEq (m n : Mono) : bool :=
  (m_exp m =? m_exp n) && PolyIsEq (m_p m) (m_p n).

(** ** Evaluation *)

(** [PowerOf] for [n >= 1]: [n & 1] is the low bit of the binary numeral,
    [(n - 1) / 2] and [n / 2] are its remaining bits. *)
Fixpoint PowerOfPos (x : Z) (n : positive) : Z :=
  match n with
  | xH => x
  | xI k => wrap64 (x * PowerOfPos (wrap64 (x * x)) k)
  | xO k => PowerOfPos (wrap64 (x * x)) k
  end.

(** [assert(n >= 0)]. *)
Definition PowerOf (x : Z) (n : Z) : option Z :=
  match n with
  | Z0 => Some 1
  | Zpos k => Some (PowerOfPos x k)
  | Zneg _ => None
  end.

Definition MonoAt (m : Mono) (x : Z) : option Poly :=
  c <- PowerOf x (m_exp m) ;;
  PolyMul (m_p m) (PolyFromCoeff c).

Fixpoint foldM {A B : Type} (f : A -> B -> option A) (l : list B) (a : A)
  : option A :=
  match l with
  | [] => Some a
  | b :: l' => a' <- f a b ;; foldM f l' a'
  end.

Definition PolyAt (p : Poly) (x : Z) : option Poly :=
  match p with
  | Coeff _ => PolyClone p
  | Terms arr =>
      foldM (fun result m => new_poly <- MonoAt m x ;; PolyAdd result new_poly)
            arr PolyZero
  end.

(** ** Composition *)

Fixpoint PolyPowerPos (p : Poly) (n : positive) : option Poly :=
  match n with
  | xH => PolyClone p
  | xI k =>
      foo1 <- PolyMul p p ;;
      foo2 <- PolyPowerPos foo1 k ;;
      PolyMul p foo2
  | xO k =>
      foo1 <- PolyMul p p ;;
      PolyPowerPos foo1 k
  end.

(** For a negative exponent the C recursion never reaches [0] or [1] and
    does not return; that is a failure here. *)
Definition PolyPower (p : Poly) (exp : Z) : option Poly :=
  match exp with
  | Z0 => Some (PolyFromCoeff 1)
  | Zpos k => PolyPowerPos p k
  | Zneg _ => None
  end.

Section PolyComposeCode.

Variable PolyComposeHelper : Poly -> nat -> nat -> list Poly -> option Poly.

Definition MonoComposeHelper (m : Mono) (k var_id : nat) (q : list Poly)
  : option Poly :=
  coeff <- PolyComposeHelper (m_p m) k (var_id + 1)%nat q ;;
  if m_exp m =? 0 then Some coeff
  else if Nat.ltb var_id k then
    q_var <- nth_error q var_id ;;
    after_exp <- PolyPower q_var (m_exp m) ;;
    PolyMul coeff after_exp
  else Some PolyZero.

End PolyComposeCode.

Fixpoint PolyComposeHelper (p : Poly) (k var_id : nat) (q : list Poly)
  : option Poly :=
  match p with
  | Coeff _ => PolyClone p
  | Terms arr =>
      foldM (fun result m =>
               result_of_mono_compose <-
                 MonoComposeHelper PolyComposeHelper m k var_id q ;;
               PolyAdd result result_of_mono_compose)
            arr PolyZero
  end.

Definition PolyCompose (p : Poly) (k : nat) (q : list Poly) : option Poly :=
  PolyComposeHelper p k 0 q.

(** ** Canonical form (spec section 3) *)

Fixpoint ascending (exps : list Z) : bool :=
  match exps with
  | [] => true
  | e :: rest =>
      match rest with
      | [] => true
      | e' :: _ => (e <? e') && ascending rest
      end
  end.

(** A one-term list holding a constant at exponent 0 is what the normalizer
    flattens to the bare constant. *)
Definition is_flat (arr : list Mono) : bool :=
  match arr with
  | [m] => (m_exp m =? 0) && PolyIsCoeff (m_p m)
  | _ => false
  end.

Definition is_nil {A : Type} (l : list A) : bool :=
  match l with
  | [] => true
  | _ :: _ => false
  end.

Fixpoint canonical (p : Poly) : bool :=
  match p with
  | Coeff c => (coeff_min <=? c) && (c <=? coeff_max)
  | Terms arr =>
      negb (is_nil arr) && negb (is_flat arr) && ascending (map m_exp arr)
      && forallb (fun m => canonical (m_p m) && negb (PolyIsZero (m_p m))
                           && (0 <=? m_exp m) && (m_exp m <=? exp_max)) arr
  end.

Definition canonical_mono (m : Mono) : bool :=
  canonical (m_p m) && negb (PolyIsZero (m_p m))
  && (0 <=? m_exp m) && (m_exp m <=? exp_max).

(** A value in which some [Terms] list, at any depth, holds a monomial whose
    coefficient is the zero constant. *)
Fixpoint has_zero_term (p : Poly) : bool :=
  match p with
  | Coeff _ => false
  | Terms arr =>
      existsb (fun m => PolyIsZero (m_p m) || has_zero_term (m_p m)) arr
  end.

(** Number of nested [Terms] levels: the variables of [p] are
    [x_0 .. x_(PolyDepth p - 1)]. *)
Fixpoint PolyDepth (p : Poly) : nat :=
  match p with
  | Coeff _ => O
  | Terms arr => S (fold_right (fun m d => Nat.max (PolyDepth (m_p m)) d) O arr)
  end.

(** ** The invariant the operators maintain

    [wfB B p]: every [Terms] list of [p] is non-empty, strictly ascending,
    not a flattenable single constant, and has its exponents in [0 .. B].
    Unlike [canonical] it allows zero coefficients and unbounded constants:
    it is what intermediate results satisfy. *)

Fixpoint wfB (B : Z) (p : Poly) : bool :=
  match p with
  | Coeff _ => true
  | Terms arr =>
      negb (is_nil arr) && negb (is_flat arr) && ascending (map m_exp arr)
      && forallb (fun m => wfB B (m_p m) && (0 <=? m_exp m) && (m_exp m <=? B)) arr
  end.

Definition wfB_mono (B : Z) (m : Mono) : Prop :=
  wfB B (m_p m) = true /\ 0 <= m_exp m <= B.


(** The monomials of a list are in strictly ascending order of exponent. *)
Definition asc (l : list Mono) : Prop := ascending (map m_exp l) = true.

(** What [TrimAndInterpretMonoArr] returns for an array [out] of which every
    slot is used. *)
Definition Interpret (out : list Mono) : Poly :=
  match out with
  | [] => PolyZero
  | [m] =>
      if PolyIsZero (m_p m) then PolyZero
      else if (m_exp m =? 0) && PolyIsCoeff (m_p m) then m_p m
      else Terms out
  | _ => Terms out
  end.

(** The order [MonoSort] establishes. *)
Definition le_exp (a b : Mono) : Prop := m_exp a <= m_exp b.

(** Negation as the spec words it (section 4.3): negate the coefficient of a
    constant, else negate every monomial's coefficient and keep the
    exponents.  [PolyNeg] is compared with it below. *)
Fixpoint Negate (p : Poly) : Poly :=
  match p with
  | Coeff c => Coeff (wrap64 (NEG * c))
  | Terms arr => Terms (map (fun m => MkMono (Negate (m_p m)) (m_exp m)) arr)
  end.

Definition NegateMono (m : Mono) : Mono := MkMono (Negate (m_p m)) (m_exp m).

(** Equality of 64-bit coefficients: congruence modulo [2^64]. *)
Definition eqm64 (a b : Z) : Prop := a mod 2 ^ 64 = b mod 2 ^ 64.

(** Two canonical polynomials in three variables whose product forms
    exponent sums above [2^31 - 1]: [2147483647 + 2147483644] wraps to [-5]
    in the innermost variable. *)
Definition wrap_p : Poly :=
  Terms
    [MkMono (Terms [MkMono (Terms [MkMono (Coeff 1) 2147483647]) 0;
                    MkMono (Terms [MkMono (Coeff 1) 0; MkMono (Coeff 1) 3]) 1;
                    MkMono (Coeff 1) 2]) 0;
     MkMono (Terms [MkMono (Terms [MkMono (Coeff (-1)) 2147483647]) 0;
                    MkMono (Terms [MkMono (Coeff (-1)) 3]) 1;
                    MkMono (Coeff 1) 2]) 1;
     MkMono (Terms [MkMono (Coeff (-2)) 2]) 2;
     MkMono (Terms [MkMono (Coeff (-1)) 2]) 3].

Definition wrap_q : Poly :=
  Terms
    [MkMono (Coeff 1) 0;
     MkMono (Coeff 1) 1;
     MkMono (Terms [MkMono (Coeff 1) 0; MkMono (Coeff 1) 1;
                    MkMono (Terms [MkMono (Coeff 1) 2147483644]) 2]) 2;
     MkMono (Terms [MkMono (Coeff 1) 0; MkMono (Coeff 1) 1;
                    MkMono (Terms [MkMono (Coeff 1) 2147483644]) 2]) 3].

(** What the invariant proofs ask of the recursive call [rec] of an
    addition or multiplication helper at a coefficient [p]. *)
Definition add_const_ok (B : Z) (rec : Poly -> Poly -> option Poly) (p : Poly)
  : Prop :=
  forall c, exists r,
    rec p (Coeff c) = Some r /\ wfB B r = true
    /\ (PolyIsCoeff p = false -> PolyIsCoeff r = false).

Definition add_ok (B : Z) (rec : Poly -> Poly -> option Poly) (p : Poly) : Prop :=
  forall q, wfB B q = true ->
            exists r, rec p q = Some r /\ wfB B r = true.

Definition mul_const_ok (B : Z) (rec : Poly -> Poly -> option Poly) (p : Poly)
  : Prop :=
  forall c, exists r, rec p (Coeff c) = Some r /\ wfB B r = true.

Definition mul_ok (B1 B2 : Z) (rec : Poly -> Poly -> option Poly) (p : Poly)
  : Prop :=
  forall q, wfB B2 q = true ->
            exists r, rec p q = Some r /\ wfB (B1 + B2) r = true.

(** The coefficients of the exponent-0 monomials of a non-constant [p], and
    the sum of a list of polynomials by repeated [PolyAdd] from zero. *)
Definition exp0_coeffs (p : Poly) : list Poly :=
  match p with
  | Coeff _ => []
  | Terms arr => map m_p (filter (fun m => m_exp m =? 0) arr)
  end.

Definition SumPolys (l : list Poly) : option Poly := foldM PolyAdd l PolyZero.

(** ** The value a polynomial denotes

    [env i] is the value of the variable [x_i]; a [Terms] list met at
    nesting depth [d] is a polynomial in [x_d], its coefficients live at
    depth [d + 1].  Values are compared with [eqm64], the coefficient
    arithmetic of the code being 64-bit. *)
Fixpoint eval (env : nat -> Z) (d : nat) (p : Poly) : Z :=
  match p with
  | Coeff c => c
  | Terms arr =>
      fold_right (fun m acc => eval env (S d) (m_p m) * env d ^ m_exp m + acc)
                 0 arr
  end.

Definition evalMono (env : nat -> Z) (d : nat) (m : Mono) : Z :=
  eval env (S d) (m_p m) * env d ^ m_exp m.

Definition evalMonos (env : nat -> Z) (d : nat) (l : list Mono) : Z :=
  fold_right (fun m acc => evalMono env d m + acc) 0 l.

(** The environment [PolyCompose] substitutes: [x_i] becomes the value of
    [q[i]] for [i < k] and zero from [k] on. *)
Definition subst_env (env : nat -> Z) (k : nat) (q : list Poly) : nat -> Z :=
  fun i =>
    if Nat.ltb i k then
      match nth_error q i with
      | Some qi => eval env 0 qi
      | None => 0
      end
    else 0.

(** What the semantic proofs ask of the recursive call [rec] of an addition
    helper at a coefficient [p]. *)
Definition add_sem (rec : Poly -> Poly -> option Poly) (p : Poly) : Prop :=
  forall q r, rec p q = Some r ->
              forall env d, eqm64 (eval env d r) (eval env d p + eval env d q).

(** The same for the recursive call of a multiplication helper: by a
    constant [q], and by a [q] whose exponents are at most [B2]. *)
Definition mul_const_sem (rec : Poly -> Poly -> option Poly) (p : Poly) : Prop :=
  forall q r, PolyIsCoeff q = true -> rec p q = Some r ->
              forall env d, eqm64 (eval env d r) (eval env d p * eval env d q).

Definition mul_sem (B2 : Z) (rec : Poly -> Poly -> option Poly) (p : Poly) : Prop :=
  forall q r, wfB B2 q = true -> rec p q = Some r ->
              forall env d, eqm64 (eval env d r) (eval env d p * eval env d q).

(** Every product of a coefficient of [lp] by a coefficient of [lq], in the
    order of the two loops of [PolyMul], is returned. *)
Definition coefficient_products_returned (lp lq : list Mono) : bool :=
  forallb (fun ab => match PolyMul (m_p (fst ab)) (m_p (snd ab)) with
                     | Some _ => true
                     | None => false
                     end) (list_prod lp lq).

(** [m] is the product monomial of the pair [ab]: the product of the
    coefficients with the 32-bit sum of the exponents. *)
Definition product_of (m : Mono) (ab : Mono * Mono) : Prop :=
  PolyMul (m_p (fst ab)) (m_p (snd ab)) = Some (m_p m)
  /\ m_exp m = wrap32 (m_exp (fst ab) + m_exp (snd ab)).

(** ** Further predicates used for the operators *)

(** Every constant of [p] is a 64-bit value and no [Terms] list of [p] holds
    a zero coefficient: with [wfB exp_max] this is [canonical]. *)
Fixpoint zero_free (p : Poly) : bool :=
  match p with
  | Coeff c => (coeff_min <=? c) && (c <=? coeff_max)
  | Terms arr =>
      forallb (fun m => zero_free (m_p m) && negb (PolyIsZero (m_p m))) arr
  end.

Definition zero_free_mono (m : Mono) : Prop :=
  zero_free (m_p m) = true /\ PolyIsZero (m_p m) = false.

(** What the proofs that addition keeps [zero_free] ask of the recursive
    call [rec] at a coefficient [p]. *)
Definition add_zero_free (rec : Poly -> Poly -> option Poly) (p : Poly) : Prop :=
  forall q r, zero_free p = true -> zero_free q = true ->
              rec p q = Some r -> zero_free r = true.

(** The valuation in which [x_0] is [x] and [x_(i+1)] is the [x_i] of
    [env]: what [PolyAt] evaluates under. *)
Definition cons_env (x : Z) (env : nat -> Z) : nat -> Z :=
  fun i =>
    match i with
    | O => x
    | S j => env j
    end.

(** Every [Terms] list of [p], at any depth, is non-empty. *)
Fixpoint nonempty_terms (p : Poly) : bool :=
  match p with
  | Coeff _ => true
  | Terms arr => negb (is_nil arr) && forallb (fun m => nonempty_terms (m_p m)) arr
  end.

(** Two canonical polynomials used to instantiate the theorems:
    [1 + 2 x_1 x_0^3] and [4 - x_0^2]. *)
Definition sample_p : Poly :=
  Terms [MkMono (Coeff 1) 0; MkMono (Terms [MkMono (Coeff 2) 1]) 3].

Definition sample_q : Poly :=
  Terms [MkMono (Coeff 4) 0; MkMono (Coeff (-1)) 2].

(** ** The stack of polynomials (stack.c)

    [elements] is an array of [reserved] slots of which the first [size]
    are in use.  A slot [realloc] has just added holds no value yet
    ([None]); reading it, or indexing outside the array, is a failure.  The
    [size_t] counters are unbounded naturals: they never approach [2^64]
    before memory is exhausted. *)

Record Tstack : Type := MkStack {
  st_size : nat;
  st_reserved : nat;
  st_elements : list (option Poly)
}.

Definition SIZE_EXPAND_CONST : nat := 2.
Definition SIZE_SHRINK_BOUND : nat := 4.

Definition StackInit : Tstack :=
  {| st_size := 0; st_reserved := 0; st_elements := [] |}.

Definition StackIsEmpty (s : Tstack) : bool := Nat.eqb (st_size s) 0.

(** [realloc] keeps the slots that fit and adds unset ones. *)
Definition StackResize (s : Tstack) (new_size : nat) : Tstack :=
  {| st_size := st_size s;
     st_reserved := new_size;
     st_elements := firstn new_size (st_elements s)
                    ++ repeat None (new_size - length (st_elements s)) |}.

(** [arr[i] = v], a failure outside the array. *)
Fixpoint set_slot {A : Type} (arr : list A) (i : nat) (v : A) : option (list A) :=
  match arr, i with
  | [], _ => None
  | _ :: rest, O => Some (v :: rest)
  | a :: rest, S j => rest' <- set_slot rest j v ;; Some (a :: rest')
  end.

Definition Push (s : Tstack) (poly_to_push : Poly) : option Tstack :=
  let s1 :=
    if Nat.eqb (st_size s) (st_reserved s)
    then StackResize s (st_reserved s * SIZE_EXPAND_CONST + 1)
    else s in
  els <- set_slot (st_elements s1) (st_size s1) (Some poly_to_push) ;;
  Some {| st_size := S (st_size s1);
          st_reserved := st_reserved s1;
          st_elements := els |}.

(** With [size == 0] the decrement wraps and the read is outside the array. *)
Definition Pop (s : Tstack) : option (Poly * Tstack) :=
  match st_size s with
  | O => None
  | S n =>
      slot <- nth_error (st_elements s) n ;;
      to_return <- slot ;;
      let s1 := {| st_size := n;
                   st_reserved := st_reserved s;
                   st_elements := st_elements s |} in
      if Nat.leb n (st_reserved s / SIZE_SHRINK_BOUND)
      then Some (to_return, StackResize s1 n)
      else Some (to_return, s1)
  end.

Definition StackDoesHaveAtLeastTwoElements (s : Tstack) : bool :=
  Nat.leb 2 (st_size s).

(** The loop of [Empty]; each turn lowers [size] by one, so [size] turns
    are all it makes. *)
Fixpoint EmptyLoop (turns : nat) (s : Tstack) : option Tstack :=
  match turns with
  | O => Some s
  | S turns' =>
      if Nat.ltb 0 (st_size s) then
        popped <- Pop s ;; EmptyLoop turns' (snd popped)
      else Some s
  end.

Definition Empty (s : Tstack) : option Tstack := EmptyLoop (st_size s) s.

Definition StackSize (s : Tstack) : nat := st_size s.

(** The stack [s] holds the polynomials [l], bottom first, in an array
    that is neither overrun nor more than four times too large. *)
Definition Represents (s : Tstack) (l : list Poly) : Prop :=
  st_size s = length l
  /\ length (st_elements s) = st_reserved s
  /\ firstn (length l) (st_elements s) = map Some l
  /\ (st_reserved s <= 4 * length l)%nat.

(** ** Characters and numerals (the libc calls of input_output.c and calc.c)

    A C string is the list of its characters; the terminating [NUL] is what
    is read at and after the end of the list. *)

Definition cstring : Type := list Ascii.ascii.

Definition NULL_CHAR : Ascii.ascii := Ascii.zero.
Definition NEWLINE : Ascii.ascii := "010"%char.
Definition MINUS_SIGN : Ascii.ascii := "-"%char.
Definition PLUS_SIGN : Ascii.ascii := "+"%char.
Definition SEPARATOR : Ascii.ascii := ","%char.
Definition OPENING_BRACKET : Ascii.ascii := "("%char.
Definition CLOSING_BRACKET : Ascii.ascii := ")"%char.

Definition chars (s : String.string) : cstring := String.list_ascii_of_string s.

Arguments chars s%_string.

(** [s[i]]. *)
Definition char_at (s : cstring) (i : nat) : Ascii.ascii := nth i s NULL_CHAR.

Definition isdigit (c : Ascii.ascii) : bool :=
  Nat.leb 48 (Ascii.nat_of_ascii c) && Nat.leb (Ascii.nat_of_ascii c) 57.

Definition isspace (c : Ascii.ascii) : bool :=
  (Nat.leb 9 (Ascii.nat_of_ascii c) && Nat.leb (Ascii.nat_of_ascii c) 13)
  || Nat.eqb (Ascii.nat_of_ascii c) 32.

Definition isalpha (c : Ascii.ascii) : bool :=
  (Nat.leb 65 (Ascii.nat_of_ascii c) && Nat.leb (Ascii.nat_of_ascii c) 90)
  || (Nat.leb 97 (Ascii.nat_of_ascii c) && Nat.leb (Ascii.nat_of_ascii c) 122).

Definition digit_value (c : Ascii.ascii) : Z := Z.of_nat (Ascii.nat_of_ascii c) - 48.

Definition LONG_MAX : Z := 9223372036854775807.
Definition LONG_MIN : Z := - LONG_MAX - 1.
Definition ULLONG_MAX : Z := 18446744073709551615.
Definition ERANGE : Z := 34.

Fixpoint skip_spaces (s : cstring) : cstring :=
  match s with
  | c :: rest => if isspace c then skip_spaces rest else s
  | [] => []
  end.

(** The digits at the head of [s], accumulated in base 10 onto [acc], and
    what follows them. *)
Fixpoint read_digits (s : cstring) (acc : Z) : Z * cstring :=
  match s with
  | c :: rest =>
      if isdigit c then read_digits rest (acc * 10 + digit_value c)
      else (acc, s)
  | [] => (acc, [])
  end.

(** [strtol(nptr, &endptr, 10)] called with [errno == 0]: the value, the
    end pointer and [errno] afterwards.  Without a digit nothing is
    converted and the end pointer is [nptr]; a value outside [long] is
    clamped and sets [ERANGE]. *)
Definition strtol (nptr : cstring) : Z * cstring * Z :=
  let s1 := skip_spaces nptr in
  let '(negative, s2) :=
    match s1 with
    | c :: rest =>
        if Ascii.eqb c MINUS_SIGN then (true, rest)
        else if Ascii.eqb c PLUS_SIGN then (false, rest)
        else (false, s1)
    | [] => (false, s1)
    end in
  if isdigit (char_at s2 0) then
    let '(v, endptr) := read_digits s2 0 in
    let v' := if negative then - v else v in
    if v' >? LONG_MAX then (LONG_MAX, endptr, ERANGE)
    else if v' <? LONG_MIN then (LONG_MIN, endptr, ERANGE)
    else (v', endptr, 0)
  else (0, nptr, 0).

(** [strtoull], likewise; a minus sign negates modulo [2^64]. *)
Definition strtoull (nptr : cstring) : Z * cstring * Z :=
  let s1 := skip_spaces nptr in
  let '(negative, s2) :=
    match s1 with
    | c :: rest =>
        if Ascii.eqb c MINUS_SIGN then (true, rest)
        else if Ascii.eqb c PLUS_SIGN then (false, rest)
        else (false, s1)
    | [] => (false, s1)
    end in
  if isdigit (char_at s2 0) then
    let '(v, endptr) := read_digits s2 0 in
    if v >? ULLONG_MAX then (ULLONG_MAX, endptr, ERANGE)
    else ((if negative then (- v) mod 2 ^ 64 else v), endptr, 0)
  else (0, nptr, 0).

(** The decimal digits [printf] writes for [%ld], [%d] and [%zu]. *)
Fixpoint uint_chars (d : Decimal.uint) : cstring :=
  match d with
  | Decimal.Nil => []
  | Decimal.D0 l => "0"%char :: uint_chars l
  | Decimal.D1 l => "1"%char :: uint_chars l
  | Decimal.D2 l => "2"%char :: uint_chars l
  | Decimal.D3 l => "3"%char :: uint_chars l
  | Decimal.D4 l => "4"%char :: uint_chars l
  | Decimal.D5 l => "5"%char :: uint_chars l
  | Decimal.D6 l => "6"%char :: uint_chars l
  | Decimal.D7 l => "7"%char :: uint_chars l
  | Decimal.D8 l => "8"%char :: uint_chars l
  | Decimal.D9 l => "9"%char :: uint_chars l
  end.

Definition print_Z (z : Z) : cstring :=
  match z with
  | Z0 => ["0"%char]
  | Zpos p => uint_chars (Pos.to_uint p)
  | Zneg p => MINUS_SIGN :: uint_chars (Pos.to_uint p)
  end.

Definition print_nat (n : nat) : cstring := print_Z (Z.of_nat n).

(** ** Error handling (error_handler.c) *)

Definition NO_ERROR_CODE : Z := -1.
Definition WRONG_COMMAND_CODE : Z := 0.
Definition DEG_BY_WRONG_VAR_CODE : Z := 1.
Definition AT_WRONG_VAL_CODE : Z := 2.
Definition STACK_UNDERFLOW_CODE : Z := 3.
Definition WRONG_POLY_CODE : Z := 4.
Definition NO_MEMORY_CODE : Z := 5.
Definition COMPOSE_WRONG_PARAM_CODE : Z := 6.

Record ErrorHandler : Type := MkHandler {
  line_number : nat;
  code : Z
}.

Definition NewErrorHandler (w : nat) : ErrorHandler :=
  {| line_number := w; code := NO_ERROR_CODE |}.

Definition ErrorHandlerSetCode (handler : ErrorHandler) (c : Z) : ErrorHandler :=
  {| line_number := line_number handler; code := c |}.

Definition IsError (e : ErrorHandler) : bool := negb (code e =? NO_ERROR_CODE).

(** How a call ends: by returning, or in [exit(status)]. *)
Inductive Outcome (A : Type) : Type :=
| Returns (a : A)
| Exits (status : Z).

Arguments Returns {A} a.
Arguments Exits {A} status.

(** What [HandleError] writes to [stderr], and how it ends. *)
Definition HandleError (handler : ErrorHandler) : cstring * Outcome bool :=
  let report (ending : String.string) :=
    (chars "ERROR " ++ print_nat (line_number handler) ++ chars " "
     ++ chars ending ++ [NEWLINE], Returns true) in
  if code handler =? NO_ERROR_CODE then ([], Returns false)
  else if code handler =? WRONG_COMMAND_CODE then report "WRONG COMMAND"%string
  else if code handler =? DEG_BY_WRONG_VAR_CODE then report "DEG BY WRONG VARIABLE"%string
  else if code handler =? AT_WRONG_VAL_CODE then report "AT WRONG VALUE"%string
  else if code handler =? STACK_UNDERFLOW_CODE then report "STACK UNDERFLOW"%string
  else if code handler =? WRONG_POLY_CODE then report "WRONG POLY"%string
  else if code handler =? COMPOSE_WRONG_PARAM_CODE then report "COMPOSE WRONG PARAMETER"%string
  else if code handler =? NO_MEMORY_CODE then (chars "NO MEMORY", Exits 1)
  else (chars "UNEXPECTED ERROR CODE", Exits 1).

Definition HandleErrorCode (c : Z) (line_num : nat) : cstring * Outcome bool :=
  HandleError (ErrorHandlerSetCode (NewErrorHandler line_num) c).

(** The validity tests read the global [errno], here their first argument. *)
Definition IsCoeffOrAtArgValid (errno : Z) (n : Z) : bool :=
  negb (negb (errno =? 0) || (n <? LONG_MIN) || (n >? LONG_MAX)).

Definition EXP_UPPER_BOUND : Z := 2147483647.
Definition EXP_LOWER_BOUND : Z := 0.

Definition IsExpValid (errno : Z) (n : Z) : bool :=
  negb (negb (errno =? 0) || (n <? EXP_LOWER_BOUND) || (n >? EXP_UPPER_BOUND)).

Definition IsDegByValid (errno : Z) (n : Z) : bool :=
  negb (negb (errno =? 0) || (n >? ULLONG_MAX)).

Definition IsComposeValid (errno : Z) (n : Z) : bool :=
  negb (negb (errno =? 0) || (n >? ULLONG_MAX)).

(** ** Printing polynomials (input_output.c)

    What [PolyPrint] writes to [stdout].  It reads [arr[0]] before it looks
    at [size], so an empty array is a failure. *)

Fixpoint PolyPrint (p : Poly) : option cstring :=
  match p with
  | Coeff c => Some (print_Z c)
  | Terms arr =>
      match arr with
      | [] => None
      | first :: rest =>
          s0 <- (s <- PolyPrint (m_p first) ;;
                 Some (OPENING_BRACKET :: s ++ SEPARATOR :: print_Z (m_exp first)
                       ++ [CLOSING_BRACKET])) ;;
          ss <- mapM (fun m =>
                        s <- PolyPrint (m_p m) ;;
                        Some (PLUS_SIGN :: OPENING_BRACKET :: s
                              ++ SEPARATOR :: print_Z (m_exp m)
                              ++ [CLOSING_BRACKET])) rest ;;
          Some (s0 ++ concat ss)
      end
  end.

Definition MonoPrint (m : Mono) : option cstring :=
  s <- PolyPrint (m_p m) ;;
  Some (OPENING_BRACKET :: s ++ SEPARATOR :: print_Z (m_exp m) ++ [CLOSING_BRACKET]).

(** ** The growing array of monomials (mono_array.c) *)

Record DynamicMonoArray : Type := MkDynamicMonoArray {
  da_size : nat;
  da_reserved : nat;
  mono_array : list (option Mono)
}.

Definition RESIZE_CONST : nat := 2.

Definition NewDynamicMonoArray : DynamicMonoArray :=
  {| da_size := 0; da_reserved := 0; mono_array := [] |}.

Definition DynamicMonoArrayAdd (dynamic_array : DynamicMonoArray)
           (mono_to_add : Mono) : option DynamicMonoArray :=
  let d1 :=
    if Nat.eqb (da_size dynamic_array) (da_reserved dynamic_array) then
      let reserved := (da_reserved dynamic_array * RESIZE_CONST + 1)%nat in
      {| da_size := da_size dynamic_array;
         da_reserved := reserved;
         mono_array := firstn reserved (mono_array dynamic_array)
                       ++ repeat None (reserved - length (mono_array dynamic_array)) |}
    else dynamic_array in
  arr <- set_slot (mono_array d1) (da_size d1) (Some mono_to_add) ;;
  Some {| da_size := S (da_size d1);
          da_reserved := da_reserved d1;
          mono_array := arr |}.

(** The [size] monomials a callee reads from [mono_array]; a slot never
    written is a failure. *)
Definition DynamicMonoArrayContents (d : DynamicMonoArray) : option (list Mono) :=
  mapM (fun slot => slot) (firstn (da_size d) (mono_array d)).

(** The array [d] holds the monomials [l] in its first [size] slots. *)
Definition Holds (d : DynamicMonoArray) (l : list Mono) : Prop :=
  da_size d = length l
  /\ length (mono_array d) = da_reserved d
  /\ firstn (length l) (mono_array d) = map Some l.

(** ** Reading polynomials (input_output.c)

    A [char *] into the line is the list of the characters from it on.
    [last], a [char **], is the caller's variable: [None] while it is
    [NULL] or was never set.  The two readers call each other; [fuel]
    bounds the depth of the calls, and [3 * length + 3] is enough for a
    line of that length. *)

Definition MonoDummy : Mono := MkMono PolyZero 0.

(** [s + 1]; stepping over the terminating [NUL] leaves the line. *)
Definition next (s : cstring) : option cstring :=
  match s with
  | [] => None
  | _ :: rest => Some rest
  end.

Definition Reading (A : Type) : Type := option (A * option cstring * ErrorHandler).

Section Reading.

Variable feof_stdin : bool.

Fixpoint PolyReadFuel (fuel : nat) (string : cstring) (last : option cstring)
         (handler : ErrorHandler) {struct fuel} : Reading Poly :=
  match fuel with
  | O => None
  | S fuel' =>
      if isdigit (char_at string 0) || Ascii.eqb (char_at string 0) MINUS_SIGN then
        let '(value, endptr, errno) := strtol string in
        let to_return := PolyFromCoeff value in
        if negb (IsCoeffOrAtArgValid errno value) then
          Some (PolyZero, Some endptr, ErrorHandlerSetCode handler WRONG_POLY_CODE)
        else Some (to_return, Some endptr, handler)
      else if Ascii.eqb (char_at string 0) OPENING_BRACKET then
        PolyReadLoop fuel' string NewDynamicMonoArray last handler
      else Some (PolyZero, last, ErrorHandlerSetCode handler WRONG_POLY_CODE)
  end

(** One turn of the [do ... while] of [PolyRead], and what follows it. *)
with PolyReadLoop (fuel : nat) (string : cstring) (monos : DynamicMonoArray)
       (last : option cstring) (handler : ErrorHandler) {struct fuel}
  : Reading Poly :=
  match fuel with
  | O => None
  | S fuel' =>
      string1 <- (if Ascii.eqb (char_at string 0) PLUS_SIGN then next string
                  else Some string) ;;
      r <- MonoReadFuel fuel' string1 last handler ;;
      let '(to_add, last1, handler1) := r in
      if IsError handler1 then Some (PolyZero, last1, handler1)
      else
        l <- last1 ;;
        string2 <- next l ;;
        monos1 <- (if negb (PolyIsZero (m_p to_add) && (m_exp to_add =? 0))
                   then DynamicMonoArrayAdd monos to_add
                   else Some monos) ;;
        if Ascii.eqb (char_at string2 0) PLUS_SIGN then
          PolyReadLoop fuel' string2 monos1 last1 handler1
        else
          let c := char_at string2 0 in
          let handler2 :=
            if (negb (Ascii.eqb c SEPARATOR) && negb (Ascii.eqb c NEWLINE)
                && negb (Ascii.eqb c NULL_CHAR))
               || (Ascii.eqb c NULL_CHAR && negb feof_stdin)
            then ErrorHandlerSetCode handler1 WRONG_POLY_CODE
            else handler1 in
          arr <- DynamicMonoArrayContents monos1 ;;
          to_return <- PolyAddMonos (da_size monos1) arr ;;
          Some (to_return, Some string2, handler2)
  end

with MonoReadFuel (fuel : nat) (string : cstring) (last : option cstring)
       (handler : ErrorHandler) {struct fuel} : Reading Mono :=
  match fuel with
  | O => None
  | S fuel' =>
      if IsError handler then Some (MonoDummy, last, handler)
      else if negb (Ascii.eqb (char_at string 0) OPENING_BRACKET) then
        Some (MonoDummy, last, ErrorHandlerSetCode handler WRONG_POLY_CODE)
      else
        string1 <- next string ;;
        r <- PolyReadFuel fuel' string1 last handler ;;
        let '(coeff, last1, handler1) := r in
        if IsError handler1 then Some (MonoDummy, last1, handler1)
        else
          l <- last1 ;;
          if negb (Ascii.eqb (char_at l 0) SEPARATOR) then
            Some (MonoDummy, last1, ErrorHandlerSetCode handler1 WRONG_POLY_CODE)
          else if negb (isdigit (char_at l 1)) then
            Some (MonoDummy, last1, ErrorHandlerSetCode handler1 WRONG_POLY_CODE)
          else
            l1 <- next l ;;
            let '(value, endptr, errno) := strtol l1 in
            let exp := wrap32 value in
            if negb (IsExpValid errno exp) then
              Some (MonoDummy, Some endptr,
                    ErrorHandlerSetCode handler1 WRONG_POLY_CODE)
            else if negb (Ascii.eqb (char_at endptr 0) CLOSING_BRACKET) then
              Some (MonoDummy, Some endptr,
                    ErrorHandlerSetCode handler1 WRONG_POLY_CODE)
            else if PolyIsZero coeff && negb (exp =? 0) then
              Some (MonoDummy, Some endptr, handler1)
            else
              m <- MonoFromPoly coeff exp ;;
              Some (m, Some endptr, handler1)
  end.

Definition PolyRead (string : cstring) (last : option cstring)
           (handler : ErrorHandler) : Reading Poly :=
  PolyReadFuel (3 * length string + 3) string last handler.

Definition MonoRead (string : cstring) (last : option cstring)
           (handler : ErrorHandler) : Reading Mono :=
  MonoReadFuel (3 * length string + 1) string last handler.

(** The characters after which a bracketed polynomial may end. *)
Definition ends_poly (rest : cstring) : bool :=
  let c := char_at rest 0 in
  Ascii.eqb c SEPARATOR || Ascii.eqb c NEWLINE
  || (Ascii.eqb c NULL_CHAR && feof_stdin).

End Reading.

(** ** What the readers guarantee *)

(** [l] is a pointer into the line [s]. *)
Definition suffix (l s : cstring) : Prop := exists pre, s = pre ++ l.

(** The handler after a read: as it was, or with [WRONG_POLY_CODE] set. *)
Definition kept_or_wrong_poly (handler h' : ErrorHandler) : Prop :=
  h' = handler \/ h' = ErrorHandlerSetCode handler WRONG_POLY_CODE.

Definition PolyRead_ok (feof_stdin : bool) (string : cstring) : Prop :=
  forall fuel last handler,
    (3 * length string + 3 <= fuel)%nat ->
    exists p last' h',
      PolyReadFuel feof_stdin fuel string last handler = Some (p, last', h')
      /\ wfB exp_max p = true
      /\ kept_or_wrong_poly handler h'
      /\ (IsError h' = false -> exists l', last' = Some l' /\ suffix l' string).

Definition PolyReadLoop_ok (feof_stdin : bool) (string : cstring) : Prop :=
  forall fuel monos ms last handler,
    (3 * length string + 2 <= fuel)%nat ->
    Holds monos ms -> Forall (wfB_mono exp_max) ms ->
    exists p last' h',
      PolyReadLoop feof_stdin fuel string monos last handler = Some (p, last', h')
      /\ wfB exp_max p = true
      /\ kept_or_wrong_poly handler h'
      /\ (IsError h' = false -> exists l', last' = Some l' /\ suffix l' string).

Definition MonoRead_ok (feof_stdin : bool) (string : cstring) : Prop :=
  forall fuel last handler,
    (3 * length string + 1 <= fuel)%nat ->
    exists m last' h',
      MonoReadFuel feof_stdin fuel string last handler = Some (m, last', h')
      /\ wfB_mono exp_max m
      /\ kept_or_wrong_poly handler h'
      /\ (IsError h' = false ->
          exists l', last' = Some (CLOSING_BRACKET :: l')
                     /\ suffix (CLOSING_BRACKET :: l') string).

(** Reading the text [s] of [p], followed by [rest], gives [p] back and
    stops at [rest]. *)
Definition reads_back (feof_stdin : bool) (p : Poly) (s : cstring) : Prop :=
  forall rest fuel last handler,
    ends_poly feof_stdin rest = true -> IsError handler = false ->
    (3 * length (s ++ rest) + 3 <= fuel)%nat ->
    PolyReadFuel feof_stdin fuel (s ++ rest) last handler
    = Some (p, Some rest, handler).

(** ** The calculator (calc.c)

    The calculator works on its stack and writes to [stdout] and [stderr].
    A function that may stop the program returns an [Outcome]; a failure
    ([None]) is an assertion that fires or an access outside an array.
    Memory does not run out: [malloc] and [realloc] succeed, [malloc(0)]
    with a pointer that is not [NULL]. *)

Record Machine : Type := MkMachine {
  stack : Tstack;
  stdout : cstring;
  stderr : cstring
}.

Definition Calc : Type := option (Outcome Machine).

Definition with_stack (w : Machine) (s : Tstack) : Machine :=
  {| stack := s; stdout := stdout w; stderr := stderr w |}.

Definition printf (w : Machine) (text : cstring) : Machine :=
  {| stack := stack w; stdout := stdout w ++ text; stderr := stderr w |}.

(** [HandleError] and [HandleErrorCode] as statements of the calculator. *)
Definition DoHandleError (w : Machine) (handler : ErrorHandler) : Calc :=
  let '(text, outcome) := HandleError handler in
  match outcome with
  | Returns _ =>
      Some (Returns {| stack := stack w; stdout := stdout w;
                       stderr := stderr w ++ text |})
  | Exits status => Some (Exits status)
  end.

Definition DoHandleErrorCode (w : Machine) (c : Z) (line_num : nat) : Calc :=
  DoHandleError w (ErrorHandlerSetCode (NewErrorHandler line_num) c).

Definition ZERO_STRING : cstring := chars "ZERO".
Definition IS_COEFF_STRING : cstring := chars "IS_COEFF".
Definition IS_ZERO_STRING : cstring := chars "IS_ZERO".
Definition CLONE_STRING : cstring := chars "CLONE".
Definition ADD_STRING : cstring := chars "ADD".
Definition MUL_STRING : cstring := chars "MUL".
Definition NEG_STRING : cstring := chars "NEG".
Definition SUB_STRING : cstring := chars "SUB".
Definition IS_EQ_STRING : cstring := chars "IS_EQ".
Definition DEG_STRING : cstring := chars "DEG".
Definition PRINT_STRING : cstring := chars "PRINT".
Definition POP_STRING : cstring := chars "POP".
Definition DEG_BY_STRING : cstring := chars "DEG_BY".
Definition DEG_BY_WITH_SPACE_STRING : cstring := chars "DEG_BY ".
Definition DEG_BY_LEN : nat := 6.
Definition AT_STRING : cstring := chars "AT".
Definition AT_WITH_SPACE_STRING : cstring := chars "AT ".
Definition AT_LEN : nat := 2.
Definition COMPOSE_STRING : cstring := chars "COMPOSE".
Definition COMPOSE_WITH_SPACE_STRING : cstring := chars "COMPOSE ".
Definition COMPOSE_LEN : nat := 7.
Definition COMMENT_CHAR : Ascii.ascii := "#"%char.
Definition TRUE_STRING : cstring := chars "1" ++ [NEWLINE].
Definition FALSE_STRING : cstring := chars "0" ++ [NEWLINE].

(** [strncmp(s1, s2, n) == 0]. *)
Fixpoint strncmp_eq (s1 s2 : cstring) (n : nat) : bool :=
  match n with
  | O => true
  | S n' =>
      if Ascii.eqb (char_at s1 0) (char_at s2 0) then
        if Ascii.eqb (char_at s1 0) NULL_CHAR then true
        else strncmp_eq (tl s1) (tl s2) n'
      else false
  end.

(** [arr[i - 1] = Pop(s)] for [i] from [count] down to 1. *)
Fixpoint PopArray (count : nat) (s : Tstack) : option (list Poly * Tstack) :=
  match count with
  | O => Some ([], s)
  | S count' =>
      popped <- Pop s ;;
      filled <- PopArray count' (snd popped) ;;
      Some (fst filled ++ [fst popped], snd filled)
  end.

Section Calculator.

Variable feof_stdin : bool.

(** The loop of [InstrCmp] runs over [instr], a literal; then the test of
    what follows in [to_cmp]. *)
Fixpoint InstrCmp (instr to_cmp : cstring) : bool :=
  match instr with
  | c :: instr' =>
      if negb (Ascii.eqb c (char_at to_cmp 0)) then false
      else InstrCmp instr' (tl to_cmp)
  | [] =>
      if Ascii.eqb (char_at to_cmp 0) NULL_CHAR then
        if negb feof_stdin then false else true
      else if Ascii.eqb (char_at to_cmp 0) NEWLINE
              && Ascii.eqb (char_at to_cmp 1) NULL_CHAR then true
      else false
  end.

Definition CalcZero (s : Tstack) : option Tstack := Push s PolyZero.

Definition CalcIsCoeff (poly : Poly) : cstring :=
  if PolyIsCoeff poly then TRUE_STRING else FALSE_STRING.

Definition CalcIsZero (poly : Poly) : cstring :=
  if PolyIsZero poly then TRUE_STRING else FALSE_STRING.

Definition CalcClone (poly : Poly) : option Poly := PolyClone poly.

Definition CalcAdd (first second : Poly) : option Poly := PolyAdd first second.

Definition CalcMul (first second : Poly) : option Poly := PolyMul first second.

Definition CalcNeg (poly : Poly) : option Poly := PolyNeg poly.

Definition CalcSub (first second : Poly) : option Poly := PolySub first second.

Definition CalcIsEq (first second : Poly) : cstring :=
  if PolyIsEq first second then TRUE_STRING else FALSE_STRING.

Definition CalcDeg (poly : Poly) : cstring := print_Z (PolyDeg poly) ++ [NEWLINE].

Definition CalcDegBy (poly : Poly) (var_idx : nat) : option cstring :=
  d <- PolyDegBy poly var_idx ;; Some (print_Z d ++ [NEWLINE]).

Definition CalcAt (poly : Poly) (x : Z) : option Poly := PolyAt poly x.

Definition CalcPrint (poly : Poly) : option cstring :=
  text <- PolyPrint poly ;; Some (text ++ [NEWLINE]).

Definition NullaryOperation (w : Machine) (instruction : cstring) : Calc :=
  if InstrCmp ZERO_STRING instruction then
    s <- CalcZero (stack w) ;; Some (Returns (with_stack w s))
  else Some (Returns w).

Definition UnaryOperation (w : Machine) (instruction : cstring) (line_num : nat)
  : Calc :=
  if StackIsEmpty (stack w) then DoHandleErrorCode w STACK_UNDERFLOW_CODE line_num
  else
    popped <- Pop (stack w) ;;
    let '(top, s) := popped in
    done <-
      (if InstrCmp IS_COEFF_STRING instruction then Some (top, s, CalcIsCoeff top)
       else if InstrCmp IS_ZERO_STRING instruction then Some (top, s, CalcIsZero top)
       else if InstrCmp CLONE_STRING instruction then
         clone <- CalcClone top ;; s1 <- Push s clone ;; Some (top, s1, [])
       else if InstrCmp NEG_STRING instruction then
         result <- CalcNeg top ;; Some (result, s, [])
       else if InstrCmp DEG_STRING instruction then Some (top, s, CalcDeg top)
       else if InstrCmp PRINT_STRING instruction then
         text <- CalcPrint top ;; Some (top, s, text)
       else Some (top, s, [])) ;;
    let '(top1, s1, text) := done in
    s2 <- Push s1 top1 ;;
    s3 <- (if InstrCmp POP_STRING instruction then
             to_destroy <- Pop s2 ;; Some (snd to_destroy)
           else Some s2) ;;
    Some (Returns (printf (with_stack w s3) text)).

Definition BinaryOperation (w : Machine) (instruction : cstring) (line_num : nat)
  : Calc :=
  if negb (StackDoesHaveAtLeastTwoElements (stack w)) then
    DoHandleErrorCode w STACK_UNDERFLOW_CODE line_num
  else
    popped1 <- Pop (stack w) ;;
    let '(first, s1) := popped1 in
    popped2 <- Pop s1 ;;
    let '(second, s2) := popped2 in
    if InstrCmp ADD_STRING instruction then
      result <- CalcAdd first second ;;
      s3 <- Push s2 result ;; Some (Returns (with_stack w s3))
    else if InstrCmp MUL_STRING instruction then
      result <- CalcMul first second ;;
      s3 <- Push s2 result ;; Some (Returns (with_stack w s3))
    else if InstrCmp SUB_STRING instruction then
      result <- CalcSub first second ;;
      s3 <- Push s2 result ;; Some (Returns (with_stack w s3))
    else if InstrCmp IS_EQ_STRING instruction then
      s3 <- Push s2 second ;;
      s4 <- Push s3 first ;;
      Some (Returns (printf (with_stack w s4) (CalcIsEq first second)))
    else Some (Returns (with_stack w s2)).

(** [*last != NEWLINE && !(feof(stdin) && *last == NULL_CHAR)]. *)
Definition bad_ending (last : cstring) : bool :=
  negb (Ascii.eqb (char_at last 0) NEWLINE)
  && negb (feof_stdin && Ascii.eqb (char_at last 0) NULL_CHAR).

Definition ParametricUnaryOperation (w : Machine) (instruction : cstring)
           (line_num : nat) : Calc :=
  if strncmp_eq instruction DEG_BY_STRING DEG_BY_LEN then
    if strncmp_eq instruction DEG_BY_WITH_SPACE_STRING (DEG_BY_LEN + 1)
       && isdigit (char_at instruction (DEG_BY_LEN + 1)) then
      let '(var_idx, last, errno) := strtoull (skipn (DEG_BY_LEN + 1) instruction) in
      if bad_ending last || negb (IsDegByValid errno var_idx) then
        DoHandleErrorCode w DEG_BY_WRONG_VAR_CODE line_num
      else if StackIsEmpty (stack w) then
        DoHandleErrorCode w STACK_UNDERFLOW_CODE line_num
      else
        popped <- Pop (stack w) ;;
        let '(top, s) := popped in
        text <- CalcDegBy top (Z.to_nat var_idx) ;;
        s1 <- Push s top ;;
        Some (Returns (printf (with_stack w s1) text))
    else if negb (isspace (char_at instruction DEG_BY_LEN)) then
      DoHandleErrorCode w WRONG_COMMAND_CODE line_num
    else DoHandleErrorCode w DEG_BY_WRONG_VAR_CODE line_num
  else if strncmp_eq instruction AT_STRING AT_LEN then
    if strncmp_eq instruction AT_WITH_SPACE_STRING (AT_LEN + 1)
       && (isdigit (char_at instruction (AT_LEN + 1))
           || Ascii.eqb (char_at instruction (AT_LEN + 1)) MINUS_SIGN) then
      let '(coeff, last, errno) := strtol (skipn (AT_LEN + 1) instruction) in
      if bad_ending last || negb (IsCoeffOrAtArgValid errno coeff) then
        DoHandleErrorCode w AT_WRONG_VAL_CODE line_num
      else if StackIsEmpty (stack w) then
        DoHandleErrorCode w STACK_UNDERFLOW_CODE line_num
      else
        popped <- Pop (stack w) ;;
        let '(top, s) := popped in
        result <- CalcAt top coeff ;;
        s1 <- Push s result ;;
        Some (Returns (with_stack w s1))
    else if negb (isspace (char_at instruction AT_LEN)) then
      DoHandleErrorCode w WRONG_COMMAND_CODE line_num
    else DoHandleErrorCode w AT_WRONG_VAL_CODE line_num
  else if strncmp_eq instruction COMPOSE_STRING COMPOSE_LEN then
    if strncmp_eq instruction COMPOSE_WITH_SPACE_STRING (COMPOSE_LEN + 1)
       && isdigit (char_at instruction (COMPOSE_LEN + 1)) then
      let '(count, last, errno) := strtoull (skipn (COMPOSE_LEN + 1) instruction) in
      if bad_ending last || negb (IsComposeValid errno count) then
        DoHandleErrorCode w COMPOSE_WRONG_PARAM_CODE line_num
      else if (Z.of_nat (StackSize (stack w)) - 1) mod 2 ^ 64 <? count then
        DoHandleErrorCode w STACK_UNDERFLOW_CODE line_num
      else
        popped <- Pop (stack w) ;;
        let '(main_to_compose, s) := popped in
        filled <- PopArray (Z.to_nat count) s ;;
        let '(arr, s1) := filled in
        result <- PolyCompose main_to_compose (Z.to_nat count) arr ;;
        s2 <- Push s1 result ;;
        Some (Returns (with_stack w s2))
    else if negb (isspace (char_at instruction COMPOSE_LEN)) then
      DoHandleErrorCode w WRONG_COMMAND_CODE line_num
    else DoHandleErrorCode w COMPOSE_WRONG_PARAM_CODE line_num
  else Some (Returns w).

Definition CalcInterpretOperation (w : Machine) (instruction : cstring)
           (line_num : nat) : Calc :=
  if InstrCmp ZERO_STRING instruction then NullaryOperation w instruction
  else if InstrCmp IS_COEFF_STRING instruction then UnaryOperation w instruction line_num
  else if InstrCmp IS_ZERO_STRING instruction then UnaryOperation w instruction line_num
  else if InstrCmp CLONE_STRING instruction then UnaryOperation w instruction line_num
  else if InstrCmp ADD_STRING instruction then BinaryOperation w instruction line_num
  else if InstrCmp MUL_STRING instruction then BinaryOperation w instruction line_num
  else if InstrCmp NEG_STRING instruction then UnaryOperation w instruction line_num
  else if InstrCmp SUB_STRING instruction then BinaryOperation w instruction line_num
  else if InstrCmp IS_EQ_STRING instruction then BinaryOperation w instruction line_num
  else if InstrCmp DEG_STRING instruction then UnaryOperation w instruction line_num
  else if InstrCmp PRINT_STRING instruction then UnaryOperation w instruction line_num
  else if InstrCmp POP_STRING instruction then UnaryOperation w instruction line_num
  else if strncmp_eq instruction DEG_BY_STRING DEG_BY_LEN then
    ParametricUnaryOperation w instruction line_num
  else if strncmp_eq instruction AT_STRING AT_LEN then
    ParametricUnaryOperation w instruction line_num
  else if strncmp_eq instruction COMPOSE_STRING COMPOSE_LEN then
    ParametricUnaryOperation w instruction line_num
  else DoHandleErrorCode w WRONG_COMMAND_CODE line_num.

(** [CalcReadLine] after its call of [getline], which returned [line]
    ([None] for [GETLINE_ERROR]) and left [feof(stdin)] as [feof_stdin]. *)
Definition CalcReadLine (w : Machine) (line : option cstring) (line_number : nat)
  : Calc :=
  let handler := NewErrorHandler line_number in
  match line with
  | None => Some (Returns w)
  | Some line =>
      if Ascii.eqb (char_at line 0) COMMENT_CHAR
         || Ascii.eqb (char_at line 0) NEWLINE then Some (Returns w)
      else if isalpha (char_at line 0) then
        CalcInterpretOperation w line line_number
      else
        r <- PolyRead feof_stdin line None handler ;;
        let '(input_poly, help, handler1) := r in
        let handler2 :=
          match help with
          | Some h =>
              if negb (Ascii.eqb (char_at h 0) NEWLINE)
                 && negb (Ascii.eqb (char_at h 0) NULL_CHAR && feof_stdin)
              then ErrorHandlerSetCode handler1 WRONG_POLY_CODE
              else handler1
          | None => handler1
          end in
        if IsError handler2 then DoHandleError w handler2
        else s <- Push (stack w) input_poly ;; Some (Returns (with_stack w s))
  end.

End Calculator.

(** [getline] on what is left of [stdin]: the line with its newline, what
    is left after it, and whether the end of the input was hit. *)
Fixpoint read_line (input : cstring) : cstring * cstring * bool :=
  match input with
  | [] => ([], [], true)
  | c :: rest =>
      if Ascii.eqb c NEWLINE then ([c], rest, false)
      else let '(line, remaining, eof) := read_line rest in (c :: line, remaining, eof)
  end.

Definition getline (input : cstring) : option cstring * cstring * bool :=
  match input with
  | [] => (None, [], true)
  | _ :: _ => let '(line, remaining, eof) := read_line input in (Some line, remaining, eof)
  end.

(** The loop of [main]; every turn takes at least one character of the
    input or ends the loop, so [length input + 1] turns are all it makes. *)
Fixpoint MainLoop (turns : nat) (input : cstring) (feof_stdin : bool)
         (line_number : nat) (w : Machine) : Calc :=
  if feof_stdin then Some (Returns w)
  else
    match turns with
    | O => None
    | S turns' =>
        let line_number := S line_number in
        let '(line, remaining, eof) := getline input in
        match CalcReadLine eof w line line_number with
        | Some (Returns w1) => MainLoop turns' remaining eof line_number w1
        | stopped => stopped
        end
    end.

(** [main]: what the program wrote and its stack after [Empty], or the
    status it exited with. *)
Definition main (input : cstring) : Calc :=
  let w := {| stack := StackInit; stdout := []; stderr := [] |} in
  match MainLoop (length input + 1) input false 0 w with
  | Some (Returns w1) => s <- Empty (stack w1) ;; Some (Returns (with_stack w1 s))
  | stopped => stopped
  end.

(** The line [HandleError] writes for line [n] and a message, and the
    machine after it. *)
Definition error_line (n : nat) (message : String.string) : cstring :=
  chars "ERROR " ++ print_nat n ++ chars " " ++ chars message ++ [NEWLINE].

Arguments error_line n%_nat message%_string.

Definition reported (w : Machine) (n : nat) (message : String.string) : Machine :=
  {| stack := stack w; stdout := stdout w;
     stderr := stderr w ++ error_line n message |}.

Arguments reported w n%_nat message%_string.

(** A line with its newline, as [getline] returns it. *)
Definition line_of (text : cstring) : cstring := text ++ [NEWLINE].

(** The line [COMPOSE k]. *)
Definition compose_line (k : nat) : cstring :=
  COMPOSE_WITH_SPACE_STRING ++ print_nat k ++ [NEWLINE].

(** A stack holding [sample_q] with [sample_p] on top, as two calls of
    [Push] on the initial stack leave it, and a machine with that stack. *)
Definition sample_stack : Tstack :=
  {| st_size := 2; st_reserved := 3;
     st_elements := [Some sample_q; Some sample_p; None] |}.

Definition sample_machine : Machine :=
  {| stack := sample_stack; stdout := []; stderr := [] |}.
(** ** Structural induction through the monomial arrays *)

Lemma Poly_nested_ind (P : Poly -> Prop) :
  (forall c, P (Coeff c)) ->
  (forall arr, Forall (fun m => P (m_p m)) arr -> P (Terms arr)) ->
  forall p, P p.
Proof.
  intros Hc Ht.
  fix IH 1.
  intros [c | arr].
  - apply Hc.
  - apply Ht.
    induction arr as [| m arr IHarr]; constructor.
    + destruct m as [q e]. simpl. apply IH.
    + exact IHarr.
Qed.

(** ** Basic facts *)

Lemma bind_Some {A B : Type} (x : option A) (f : A -> option B) (b : B) :
  bind x f = Some b <-> exists a, x = Some a /\ f a = Some b.
Proof.
  destruct x as [a |]; simpl; split.
  - intros H. exists a. auto.
  - intros [a' [Ha Hf]]. inversion Ha. subst. exact Hf.
  - discriminate.
  - intros [a' [Ha _]]. discriminate.
Qed.

Lemma mapM_ext_in {A B : Type} (f g : A -> option B) (l : list A) :
  (forall a, In a l -> f a = g a) -> mapM f l = mapM g l.
Proof.
  induction l as [| a l IH]; intros H; simpl.
  - reflexivity.
  - rewrite (H a (or_introl eq_refl)).
    rewrite IH; [reflexivity |].
    intros b Hb. apply H. right. exact Hb.
Qed.

Lemma mapM_id {A : Type} (f : A -> option A) (l : list A) :
  Forall (fun a => f a = Some a) l -> mapM f l = Some l.
Proof.
  induction 1 as [| a l Ha _ IH]; simpl.
  - reflexivity.
  - rewrite Ha. simpl. rewrite IH. reflexivity.
Qed.

Lemma mapM_Some_Forall2 {A B : Type} (f : A -> option B) (l : list A) (r : list B) :
  mapM f l = Some r <-> Forall2 (fun a b => f a = Some b) l r.
Proof.
  revert r. induction l as [| a l IH]; intros r; simpl.
  - split.
    + intros H. inversion H. constructor.
    + intros H. inversion H. reflexivity.
  - split.
    + intros H. apply bind_Some in H. destruct H as [b [Hb H]].
      apply bind_Some in H. destruct H as [bs [Hbs H]].
      inversion H. subst. constructor; [exact Hb |]. apply IH. exact Hbs.
    + intros H. inversion H as [| a' b l' bs Hb Hbs]. subst.
      rewrite Hb. simpl. apply IH in Hbs. rewrite Hbs. reflexivity.
Qed.

Lemma mapM_length {A B : Type} (f : A -> option B) (l : list A) (r : list B) :
  mapM f l = Some r -> length r = length l.
Proof.
  intros H. apply mapM_Some_Forall2 in H.
  symmetry. eapply Forall2_length. exact H.
Qed.

Lemma wrap64_small (z : Z) :
  coeff_min <= z <= coeff_max -> wrap64 z = z.
Proof.
  unfold wrap64, wrap, coeff_min, coeff_max. intros H.
  rewrite Z.mod_small; lia.
Qed.

Lemma wrap32_small (z : Z) :
  - 2 ^ 31 <= z <= exp_max -> wrap32 z = z.
Proof.
  unfold wrap32, wrap, exp_max. intros H.
  rewrite Z.mod_small; lia.
Qed.

Lemma wrap64_range (z : Z) : coeff_min <= wrap64 z <= coeff_max.
Proof.
  unfold wrap64, wrap, coeff_min, coeff_max.
  pose proof (Z.mod_pos_bound (z + 2 ^ (64 - 1)) (2 ^ 64)). lia.
Qed.

Lemma PolyFromSizeAndArray_all (arr : list Mono) :
  arr <> [] -> PolyFromSizeAndArray (length arr) arr = Some (Terms arr).
Proof.
  intros H. unfold PolyFromSizeAndArray.
  rewrite firstn_all.
  destruct arr as [| m arr]; [congruence | reflexivity].
Qed.

Lemma wfB_Terms (B : Z) (arr : list Mono) :
  wfB B (Terms arr) = true <->
  arr <> [] /\ is_flat arr = false /\ ascending (map m_exp arr) = true
  /\ Forall (wfB_mono B) arr.
Proof.
  cbn [wfB]. rewrite !andb_true_iff, !negb_true_iff, forallb_forall, Forall_forall.
  unfold wfB_mono. split.
  - intros [[[Hn Hf] Ha] Hall]. repeat split; auto.
    + destruct arr; [discriminate | congruence].
    + specialize (Hall x H). rewrite !andb_true_iff in Hall. tauto.
    + specialize (Hall x H). rewrite !andb_true_iff in Hall. lia.
    + specialize (Hall x H). rewrite !andb_true_iff in Hall. lia.
  - intros [Hn [Hf [Ha Hall]]]. repeat split; auto.
    + destruct arr; [congruence | reflexivity].
    + intros x Hx. specialize (Hall x Hx). rewrite !andb_true_iff. 
      destruct Hall as [H1 H2]. repeat split; [exact H1 | lia | lia].
Qed.

Lemma canonical_Terms (arr : list Mono) :
  canonical (Terms arr) = true <->
  arr <> [] /\ is_flat arr = false /\ ascending (map m_exp arr) = true
  /\ Forall (fun m => canonical_mono m = true) arr.
Proof.
  cbn [canonical]. rewrite !andb_true_iff, !negb_true_iff, forallb_forall, Forall_forall.
  unfold canonical_mono. split.
  - intros [[[Hn Hf] Ha] Hall]. repeat split; auto.
    destruct arr; [discriminate | congruence].
  - intros [Hn [Hf [Ha Hall]]]. repeat split; auto.
    destruct arr; [congruence | reflexivity].
Qed.

Lemma canonical_mono_inv (m : Mono) :
  canonical_mono m = true ->
  canonical (m_p m) = true /\ PolyIsZero (m_p m) = false
  /\ 0 <= m_exp m <= exp_max.
Proof.
  unfold canonical_mono. rewrite !andb_true_iff, negb_true_iff.
  intros [[[H1 H2] H3] H4]. repeat split; auto; lia.
Qed.

Lemma canonical_wfB (p : Poly) : canonical p = true -> wfB exp_max p = true.
Proof.
  induction p as [c | arr IH] using Poly_nested_ind; intros H.
  - reflexivity.
  - apply canonical_Terms in H. destruct H as [Hn [Hf [Ha Hall]]].
    apply wfB_Terms. repeat split; auto.
    rewrite Forall_forall in *. intros m Hm.
    destruct (canonical_mono_inv m (Hall m Hm)) as [H1 [H2 H3]].
    split; [apply IH; assumption | exact H3].
Qed.

Lemma wfB_weaken (B B' : Z) (p : Poly) :
  B <= B' -> wfB B p = true -> wfB B' p = true.
Proof.
  intros HB. induction p as [c | arr IH] using Poly_nested_ind; intros H.
  - reflexivity.
  - apply wfB_Terms in H. destruct H as [Hn [Hf [Ha Hall]]].
    apply wfB_Terms. repeat split; auto.
    rewrite Forall_forall in *. intros m Hm.
    destruct (Hall m Hm) as [H1 H2].
    split; [apply IH; assumption | lia].
Qed.

Lemma PolyClone_wfB (B : Z) (p : Poly) :
  wfB B p = true -> PolyClone p = Some p.
Proof.
  induction p as [c | arr IH] using Poly_nested_ind; intros H.
  - reflexivity.
  - apply wfB_Terms in H. destruct H as [Hn [_ [_ Hall]]].
    cbn [PolyClone].
    rewrite (mapM_id _ arr).
    + simpl. apply PolyFromSizeAndArray_all. exact Hn.
    + rewrite Forall_forall in *. intros m Hm.
      destruct (Hall m Hm) as [H1 _].
      rewrite (IH m Hm H1). destruct m; reflexivity.
Qed.

Lemma MonoClone_wfB (B : Z) (m : Mono) :
  wfB B (m_p m) = true -> MonoClone m = Some m.
Proof.
  intros H. unfold MonoClone. rewrite (PolyClone_wfB B _ H).
  destruct m; reflexivity.
Qed.

Lemma mapM_MonoClone_wfB (B : Z) (l : list Mono) :
  Forall (wfB_mono B) l -> mapM MonoClone l = Some l.
Proof.
  intros H. apply mapM_id.
  eapply Forall_impl; [| exact H].
  intros m [Hm _]. eapply MonoClone_wfB. exact Hm.
Qed.

Lemma PolyIsEq_refl (p : Poly) : PolyIsEq p p = true.
Proof.
  induction p as [c | arr IH] using Poly_nested_ind.
  - simpl. apply Z.eqb_refl.
  - cbn [PolyIsEq]. rewrite Nat.eqb_refl. cbn [negb].
    induction arr as [| m arr IHarr]; [reflexivity |].
    inversion IH as [| m' arr' Hm Harr]. subst.
    rewrite Z.eqb_refl, Hm. cbn [andb negb]. apply IHarr. exact Harr.
Qed.

(** ** Degree by a variable below the nesting of the polynomial *)

Lemma fold_left_max_step_zeros (l : list Z) (a : Z) :
  Forall (fun z => z = 0) l -> l <> [] -> a = -1 \/ a = 0 ->
  fold_left max_step l a = 0.
Proof.
  intros Hall. revert a. induction Hall as [| z l Hz Hl IH]; intros a Hne Ha.
  - congruence.
  - subst z. simpl.
    assert (Hstep : max_step a 0 = 0).
    { unfold max_step. destruct Ha; subst; reflexivity. }
    rewrite Hstep.
    destruct l as [| z' l'].
    + reflexivity.
    + apply IH; [discriminate | right; reflexivity].
Qed.

Lemma mapM_const {A B : Type} (f : A -> option B) (b : B) (l : list A) :
  Forall (fun a => f a = Some b) l ->
  mapM f l = Some (map (fun _ => b) l).
Proof.
  induction 1 as [| a l Ha _ IH]; simpl.
  - reflexivity.
  - rewrite Ha. simpl. rewrite IH. reflexivity.
Qed.

Lemma PolyDepth_In (m : Mono) (arr : list Mono) :
  In m arr ->
  (PolyDepth (m_p m) <=
   fold_right (fun m d => Nat.max (PolyDepth (m_p m)) d) O arr)%nat.
Proof.
  induction arr as [| a arr IH]; intros H.
  - destruct H.
  - simpl. destruct H as [H | H].
    + subst. lia.
    + specialize (IH H). lia.
Qed.

Lemma PolyDegBy_below_nesting (p : Poly) :
  forall var_idx,
    canonical p = true -> PolyIsZero p = false ->
    (PolyDepth p <= var_idx)%nat ->
    PolyDegBy p var_idx = Some 0.
Proof.
  induction p as [c | arr IH] using Poly_nested_ind; intros var_idx Hc Hz Hd.
  - simpl in *. rewrite Hz. reflexivity.
  - apply canonical_Terms in Hc. destruct Hc as [Hn [_ [_ Hall]]].
    cbn [PolyDepth] in Hd.
    destruct var_idx as [| v]; [lia |].
    cbn [PolyDegBy].
    rewrite (mapM_const _ 0 arr).
    + simpl. f_equal. apply fold_left_max_step_zeros.
      * clear. induction arr; simpl; constructor; auto.
      * destruct arr; [congruence | discriminate].
      * left. reflexivity.
    + rewrite Forall_forall in *. intros m Hm.
      destruct (canonical_mono_inv m (Hall m Hm)) as [H1 [H2 _]].
      apply (IH m Hm); auto.
      pose proof (PolyDepth_In m arr Hm). lia.
Qed.

Lemma m_exp_Mk (p : Poly) (e : Z) : m_exp (MkMono p e) = e.
Proof. reflexivity. Qed.

Lemma m_p_Mk (p : Poly) (e : Z) : m_p (MkMono p e) = p.
Proof. reflexivity. Qed.

(** ** Ascending lists of monomials *)

Lemma asc_nil : asc [].
Proof. reflexivity. Qed.

Lemma asc_cons_inv (a : Mono) (l : list Mono) :
  asc (a :: l) -> asc l /\ Forall (fun m => m_exp a < m_exp m) l.
Proof.
  revert a. induction l as [| b l IH]; intros a H.
  - split; [reflexivity | constructor].
  - unfold asc in H. cbn [map ascending] in H.
    apply andb_true_iff in H. destruct H as [Hab Hl].
    apply Z.ltb_lt in Hab.
    split; [exact Hl |].
    constructor; [exact Hab |].
    destruct (IH b Hl) as [_ Hall].
    eapply Forall_impl; [| exact Hall].
    intros m Hm. simpl in Hm. lia.
Qed.

Lemma asc_cons (a : Mono) (l : list Mono) :
  asc l -> Forall (fun m => m_exp a < m_exp m) l -> asc (a :: l).
Proof.
  intros Hl Hall. destruct l as [| b l]; [reflexivity |].
  unfold asc. cbn [map ascending].
  apply andb_true_iff. split.
  - apply Z.ltb_lt. inversion Hall. assumption.
  - exact Hl.
Qed.

Lemma asc_snoc (l : list Mono) (a : Mono) :
  asc l -> Forall (fun m => m_exp m < m_exp a) l -> asc (l ++ [a]).
Proof.
  induction l as [| b l IH]; intros Hl Hall.
  - reflexivity.
  - apply asc_cons_inv in Hl. destruct Hl as [Hl Hb].
    inversion Hall as [| b' l' Hba Hall']. subst.
    cbn [app]. apply asc_cons.
    + apply IH; assumption.
    + apply Forall_app. split; [exact Hb |].
      constructor; [exact Hba | constructor].
Qed.

Lemma asc_same_exps (l l' : list Mono) :
  map m_exp l = map m_exp l' -> asc l -> asc l'.
Proof. unfold asc. intros ->. auto. Qed.

(** ** [TrimAndInterpretMonoArr] on a fully used array *)

Lemma PolyFromSizeAndArray_Terms (n : nat) (l : list Mono) (r : Poly) :
  PolyFromSizeAndArray n l = Some r -> PolyIsCoeff r = false.
Proof.
  unfold PolyFromSizeAndArray.
  destruct (negb (Nat.eqb n 0)); [| discriminate].
  intros H. inversion H. reflexivity.
Qed.

Lemma Trim_Interpret (out : list Mono) (reserved : nat) :
  TrimAndInterpretMonoArr out (length out) reserved = Some (Interpret out).
Proof.
  destruct out as [| m out]; [reflexivity |].
  cbn [length TrimAndInterpretMonoArr].
  assert (Hall : PolyFromSizeAndArray (S (length out)) (m :: out)
                 = Some (Terms (m :: out))).
  { apply (PolyFromSizeAndArray_all (m :: out)). discriminate. }
  assert (Hres : (if Nat.eqb (S (length out)) reserved
                  then PolyFromSizeAndArray reserved (m :: out)
                  else PolyFromSizeAndArray (S (length out)) (m :: out))
                 = Some (Terms (m :: out))).
  { destruct (Nat.eqb (S (length out)) reserved) eqn:E.
    - apply Nat.eqb_eq in E. rewrite <- E. exact Hall.
    - exact Hall. }
  destruct out as [| m' out'].
  - cbn [length Nat.eqb andb Interpret].
    destruct (PolyIsZero (m_p m)) eqn:Ez; [reflexivity |].
    unfold MonoGetExp.
    destruct ((m_exp m =? 0) && PolyIsCoeff (m_p m)) eqn:Ef.
    + apply andb_true_iff in Ef. destruct Ef as [_ Ec].
      destruct (m_p m); [reflexivity | discriminate].
    + exact Hres.
  - cbn [length Nat.eqb andb Interpret]. exact Hres.
Qed.

Lemma Interpret_wfB (B : Z) (out : list Mono) :
  Forall (wfB_mono B) out -> asc out -> wfB B (Interpret out) = true.
Proof.
  intros Hall Hasc.
  assert (Hterms : out <> [] -> is_flat out = false -> wfB B (Terms out) = true).
  { intros Hn Hf. apply wfB_Terms. auto. }
  destruct out as [| m [| m' out']].
  - reflexivity.
  - cbn [Interpret].
    destruct (PolyIsZero (m_p m)); [reflexivity |].
    destruct ((m_exp m =? 0) && PolyIsCoeff (m_p m)) eqn:Ef.
    + inversion Hall as [| ? ? [Hm _] _]. exact Hm.
    + apply Hterms; [discriminate | exact Ef].
  - apply Hterms; [discriminate | reflexivity].
Qed.

(** ** Equations of the merge loop *)

Lemma PolyAddMerge_nil_l (rec : Poly -> Poly -> option Poly) (lq : list Mono) :
  PolyAddMerge rec [] lq = mapM MonoClone lq.
Proof. destruct lq; reflexivity. Qed.

Lemma PolyAddMerge_nil_r (rec : Poly -> Poly -> option Poly) (lp : list Mono) :
  PolyAddMerge rec lp [] = mapM MonoClone lp.
Proof. destruct lp; reflexivity. Qed.

Lemma PolyAddMerge_cons_cons (rec : Poly -> Poly -> option Poly)
      (a b : Mono) (lp lq : list Mono) :
  PolyAddMerge rec (a :: lp) (b :: lq) =
  if MonoGetExp a =? MonoGetExp b then
    new_mono <- MonoAdd rec a b ;;
    tl <- PolyAddMerge rec lp lq ;;
    if negb (PolyIsZero (m_p new_mono)) then Some (new_mono :: tl) else Some tl
  else if MonoGetExp a >? MonoGetExp b then
    c <- MonoClone b ;;
    tl <- PolyAddMerge rec (a :: lp) lq ;;
    Some (c :: tl)
  else
    c <- MonoClone a ;;
    tl <- PolyAddMerge rec lp (b :: lq) ;;
    Some (c :: tl).
Proof. reflexivity. Qed.

(** ** Addition preserves the invariant *)

Section AddInvariant.

Variable B : Z.

Lemma ordered_wfB (rec : Poly -> Poly -> option Poly) (arr : list Mono) (c : Z) :
  wfB B (Terms arr) = true ->
  (forall m, In m arr -> add_const_ok B rec (m_p m)) ->
  exists r, PolyAddCoeffToNonCoeff_ordered rec (Terms arr) (Coeff c) = Some r
            /\ wfB B r = true /\ PolyIsCoeff r = false.
Proof.
  intros Hwf Hrec.
  pose proof Hwf as Hwf'.
  apply wfB_Terms in Hwf'. destruct Hwf' as [Hn [Hf [Ha Hall]]].
  unfold PolyAddCoeffToNonCoeff_ordered. cbn [PolyIsCoeff PolyIsZero].
  destruct (c =? 0) eqn:Ec.
  { exists (Terms arr). rewrite (PolyClone_wfB B _ Hwf). auto. }
  destruct arr as [| first rest]; [congruence |].
  inversion Hall as [| ? ? [Hfirst Hfe] Hrest]. subst.
  destruct (asc_cons_inv _ _ Ha) as [Hasc_rest Hlt].
  unfold MonoGetExp.
  destruct (m_exp first =? 0) eqn:E0.
  - apply Z.eqb_eq in E0.
    unfold PolyAddCoeffIfPhasConst.
    destruct (Hrec first (or_introl eq_refl) c) as [new [Hnew [Hwnew Hterms]]].
    rewrite Hnew. cbn [bind].
    rewrite (mapM_MonoClone_wfB B rest Hrest). cbn [bind].
    assert (Hsingle : rest = [] -> PolyIsCoeff new = false).
    { intros ->. apply Hterms.
      cbn [is_flat] in Hf. rewrite E0 in Hf. cbn in Hf.
      exact Hf. }
    destruct (PolyIsZero new) eqn:Ez.
    + assert (Hrn : rest <> []).
      { intros Hr. specialize (Hsingle Hr).
        destruct new; simpl in *; discriminate. }
      exists (Terms rest).
      rewrite (PolyFromSizeAndArray_all rest Hrn).
      split; [reflexivity |]. split; [| reflexivity].
      apply wfB_Terms. repeat split; auto.
      destruct rest as [| m [| m' rest']]; try reflexivity.
      cbn [is_flat]. inversion Hlt as [| ? ? Hm _]. subst.
      destruct (m_exp m =? 0) eqn:Em; [| reflexivity].
      apply Z.eqb_eq in Em. lia.
    + unfold MonoFromPoly. cbn [Z.eqb orb bind].
      exists (Terms (MkMono new 0 :: rest)).
      change (S (length rest)) with (length (MkMono new 0 :: rest)).
      rewrite PolyFromSizeAndArray_all by discriminate.
      split; [reflexivity |]. split; [| reflexivity].
      apply wfB_Terms. repeat split.
      * discriminate.
      * destruct rest; [| reflexivity].
        cbn [is_flat m_exp m_p]. rewrite (Hsingle eq_refl). reflexivity.
      * apply (asc_same_exps (first :: rest)); [| exact Ha].
        cbn [map m_exp]. rewrite E0. reflexivity.
      * constructor; [| exact Hrest].
        split; [exact Hwnew | rewrite m_exp_Mk; lia].
  - apply Z.eqb_neq in E0.
    unfold PolyAddCoeffIfPDoesntHaveConst, MonoFromPoly.
    cbn [Z.eqb orb bind].
    rewrite (mapM_MonoClone_wfB B (first :: rest) Hall). cbn [bind].
    exists (Terms (MkMono (Coeff c) 0 :: first :: rest)).
    change (S (length (first :: rest)))
      with (length (MkMono (Coeff c) 0 :: first :: rest)).
    rewrite PolyFromSizeAndArray_all by discriminate.
    split; [reflexivity |]. split; [| reflexivity].
    apply wfB_Terms. repeat split.
    + discriminate.
    + apply asc_cons; [exact Ha |].
      constructor; [rewrite m_exp_Mk; lia |].
      eapply Forall_impl; [| exact Hlt].
      intros m Hm. rewrite m_exp_Mk. simpl in Hm. lia.
    + constructor; [| exact Hall].
      split; [reflexivity | rewrite m_exp_Mk; lia].
Qed.

Lemma merge_wfB (rec : Poly -> Poly -> option Poly) (lp : list Mono) :
  forall lq,
    Forall (wfB_mono B) lp -> Forall (wfB_mono B) lq -> asc lp -> asc lq ->
    (forall m, In m lp -> add_ok B rec (m_p m)) ->
    exists out,
      PolyAddMerge rec lp lq = Some out
      /\ Forall (wfB_mono B) out /\ asc out
      /\ forall b, Forall (fun m => b < m_exp m) lp ->
                   Forall (fun m => b < m_exp m) lq ->
                   Forall (fun m => b < m_exp m) out.
Proof.
  induction lp as [| a lp IHp]; intros lq Hp Hq Hap Haq Hrec.
  { exists lq. rewrite PolyAddMerge_nil_l.
    rewrite (mapM_MonoClone_wfB B lq Hq). auto. }
  induction lq as [| b lq IHq].
  { exists (a :: lp). rewrite PolyAddMerge_nil_r.
    rewrite (mapM_MonoClone_wfB B (a :: lp) Hp). auto. }
  inversion Hp as [| ? ? Ha Hp']. subst.
  inversion Hq as [| ? ? Hb Hq']. subst.
  destruct (asc_cons_inv _ _ Hap) as [Hap' Halt].
  destruct (asc_cons_inv _ _ Haq) as [Haq' Hblt].
  rewrite PolyAddMerge_cons_cons. unfold MonoGetExp.
  destruct (m_exp a =? m_exp b) eqn:Eeq; [| destruct (m_exp a >? m_exp b) eqn:Egt].
  - apply Z.eqb_eq in Eeq.
    destruct (Hrec a (or_introl eq_refl) (m_p b) (proj1 Hb)) as [s [Hs Hws]].
    unfold MonoAdd. rewrite Hs. cbn [bind].
    destruct (IHp lq Hp' Hq' Hap' Haq') as [tl [Htl [Hwtl [Hatl Hbtl]]]].
    { intros m Hm. apply Hrec. right. exact Hm. }
    rewrite Htl. cbn [bind m_p].
    assert (Hlow : Forall (fun m => m_exp a < m_exp m) tl).
    { apply Hbtl; [exact Halt |].
      eapply Forall_impl; [| exact Hblt]. intros m Hm. simpl in Hm. lia. }
    destruct (PolyIsZero s); cbn [negb].
    + exists tl. repeat split; auto.
      intros b0 H1 H2. apply Hbtl.
      * inversion H1. assumption.
      * inversion H2. assumption.
    + exists (MkMono s (m_exp a) :: tl). repeat split.
      * constructor; [| exact Hwtl].
        split; [exact Hws | exact (proj2 Ha)].
      * apply asc_cons; [exact Hatl | exact Hlow].
      * intros b0 H1 H2. constructor.
        -- inversion H1. assumption.
        -- apply Hbtl; [inversion H1 | inversion H2]; assumption.
  - apply Z.gtb_lt in Egt.
    rewrite (MonoClone_wfB B b (proj1 Hb)). cbn [bind].
    destruct (IHq Hq' Haq') as [tl [Htl [Hwtl [Hatl Hbtl]]]].
    rewrite Htl. cbn [bind].
    exists (b :: tl). repeat split.
    + constructor; assumption.
    + apply asc_cons; [exact Hatl |].
      apply Hbtl; [| exact Hblt].
      constructor; [exact Egt |].
      eapply Forall_impl; [| exact Halt]. intros m Hm. simpl in Hm. lia.
    + intros b0 H1 H2. constructor.
      * inversion H2. assumption.
      * apply Hbtl; [exact H1 | inversion H2; assumption].
  - apply Z.eqb_neq in Eeq.
    assert (Hlt : m_exp a < m_exp b).
    { destruct (Z.gtb_spec (m_exp a) (m_exp b)); [discriminate | lia]. }
    rewrite (MonoClone_wfB B a (proj1 Ha)). cbn [bind].
    destruct (IHp (b :: lq) Hp' Hq Hap' Haq) as [tl [Htl [Hwtl [Hatl Hbtl]]]].
    { intros m Hm. apply Hrec. right. exact Hm. }
    rewrite Htl. cbn [bind].
    exists (a :: tl). repeat split.
    + constructor; assumption.
    + apply asc_cons; [exact Hatl |].
      apply Hbtl; [exact Halt |].
      constructor; [exact Hlt |].
      eapply Forall_impl; [| exact Hblt]. intros m Hm. simpl in Hm. lia.
    + intros b0 H1 H2. constructor.
      * inversion H1. assumption.
      * apply Hbtl; [inversion H1; assumption | exact H2].
Qed.

End AddInvariant.

(** ** [PolyAdd] satisfies the equation of the C source *)

Lemma PolyAddConst_eq (p : Poly) :
  forall q, PolyIsCoeff q = true -> PolyAddConst p q = PolyAdd p q.
Proof.
  induction p as [a | arr IH] using Poly_nested_ind; intros [c | lq] Hq;
    try discriminate.
  - reflexivity.
  - cbn [PolyAddConst PolyAdd].
    unfold PolyAddCoeffToNonCoeff_ordered. cbn [PolyIsCoeff PolyIsZero].
    destruct (c =? 0); [reflexivity |].
    destruct arr as [| first rest]; [reflexivity |].
    destruct (MonoGetExp first =? 0); [| reflexivity].
    unfold PolyAddCoeffIfPhasConst.
    inversion IH as [| ? ? Hfirst _]. subst.
    rewrite (Hfirst (Coeff c) eq_refl). reflexivity.
Qed.

Lemma ordered_PolyAddConst (p q : Poly) :
  PolyAddCoeffToNonCoeff_ordered PolyAddConst p q
  = PolyAddCoeffToNonCoeff_ordered PolyAdd p q.
Proof.
  unfold PolyAddCoeffToNonCoeff_ordered.
  destruct (PolyIsCoeff q) eqn:Hq; [| reflexivity].
  destruct (PolyIsZero q); [reflexivity |].
  destruct p as [a | [| first rest]]; try reflexivity.
  destruct (MonoGetExp first =? 0); [| reflexivity].
  unfold PolyAddCoeffIfPhasConst.
  rewrite (PolyAddConst_eq (m_p first) q Hq). reflexivity.
Qed.

Lemma PolyAdd_unfold (p q : Poly) : PolyAdd p q = PolyAdd_body PolyAdd p q.
Proof.
  destruct p as [a | lp]; destruct q as [b | lq]; try reflexivity.
  cbn [PolyAdd]. unfold PolyAdd_body, PolyAddCoeffToNonCoeff.
  cbn [PolyIsCoeff andb orb]. apply ordered_PolyAddConst.
Qed.

(** ** [PolyAdd] is defined on the invariant and preserves it *)

Lemma PolyAddConst_wfB (B : Z) (p : Poly) :
  wfB B p = true -> add_const_ok B PolyAddConst p.
Proof.
  induction p as [a | arr IH] using Poly_nested_ind; intros Hwf c.
  - exists (Coeff (wrap64 (a + c))). repeat split. intros H. discriminate.
  - cbn [PolyAddConst].
    destruct (ordered_wfB B PolyAddConst arr c Hwf) as [r [Hr [Hw Ht]]].
    + intros m Hm. rewrite Forall_forall in IH. apply (IH m Hm).
      apply wfB_Terms in Hwf. destruct Hwf as [_ [_ [_ Hall]]].
      rewrite Forall_forall in Hall. apply (Hall m Hm).
    + exists r. auto.
Qed.

Lemma PolyAdd_const_wfB (B : Z) (p : Poly) :
  wfB B p = true -> add_const_ok B PolyAdd p.
Proof.
  intros Hwf c.
  destruct (PolyAddConst_wfB B p Hwf c) as [r Hr].
  exists r. rewrite <- PolyAddConst_eq by reflexivity. exact Hr.
Qed.

Lemma PolyAdd_wfB_ind (B : Z) (p : Poly) :
  wfB B p = true -> add_ok B PolyAdd p.
Proof.
  induction p as [a | arr IH] using Poly_nested_ind; intros Hwf q Hq.
  - destruct q as [b | lq].
    + exists (Coeff (wrap64 (a + b))). auto.
    + cbn [PolyAdd].
      destruct (ordered_wfB B PolyAddConst lq a Hq) as [r [Hr [Hw _]]].
      * intros m Hm. apply PolyAddConst_wfB.
        apply wfB_Terms in Hq. destruct Hq as [_ [_ [_ Hall]]].
        rewrite Forall_forall in Hall. apply (Hall m Hm).
      * exists r. auto.
  - pose proof Hwf as Hwf'.
    apply wfB_Terms in Hwf'. destruct Hwf' as [_ [_ [Hasc Hall]]].
    destruct q as [b | lq].
    + cbn [PolyAdd].
      destruct (ordered_wfB B PolyAdd arr b Hwf) as [r [Hr [Hw _]]].
      * intros m Hm. apply PolyAdd_const_wfB.
        rewrite Forall_forall in Hall. apply (Hall m Hm).
      * exists r. auto.
    + apply wfB_Terms in Hq. destruct Hq as [_ [_ [Hascq Hallq]]].
      cbn [PolyAdd]. unfold PolyAddTwoNonCoeffs.
      destruct (merge_wfB B PolyAdd arr lq Hall Hallq Hasc Hascq)
        as [out [Hout [Hwout [Haout _]]]].
      * intros m Hm. rewrite Forall_forall in IH, Hall.
        apply (IH m Hm). apply (Hall m Hm).
      * rewrite Hout. cbn [bind]. rewrite Trim_Interpret.
        exists (Interpret out). split; [reflexivity |].
        apply Interpret_wfB; assumption.
Qed.

Lemma PolyAdd_wfB (B : Z) (p q : Poly) :
  wfB B p = true -> wfB B q = true ->
  exists r, PolyAdd p q = Some r /\ wfB B r = true.
Proof.
  intros Hp Hq. apply (PolyAdd_wfB_ind B p Hp q Hq).
Qed.

(** ** [MonoSort] sorts and permutes *)

Lemma MonoInsert_perm (m : Mono) (l : list Mono) :
  Permutation (MonoInsert m l) (m :: l).
Proof.
  induction l as [| h t IH]; simpl.
  - apply Permutation_refl.
  - destruct (m_exp m <=? m_exp h).
    + apply Permutation_refl.
    + eapply Permutation_trans; [apply perm_skip; exact IH | apply perm_swap].
Qed.

Lemma MonoSort_perm (l : list Mono) : Permutation (MonoSort l) l.
Proof.
  induction l as [| m l IH]; simpl.
  - apply Permutation_refl.
  - eapply Permutation_trans; [apply MonoInsert_perm |].
    apply perm_skip. exact IH.
Qed.

Lemma MonoInsert_sorted (m : Mono) (l : list Mono) :
  StronglySorted le_exp l -> StronglySorted le_exp (MonoInsert m l).
Proof.
  induction 1 as [| h t Ht IH Hh]; simpl.
  - constructor; constructor.
  - destruct (m_exp m <=? m_exp h) eqn:E.
    + apply Z.leb_le in E. constructor.
      * constructor; assumption.
      * constructor; [exact E |].
        eapply Forall_impl; [| exact Hh].
        unfold le_exp. intros a Ha. lia.
    + apply Z.leb_gt in E. constructor; [exact IH |].
      eapply Permutation_Forall.
      * apply Permutation_sym. apply MonoInsert_perm.
      * constructor; [unfold le_exp; lia | exact Hh].
Qed.

Lemma MonoSort_sorted (l : list Mono) : StronglySorted le_exp (MonoSort l).
Proof.
  induction l as [| m l IH]; simpl.
  - constructor.
  - apply MonoInsert_sorted. exact IH.
Qed.

Lemma MonoSort_Forall (P : Mono -> Prop) (l : list Mono) :
  Forall P l -> Forall P (MonoSort l).
Proof.
  intros H. eapply Permutation_Forall; [| exact H].
  apply Permutation_sym. apply MonoSort_perm.
Qed.

(** ** The scan of [PolyAddMonos] preserves the invariant *)

Lemma PolyAddMonosLoop_wfB (B : Z) (rest : list Mono) :
  forall done cur,
    Forall (wfB_mono B) done -> wfB_mono B cur -> Forall (wfB_mono B) rest ->
    asc done -> Forall (fun d => m_exp d < m_exp cur) done ->
    StronglySorted le_exp (cur :: rest) ->
    exists out, PolyAddMonosLoop done cur rest = Some out
                /\ Forall (wfB_mono B) out /\ asc out.
Proof.
  induction rest as [| m rest IH]; intros done cur Hd Hc Hr Ha Hlt Hs.
  - exists (done ++ [cur]). split; [reflexivity |]. split.
    + apply Forall_app. split; [exact Hd | constructor; [exact Hc | constructor]].
    + apply asc_snoc; assumption.
  - inversion Hr as [| ? ? Hm Hr']. subst.
    apply StronglySorted_inv in Hs. destruct Hs as [Hs Hcm].
    inversion Hcm as [| ? ? Hle Hcr]. subst.
    unfold le_exp in Hle.
    cbn [PolyAddMonosLoop]. unfold MonoGetExp.
    destruct (m_exp cur =? m_exp m) eqn:E.
    + destruct (PolyAdd_wfB B (m_p cur) (m_p m) (proj1 Hc) (proj1 Hm))
        as [s [Hadd Hws]].
      unfold MonoAdd. rewrite Hadd. cbn [bind].
      apply IH; auto.
      * split; [exact Hws | rewrite m_exp_Mk; exact (proj2 Hc)].
      * apply StronglySorted_inv in Hs. destruct Hs as [Hs Hmr].
        constructor; [exact Hs |].
        eapply Forall_impl; [| exact Hcr].
        unfold le_exp. intros a Ha'. rewrite m_exp_Mk. exact Ha'.
    + apply Z.eqb_neq in E.
      rewrite (MonoClone_wfB B m (proj1 Hm)). cbn [bind].
      destruct (PolyIsZero (m_p cur)); cbn [negb].
      * apply IH; auto.
        eapply Forall_impl; [| exact Hlt]. intros a Ha'. simpl in Ha'. lia.
      * apply IH; auto.
        -- apply Forall_app. split; [exact Hd | constructor; [exact Hc | constructor]].
        -- apply asc_snoc; assumption.
        -- apply Forall_app. split.
           ++ eapply Forall_impl; [| exact Hlt]. intros a Ha'. simpl in Ha'. lia.
           ++ constructor; [lia | constructor].
Qed.

Lemma PolyAddMonos_wfB (B : Z) (count : nat) (monos : list Mono) :
  (count <= length monos)%nat ->
  Forall (wfB_mono B) (firstn count monos) ->
  exists r, PolyAddMonos count monos = Some r /\ wfB B r = true.
Proof.
  intros Hlen Hall. unfold PolyAddMonos, PolyAddMonosScan.
  destruct (Nat.eqb count 0) eqn:E0.
  { exists PolyZero. auto. }
  apply Nat.leb_le in Hlen. rewrite Hlen.
  pose proof (MonoSort_sorted (firstn count monos)) as Hs.
  pose proof (MonoSort_Forall _ _ Hall) as Hw.
  pose proof (MonoSort_perm (firstn count monos)) as Hp.
  destruct (MonoSort (firstn count monos)) as [| first rest].
  - apply Permutation_nil in Hp.
    apply Nat.eqb_neq in E0. apply Nat.leb_le in Hlen.
    assert (Hl : length (firstn count monos) = count) by (apply firstn_length_le; exact Hlen).
    rewrite Hp in Hl. simpl in Hl. lia.
  - inversion Hw as [| ? ? Hf Hr]. subst.
    destruct (PolyAddMonosLoop_wfB B rest [] first) as [out [Hout [Hwo Hao]]]; auto.
    + apply asc_nil.
    + rewrite Hout. cbn [bind]. rewrite Trim_Interpret.
      exists (Interpret out). split; [reflexivity |].
      apply Interpret_wfB; assumption.
Qed.

Lemma mapM_Forall {A B : Type} (f : A -> option B) (Q : B -> Prop) (l : list A) :
  (forall a, In a l -> exists b, f a = Some b /\ Q b) ->
  exists r, mapM f l = Some r /\ Forall Q r /\ length r = length l.
Proof.
  induction l as [| a l IH]; intros H.
  - exists []. repeat split. constructor.
  - destruct (H a (or_introl eq_refl)) as [b [Hb HQ]].
    destruct IH as [r [Hr [HQr Hlen]]].
    { intros a' Ha'. apply H. right. exact Ha'. }
    exists (b :: r). cbn [mapM]. rewrite Hb. cbn [bind]. rewrite Hr. cbn [bind].
    repeat split; [constructor; assumption | simpl; congruence].
Qed.

(** ** Multiplication preserves the invariant while exponent sums fit *)

Section MulInvariant.

Lemma mul_ordered_wfB (B : Z) (rec : Poly -> Poly -> option Poly)
      (arr : list Mono) (c : Z) :
  wfB B (Terms arr) = true ->
  (forall m, In m arr -> mul_const_ok B rec (m_p m)) ->
  exists r, PolyMulCoeffAndNonCoeff_ordered rec (Terms arr) (Coeff c) = Some r
            /\ wfB B r = true.
Proof.
  intros Hwf Hrec.
  apply wfB_Terms in Hwf. destruct Hwf as [_ [_ [_ Hall]]].
  unfold PolyMulCoeffAndNonCoeff_ordered. cbn [PolyIsCoeff PolyIsZero].
  destruct (c =? 0); [exists PolyZero; auto |].
  destruct (mapM_Forall (fun m => MonoMulCoeff rec m (Coeff c)) (wfB_mono B) arr)
    as [res [Hres [Hwres Hlen]]].
  { intros m Hm. destruct (Hrec m Hm c) as [r [Hr Hw]].
    exists (MkMono r (m_exp m)). unfold MonoMulCoeff.
    cbn [PolyIsCoeff]. rewrite Hr. split; [reflexivity |].
    rewrite Forall_forall in Hall.
    split; [exact Hw | rewrite m_exp_Mk; apply (Hall m Hm)]. }
  rewrite Hres. cbn [bind]. rewrite <- Hlen.
  apply PolyAddMonos_wfB; [lia |].
  rewrite firstn_all. exact Hwres.
Qed.

Lemma cross_wfB (B1 B2 : Z) (rec : Poly -> Poly -> option Poly)
      (lp lq : list Mono) :
  B1 + B2 <= exp_max ->
  Forall (wfB_mono B1) lp -> Forall (wfB_mono B2) lq ->
  (forall m, In m lp -> mul_ok B1 B2 rec (m_p m)) ->
  exists out, PolyMulCross rec lp lq = Some out
              /\ Forall (wfB_mono (B1 + B2)) out.
Proof.
  intros HB Hp Hq Hrec. unfold PolyMulCross.
  destruct (mapM_Forall (fun mi => mapM (fun mj => MonoMul rec mi mj) lq)
                        (Forall (wfB_mono (B1 + B2))) lp)
    as [rows [Hrows [Hwrows _]]].
  { intros mi Hmi.
    destruct (mapM_Forall (fun mj => MonoMul rec mi mj) (wfB_mono (B1 + B2)) lq)
      as [row [Hrow [Hwrow _]]].
    - intros mj Hmj.
      rewrite Forall_forall in Hp, Hq.
      destruct (Hp mi Hmi) as [_ Hei]. destruct (Hq mj Hmj) as [Hwj Hej].
      destruct (Hrec mi Hmi (m_p mj) Hwj) as [r [Hr Hw]].
      exists (MkMono r (wrap32 (m_exp mi + m_exp mj))).
      unfold MonoMul. rewrite Hr. split; [reflexivity |].
      split; [exact Hw |].
      rewrite m_exp_Mk. rewrite wrap32_small; lia.
    - exists row. auto. }
  rewrite Hrows. cbn [bind]. exists (concat rows). split; [reflexivity |].
  apply Forall_concat. exact Hwrows.
Qed.

End MulInvariant.

Lemma PolyMulConst_eq (p : Poly) :
  forall q, PolyIsCoeff q = true -> PolyMulConst p q = PolyMul p q.
Proof.
  induction p as [a | arr IH] using Poly_nested_ind; intros [c | lq] Hq;
    try discriminate.
  - reflexivity.
  - cbn [PolyMulConst PolyMul].
    unfold PolyMulCoeffAndNonCoeff_ordered. cbn [PolyIsCoeff PolyIsZero].
    destruct (c =? 0); [reflexivity |].
    f_equal. 
    rewrite (mapM_ext_in (fun m => MonoMulCoeff PolyMulConst m (Coeff c))
                         (fun m => MonoMulCoeff PolyMul m (Coeff c))).
    + reflexivity.
    + intros m Hm. unfold MonoMulCoeff. rewrite Forall_forall in IH.
      rewrite (IH m Hm (Coeff c) eq_refl). reflexivity.
Qed.

Lemma ordered_PolyMulConst (p q : Poly) :
  PolyMulCoeffAndNonCoeff_ordered PolyMulConst p q
  = PolyMulCoeffAndNonCoeff_ordered PolyMul p q.
Proof.
  unfold PolyMulCoeffAndNonCoeff_ordered.
  destruct (PolyIsCoeff q) eqn:Hq; [| reflexivity].
  destruct (PolyIsZero q); [reflexivity |].
  destruct p as [a | arr]; [reflexivity |].
  rewrite (mapM_ext_in (fun m => MonoMulCoeff PolyMulConst m q)
                       (fun m => MonoMulCoeff PolyMul m q)).
  - reflexivity.
  - intros m _. unfold MonoMulCoeff.
    rewrite (PolyMulConst_eq (m_p m) q Hq). reflexivity.
Qed.

Lemma PolyMul_unfold (p q : Poly) : PolyMul p q = PolyMul_body PolyMul p q.
Proof.
  destruct p as [a | lp]; destruct q as [b | lq]; try reflexivity.
  cbn [PolyMul]. unfold PolyMul_body, PolyMulCoeffAndNonCoeff.
  cbn [PolyIsCoeff andb orb]. apply ordered_PolyMulConst.
Qed.

Lemma PolyMulConst_wfB (B : Z) (p : Poly) :
  wfB B p = true -> mul_const_ok B PolyMulConst p.
Proof.
  induction p as [a | arr IH] using Poly_nested_ind; intros Hwf c.
  - exists (Coeff (wrap64 (c * a))). auto.
  - cbn [PolyMulConst]. apply mul_ordered_wfB; [exact Hwf |].
    intros m Hm. rewrite Forall_forall in IH. apply (IH m Hm).
    apply wfB_Terms in Hwf. destruct Hwf as [_ [_ [_ Hall]]].
    rewrite Forall_forall in Hall. apply (Hall m Hm).
Qed.

Lemma PolyMul_const_wfB (B : Z) (p : Poly) :
  wfB B p = true -> mul_const_ok B PolyMul p.
Proof.
  intros Hwf c. destruct (PolyMulConst_wfB B p Hwf c) as [r Hr].
  exists r. rewrite <- PolyMulConst_eq by reflexivity. exact Hr.
Qed.

Lemma PolyMul_wfB_ind (B1 B2 : Z) (p : Poly) :
  0 <= B1 -> 0 <= B2 -> B1 + B2 <= exp_max ->
  wfB B1 p = true -> mul_ok B1 B2 PolyMul p.
Proof.
  intros H1 H2 HB.
  induction p as [a | arr IH] using Poly_nested_ind; intros Hwf q Hq.
  - destruct q as [b | lq].
    + exists (Coeff (wrap64 (b * a))). auto.
    + cbn [PolyMul].
      destruct (mul_ordered_wfB B2 PolyMulConst lq a Hq) as [r [Hr Hw]].
      * intros m Hm. apply PolyMulConst_wfB.
        apply wfB_Terms in Hq. destruct Hq as [_ [_ [_ Hall]]].
        rewrite Forall_forall in Hall. apply (Hall m Hm).
      * exists r. split; [exact Hr |].
        apply (wfB_weaken B2); [lia | exact Hw].
  - pose proof Hwf as Hwf'.
    apply wfB_Terms in Hwf'. destruct Hwf' as [_ [_ [_ Hall]]].
    destruct q as [b | lq].
    + cbn [PolyMul].
      destruct (mul_ordered_wfB B1 PolyMul arr b Hwf) as [r [Hr Hw]].
      * intros m Hm. apply PolyMul_const_wfB.
        rewrite Forall_forall in Hall. apply (Hall m Hm).
      * exists r. split; [exact Hr |].
        apply (wfB_weaken B1); [lia | exact Hw].
    + apply wfB_Terms in Hq. destruct Hq as [_ [_ [_ Hallq]]].
      cbn [PolyMul]. unfold PolyMulTwoNonCoeffs.
      destruct (cross_wfB B1 B2 PolyMul arr lq HB Hall Hallq) as [out [Hout Hwout]].
      * intros m Hm. rewrite Forall_forall in IH, Hall.
        apply (IH m Hm). apply (Hall m Hm).
      * rewrite Hout. cbn [bind].
        apply PolyAddMonos_wfB; [lia |].
        rewrite firstn_all. exact Hwout.
Qed.

Lemma PolyMul_wfB (B1 B2 : Z) (p q : Poly) :
  0 <= B1 -> 0 <= B2 -> B1 + B2 <= exp_max ->
  wfB B1 p = true -> wfB B2 q = true ->
  exists r, PolyMul p q = Some r /\ wfB (B1 + B2) r = true.
Proof.
  intros H1 H2 HB Hp Hq. apply (PolyMul_wfB_ind B1 B2 p H1 H2 HB Hp q Hq).
Qed.

(** ** Powers, evaluation and composition preserve the invariant *)

Lemma PolyPowerPos_wfB (n : positive) :
  forall (p : Poly) (B : Z),
    0 <= B -> wfB B p = true -> Zpos n * B <= exp_max ->
    exists r, PolyPowerPos p n = Some r /\ wfB (Zpos n * B) r = true.
Proof.
  induction n as [k IH | k IH |]; intros p B HB Hwf Hle.
  - rewrite Pos2Z.inj_xI in *.
    assert (Hk : 0 < Zpos k) by apply Pos2Z.is_pos.
    destruct (PolyMul_wfB B B p p HB HB) as [foo1 [H1 Hw1]]; auto; [nia |].
    destruct (IH foo1 (B + B)) as [foo2 [H2 Hw2]]; auto; [lia | nia |].
    destruct (PolyMul_wfB B (Zpos k * (B + B)) p foo2) as [r [Hr Hwr]];
      auto; [nia | nia |].
    exists r. cbn [PolyPowerPos]. rewrite H1. cbn [bind]. rewrite H2. cbn [bind].
    split; [exact Hr |].
    replace ((2 * Zpos k + 1) * B) with (B + Zpos k * (B + B)) by ring.
    exact Hwr.
  - rewrite Pos2Z.inj_xO in *.
    assert (Hk : 0 < Zpos k) by apply Pos2Z.is_pos.
    destruct (PolyMul_wfB B B p p HB HB) as [foo1 [H1 Hw1]]; auto; [nia |].
    destruct (IH foo1 (B + B)) as [r [Hr Hwr]]; auto; [lia | nia |].
    exists r. cbn [PolyPowerPos]. rewrite H1. cbn [bind].
    split; [exact Hr |].
    replace (2 * Zpos k * B) with (Zpos k * (B + B)) by ring.
    exact Hwr.
  - exists p. cbn [PolyPowerPos]. rewrite (PolyClone_wfB B p Hwf).
    split; [reflexivity |].
    replace (1 * B) with B by ring. exact Hwf.
Qed.

Lemma PolyPower_wfB (p : Poly) (B e : Z) :
  0 <= B -> 0 <= e -> wfB B p = true -> e * B <= exp_max ->
  exists r, PolyPower p e = Some r /\ wfB (e * B) r = true.
Proof.
  intros HB He Hwf Hle. destruct e as [| n | n].
  - exists (Coeff 1). auto.
  - apply PolyPowerPos_wfB; assumption.
  - lia.
Qed.

Lemma foldM_invariant {A B : Type} (Inv : A -> Prop) (f : A -> B -> option A)
      (l : list B) :
  (forall a b, Inv a -> In b l -> exists a', f a b = Some a' /\ Inv a') ->
  forall a, Inv a -> exists r, foldM f l a = Some r /\ Inv r.
Proof.
  induction l as [| b l IH]; intros Hstep a Ha.
  - exists a. auto.
  - destruct (Hstep a b Ha (or_introl eq_refl)) as [a' [Hf Ha']].
    cbn [foldM]. rewrite Hf. cbn [bind].
    apply IH; [| exact Ha'].
    intros a0 b0 H0 Hb0. apply Hstep; [exact H0 | right; exact Hb0].
Qed.

Lemma PowerOf_defined (x e : Z) : 0 <= e -> exists c, PowerOf x e = Some c.
Proof.
  intros He. destruct e as [| n | n].
  - exists 1. reflexivity.
  - exists (PowerOfPos x n). reflexivity.
  - lia.
Qed.

Lemma PolyAt_wfB (B : Z) (p : Poly) (x : Z) :
  wfB B p = true -> exists r, PolyAt p x = Some r /\ wfB B r = true.
Proof.
  intros Hwf. destruct p as [c | arr].
  - exists (Coeff c). auto.
  - cbn [PolyAt].
    apply wfB_Terms in Hwf. destruct Hwf as [_ [_ [_ Hall]]].
    apply (foldM_invariant (fun r => wfB B r = true)); [| reflexivity].
    intros a m Ha Hm. rewrite Forall_forall in Hall.
    destruct (Hall m Hm) as [Hwm Hem].
    destruct (PowerOf_defined x (m_exp m)) as [c Hc]; [lia |].
    unfold MonoAt. rewrite Hc. cbn [bind]. unfold PolyFromCoeff.
    destruct (PolyMul_const_wfB B (m_p m) Hwm c) as [np [Hnp Hwnp]].
    rewrite Hnp. cbn [bind].
    apply PolyAdd_wfB; assumption.
Qed.

Section ComposeInvariant.

Variables (E D : Z) (k : nat) (q : list Poly).
Hypothesis HE : 0 <= E.
Hypothesis HD : 0 <= D.
Hypothesis Hq : forall i, (i < k)%nat ->
                          exists qi, nth_error q i = Some qi /\ wfB D qi = true.

Lemma PolyComposeHelper_wfB (p : Poly) :
  forall var_id,
    wfB E p = true ->
    Z.of_nat (PolyDepth p) * (E * D) <= exp_max ->
    exists r, PolyComposeHelper p k var_id q = Some r
              /\ wfB (Z.of_nat (PolyDepth p) * (E * D)) r = true.
Proof.
  assert (HED : 0 <= E * D) by nia.
  induction p as [c | arr IH] using Poly_nested_ind; intros var_id Hwf Hle.
  - exists (Coeff c). auto.
  - cbn [PolyComposeHelper].
    apply wfB_Terms in Hwf. destruct Hwf as [_ [_ [_ Hall]]].
    cbn [PolyDepth] in *.
    set (d := fold_right (fun m d => Nat.max (PolyDepth (m_p m)) d) O arr) in *.
    rewrite Nat2Z.inj_succ in *.
    apply (foldM_invariant (fun r => wfB (Z.succ (Z.of_nat d) * (E * D)) r = true));
      [| reflexivity].
    intros a m Ha Hm. rewrite Forall_forall in Hall, IH.
    destruct (Hall m Hm) as [Hwm Hem].
    pose proof (PolyDepth_In m arr Hm) as Hdm. fold d in Hdm.
    assert (Hdm' : Z.of_nat (PolyDepth (m_p m)) * (E * D)
                   <= Z.of_nat d * (E * D)) by nia.
    destruct (IH m Hm (var_id + 1)%nat Hwm) as [coeff [Hco Hwco]]; [nia |].
    apply (wfB_weaken _ (Z.of_nat d * (E * D))) in Hwco; [| exact Hdm'].
    unfold MonoComposeHelper. rewrite Hco. cbn [bind].
    destruct (m_exp m =? 0) eqn:E0.
    + cbn [bind]. apply PolyAdd_wfB; [exact Ha |].
      apply (wfB_weaken (Z.of_nat d * (E * D))); [nia | exact Hwco].
    + destruct (Nat.ltb var_id k) eqn:Elt.
      * apply Nat.ltb_lt in Elt.
        destruct (Hq var_id Elt) as [qi [Hqi Hwqi]].
        rewrite Hqi. cbn [bind].
        destruct (PolyPower_wfB qi D (m_exp m)) as [ae [Hae Hwae]];
          auto; [lia | nia |].
        rewrite Hae. cbn [bind].
        apply (wfB_weaken _ (E * D)) in Hwae; [| nia].
        destruct (PolyMul_wfB (Z.of_nat d * (E * D)) (E * D) coeff ae)
          as [r [Hr Hwr]]; auto; [nia | nia |].
        rewrite Hr. cbn [bind].
        apply PolyAdd_wfB; [exact Ha |].
        replace (Z.succ (Z.of_nat d) * (E * D))
          with (Z.of_nat d * (E * D) + E * D) by ring.
        exact Hwr.
      * cbn [bind]. apply PolyAdd_wfB; [exact Ha | reflexivity].
Qed.

End ComposeInvariant.

(** ** Arithmetic modulo [2^64] *)

Lemma wrap64_eqm (z : Z) : eqm64 (wrap64 z) z.
Proof.
  unfold eqm64, wrap64, wrap.
  rewrite Zminus_mod_idemp_l. f_equal. lia.
Qed.

Lemma eqm64_zero_wrap (z : Z) : eqm64 z 0 -> wrap64 z = 0.
Proof.
  unfold eqm64, wrap64, wrap. intros H.
  rewrite <- Z.add_mod_idemp_l by (compute; discriminate).
  rewrite H. reflexivity.
Qed.

Lemma eqm64_refl (a : Z) : eqm64 a a.
Proof. reflexivity. Qed.

Lemma eqm64_sym (a b : Z) : eqm64 a b -> eqm64 b a.
Proof. unfold eqm64. auto. Qed.

Lemma eqm64_trans (a b c : Z) : eqm64 a b -> eqm64 b c -> eqm64 a c.
Proof. unfold eqm64. intros -> ->. reflexivity. Qed.

Lemma eqm64_add (a a' b b' : Z) :
  eqm64 a a' -> eqm64 b b' -> eqm64 (a + b) (a' + b').
Proof.
  unfold eqm64. intros Ha Hb.
  rewrite (Z.add_mod a b), (Z.add_mod a' b') by (compute; discriminate).
  rewrite Ha, Hb. reflexivity.
Qed.

Lemma eqm64_mul (a a' b b' : Z) :
  eqm64 a a' -> eqm64 b b' -> eqm64 (a * b) (a' * b').
Proof.
  unfold eqm64. intros Ha Hb.
  rewrite (Z.mul_mod a b), (Z.mul_mod a' b') by (compute; discriminate).
  rewrite Ha, Hb. reflexivity.
Qed.

Lemma eqm64_pow (a a' e : Z) : eqm64 a a' -> eqm64 (a ^ e) (a' ^ e).
Proof.
  intros Ha. destruct (Z_lt_le_dec e 0) as [Hneg | Hpos].
  - rewrite !Z.pow_neg_r by exact Hneg. reflexivity.
  - revert e Hpos. apply natlike_ind.
    + reflexivity.
    + intros e He IH. rewrite !Z.pow_succ_r by exact He.
      apply eqm64_mul; assumption.
Qed.

Lemma wrap64_neg_cancel (c : Z) : wrap64 (c + wrap64 (NEG * c)) = 0.
Proof.
  apply eqm64_zero_wrap.
  apply (eqm64_trans _ (c + NEG * c)).
  - apply eqm64_add; [reflexivity | apply wrap64_eqm].
  - unfold NEG. replace (c + -1 * c) with 0 by ring. reflexivity.
Qed.

Lemma wrap64_neg_nonzero (c : Z) :
  coeff_min <= c <= coeff_max -> c <> 0 -> wrap64 (NEG * c) <> 0.
Proof.
  unfold coeff_min, coeff_max, NEG, wrap64, wrap. intros Hr Hc.
  destruct (Z.eq_dec c (- 2 ^ 63)) as [-> | Hne].
  - vm_compute. discriminate.
  - rewrite Z.mod_small; lia.
Qed.

(** ** [PolyNeg] against [Negate] *)

Lemma Negate_IsCoeff (p : Poly) : PolyIsCoeff (Negate p) = PolyIsCoeff p.
Proof. destruct p; reflexivity. Qed.

Lemma Negate_nonzero (p : Poly) :
  canonical p = true -> PolyIsZero p = false -> PolyIsZero (Negate p) = false.
Proof.
  destruct p as [c | arr]; [| reflexivity].
  cbn [canonical PolyIsZero Negate]. intros Hc Hz.
  apply andb_true_iff in Hc. destruct Hc as [H1 H2].
  apply Z.leb_le in H1. apply Z.leb_le in H2. apply Z.eqb_neq in Hz.
  apply Z.eqb_neq. apply wrap64_neg_nonzero; auto.
Qed.

Lemma PolyNeg_Negate (p : Poly) :
  canonical p = true -> PolyNeg p = Some (Negate p).
Proof.
  induction p as [c | arr IH] using Poly_nested_ind; intros Hc.
  - reflexivity.
  - apply canonical_Terms in Hc. destruct Hc as [Hn [_ [_ Hall]]].
    cbn [PolyNeg Negate].
    assert (Hmap : mapM (fun m => negative_poly <- PolyNeg (m_p m) ;;
                                  MonoFromPoly negative_poly (m_exp m)) arr
                   = Some (map (fun m => MkMono (Negate (m_p m)) (m_exp m)) arr)).
    { clear Hn. induction arr as [| m arr IHarr]; [reflexivity |].
      inversion IH as [| ? ? Hm IH']. subst.
      inversion Hall as [| ? ? Hcm Hall']. subst.
      destruct (canonical_mono_inv m Hcm) as [H1 [H2 _]].
      cbn [mapM map]. rewrite (Hm H1), (IHarr IH' Hall'). cbn [bind].
      unfold MonoFromPoly. rewrite (Negate_nonzero _ H1 H2).
      rewrite orb_true_r. reflexivity. }
    rewrite Hmap. cbn [bind].
    rewrite <- (length_map (fun m => MkMono (Negate (m_p m)) (m_exp m)) arr).
    apply PolyFromSizeAndArray_all.
    destruct arr; [congruence | discriminate].
Qed.

Lemma Negate_wfB (B : Z) (p : Poly) : wfB B p = true -> wfB B (Negate p) = true.
Proof.
  induction p as [c | arr IH] using Poly_nested_ind; intros Hwf.
  - reflexivity.
  - apply wfB_Terms in Hwf. destruct Hwf as [Hn [Hf [Ha Hall]]].
    cbn [Negate]. apply wfB_Terms. repeat split.
    + destruct arr; [congruence | discriminate].
    + destruct arr as [| m [| m' arr']]; try reflexivity.
      cbn [map is_flat] in *. rewrite m_exp_Mk, m_p_Mk, Negate_IsCoeff.
      exact Hf.
    + rewrite map_map. cbn [m_exp]. exact Ha.
    + rewrite Forall_forall in *. intros m' Hm'.
      apply in_map_iff in Hm'. destruct Hm' as [m [<- Hm]].
      destruct (Hall m Hm) as [H1 H2].
      split; [rewrite m_p_Mk; apply (IH m Hm H1) | rewrite m_exp_Mk; exact H2].
Qed.

(** ** A polynomial plus its negation *)

Lemma PolyAddMerge_Negate (lp : list Mono) :
  Forall (fun m => PolyAdd (m_p m) (Negate (m_p m)) = Some (Coeff 0)) lp ->
  PolyAddMerge PolyAdd lp (map NegateMono lp) = Some [].
Proof.
  induction 1 as [| m lp Hm _ IH].
  - reflexivity.
  - cbn [map]. rewrite PolyAddMerge_cons_cons.
    unfold MonoGetExp, NegateMono at 1. rewrite m_exp_Mk, Z.eqb_refl.
    unfold MonoAdd, NegateMono at 1. rewrite m_p_Mk, Hm. cbn [bind].
    rewrite IH. reflexivity.
Qed.

Lemma PolyAdd_Negate (p : Poly) : PolyAdd p (Negate p) = Some (Coeff 0).
Proof.
  induction p as [c | arr IH] using Poly_nested_ind.
  - cbn [Negate PolyAdd PolyAddTwoCoeffs]. unfold PolyFromCoeff.
    rewrite wrap64_neg_cancel. reflexivity.
  - cbn [Negate PolyAdd]. unfold PolyAddTwoNonCoeffs.
    change (map (fun m => MkMono (Negate (m_p m)) (m_exp m)) arr)
      with (map NegateMono arr).
    rewrite (PolyAddMerge_Negate arr IH). reflexivity.
Qed.

(** ** The remaining operators are defined on the invariant *)

Lemma PolyDegBy_defined (B : Z) (p : Poly) :
  wfB B p = true -> forall var_idx, exists d, PolyDegBy p var_idx = Some d.
Proof.
  induction p as [c | arr IH] using Poly_nested_ind; intros Hwf var_idx.
  - cbn [PolyDegBy]. destruct (c =? 0); eexists; reflexivity.
  - apply wfB_Terms in Hwf. destruct Hwf as [Hn [_ [_ Hall]]].
    cbn [PolyDegBy]. destruct var_idx as [| v].
    + destruct (nth_error arr (length arr - 1)) as [m |] eqn:E.
      * exists (MonoGetExp m). reflexivity.
      * apply nth_error_None in E.
        destruct arr; [congruence | simpl in E; lia].
    + destruct (mapM_Forall (fun m => PolyDegBy (m_p m) v) (fun _ => True) arr)
        as [actuals [Hact _]].
      * intros m Hm. rewrite Forall_forall in IH, Hall.
        destruct (IH m Hm (proj1 (Hall m Hm)) v) as [d Hd].
        exists d. auto.
      * rewrite Hact. eexists. reflexivity.
Qed.

Lemma PolySub_wfB (p q : Poly) :
  canonical p = true -> canonical q = true ->
  exists r, PolySub p q = Some r /\ wfB exp_max r = true.
Proof.
  intros Hp Hq. unfold PolySub.
  rewrite (PolyNeg_Negate q Hq). cbn [bind].
  apply PolyAdd_wfB.
  - apply canonical_wfB. exact Hp.
  - apply Negate_wfB. apply canonical_wfB. exact Hq.
Qed.

(** ** Identities on canonical values *)

Lemma MonoSort_asc (l : list Mono) : asc l -> MonoSort l = l.
Proof.
  induction l as [| a l IH]; intros Ha.
  - reflexivity.
  - destruct (asc_cons_inv _ _ Ha) as [Hl Hlt].
    cbn [MonoSort fold_right]. fold (MonoSort l). rewrite (IH Hl).
    destruct l as [| h t]; [reflexivity |].
    cbn [MonoInsert]. inversion Hlt as [| ? ? Hh _]. subst.
    destruct (m_exp a <=? m_exp h) eqn:E; [reflexivity |].
    apply Z.leb_gt in E. lia.
Qed.

Lemma PolyAddMonosLoop_distinct (B : Z) (rest : list Mono) :
  forall done cur,
    asc (cur :: rest) ->
    Forall (fun m => wfB B (m_p m) = true /\ PolyIsZero (m_p m) = false)
           (cur :: rest) ->
    PolyAddMonosLoop done cur rest = Some (done ++ cur :: rest).
Proof.
  induction rest as [| m rest IH]; intros done cur Ha Hall.
  - reflexivity.
  - destruct (asc_cons_inv _ _ Ha) as [Ha' Hlt].
    inversion Hlt as [| ? ? Hcm _]. subst.
    inversion Hall as [| ? ? [_ Hz] Hall']. subst.
    inversion Hall' as [| ? ? [Hwm _] _]. subst.
    cbn [PolyAddMonosLoop]. unfold MonoGetExp.
    destruct (m_exp cur =? m_exp m) eqn:E.
    { apply Z.eqb_eq in E. lia. }
    rewrite (MonoClone_wfB B m Hwm). cbn [bind]. rewrite Hz. cbn [negb].
    rewrite (IH (done ++ [cur]) m Ha' Hall').
    rewrite <- app_assoc. reflexivity.
Qed.

Lemma canonical_mono_wfB (arr : list Mono) :
  Forall (fun m => canonical_mono m = true) arr ->
  Forall (fun m => wfB exp_max (m_p m) = true /\ PolyIsZero (m_p m) = false) arr.
Proof.
  intros H. eapply Forall_impl; [| exact H].
  intros m Hm. destruct (canonical_mono_inv m Hm) as [H1 [H2 _]].
  split; [apply canonical_wfB; exact H1 | exact H2].
Qed.

Lemma PolyAddMonos_canonical (arr : list Mono) :
  canonical (Terms arr) = true ->
  PolyAddMonos (length arr) arr = Some (Terms arr).
Proof.
  intros Hc. apply canonical_Terms in Hc. destruct Hc as [Hn [Hf [Ha Hall]]].
  unfold PolyAddMonos, PolyAddMonosScan.
  destruct arr as [| first rest]; [congruence |].
  cbn [length Nat.eqb]. rewrite Nat.leb_refl.
  change (S (length rest)) with (length (first :: rest)).
  rewrite firstn_all. rewrite (MonoSort_asc _ Ha).
  rewrite (PolyAddMonosLoop_distinct exp_max rest [] first Ha
             (canonical_mono_wfB _ Hall)).
  cbn [bind app]. rewrite Trim_Interpret. f_equal.
  destruct rest as [| m rest']; [| reflexivity].
  cbn [Interpret]. cbn [is_flat] in Hf.
  inversion Hall as [| ? ? Hcm _]. subst.
  destruct (canonical_mono_inv first Hcm) as [_ [Hz _]].
  rewrite Hz, Hf. reflexivity.
Qed.

Lemma canonical_Coeff_range (c : Z) :
  canonical (Coeff c) = true -> coeff_min <= c <= coeff_max.
Proof.
  cbn [canonical]. rewrite andb_true_iff, !Z.leb_le. tauto.
Qed.

Lemma PolyMul_one_r (p : Poly) :
  canonical p = true -> PolyMul p (Coeff 1) = Some p.
Proof.
  induction p as [c | arr IH] using Poly_nested_ind; intros Hc.
  - cbn [PolyMul PolyMulTwoCoeffs]. unfold PolyFromCoeff.
    rewrite wrap64_small; [do 2 f_equal; ring |].
    apply canonical_Coeff_range in Hc. lia.
  - cbn [PolyMul]. unfold PolyMulCoeffAndNonCoeff_ordered.
    cbn [PolyIsCoeff PolyIsZero Z.eqb].
    rewrite (mapM_id _ arr).
    + cbn [bind]. apply PolyAddMonos_canonical. exact Hc.
    + apply canonical_Terms in Hc. destruct Hc as [_ [_ [_ Hall]]].
      rewrite Forall_forall in *. intros m Hm.
      destruct (canonical_mono_inv m (Hall m Hm)) as [H1 _].
      unfold MonoMulCoeff. cbn [PolyIsCoeff]. rewrite (IH m Hm H1).
      destruct m; reflexivity.
Qed.

Lemma PolyMul_zero_r (p : Poly) : PolyMul p (Coeff 0) = Some (Coeff 0).
Proof.
  destruct p as [c | arr].
  - cbn [PolyMul PolyMulTwoCoeffs]. reflexivity.
  - reflexivity.
Qed.

Lemma PolyAdd_zero_r (p : Poly) :
  canonical p = true -> PolyAdd p (Coeff 0) = Some p.
Proof.
  intros Hc. destruct p as [c | arr].
  - cbn [PolyAdd PolyAddTwoCoeffs]. unfold PolyFromCoeff.
    rewrite wrap64_small; [do 2 f_equal; ring |].
    apply canonical_Coeff_range in Hc. lia.
  - cbn [PolyAdd]. unfold PolyAddCoeffToNonCoeff_ordered.
    cbn [PolyIsCoeff PolyIsZero Z.eqb].
    apply (PolyClone_wfB exp_max). apply canonical_wfB. exact Hc.
Qed.

Lemma PolyAdd_zero_l (p : Poly) :
  canonical p = true -> PolyAdd (Coeff 0) p = Some p.
Proof.
  intros Hc. destruct p as [c | arr].
  - cbn [PolyAdd PolyAddTwoCoeffs]. unfold PolyFromCoeff.
    rewrite wrap64_small; [reflexivity |].
    apply canonical_Coeff_range in Hc. lia.
  - cbn [PolyAdd]. unfold PolyAddCoeffToNonCoeff_ordered.
    cbn [PolyIsCoeff PolyIsZero Z.eqb].
    apply (PolyClone_wfB exp_max). apply canonical_wfB. exact Hc.
Qed.

(** ** Evaluation at zero *)

Lemma PowerOfPos_zero (n : positive) : PowerOfPos 0 n = 0.
Proof.
  induction n as [k IH | k IH |]; cbn [PowerOfPos].
  - reflexivity.
  - change (wrap64 (0 * 0)) with 0. exact IH.
  - reflexivity.
Qed.

Lemma MonoAt_zero_high (m : Mono) :
  0 < m_exp m -> MonoAt m 0 = Some (Coeff 0).
Proof.
  intros He. unfold MonoAt.
  destruct (m_exp m) as [| n | n]; try lia.
  cbn [PowerOf bind]. rewrite PowerOfPos_zero. apply PolyMul_zero_r.
Qed.

Lemma PolyAt_step_high (l : list Mono) (r : Poly) :
  canonical r = true ->
  Forall (fun m => 0 < m_exp m) l ->
  foldM (fun result m => new_poly <- MonoAt m 0 ;; PolyAdd result new_poly) l r
  = Some r.
Proof.
  intros Hr. induction 1 as [| m l Hm _ IH].
  - reflexivity.
  - cbn [foldM]. rewrite (MonoAt_zero_high m Hm). cbn [bind].
    rewrite (PolyAdd_zero_r r Hr). cbn [bind]. exact IH.
Qed.

Lemma filter_exp0_high (l : list Mono) :
  Forall (fun m => 0 < m_exp m) l ->
  filter (fun m => m_exp m =? 0) l = [].
Proof.
  induction 1 as [| m l Hm _ IH]; [reflexivity |].
  cbn [filter]. destruct (m_exp m =? 0) eqn:E; [| exact IH].
  apply Z.eqb_eq in E. lia.
Qed.

Lemma PolyAt_origin_canonical (arr : list Mono) :
  canonical (Terms arr) = true ->
  exists r, PolyAt (Terms arr) 0 = Some r
            /\ SumPolys (exp0_coeffs (Terms arr)) = Some r.
Proof.
  intros Hc. apply canonical_Terms in Hc. destruct Hc as [Hn [_ [Ha Hall]]].
  destruct arr as [| first rest]; [congruence |].
  destruct (asc_cons_inv _ _ Ha) as [_ Hlt].
  inversion Hall as [| ? ? Hcf Hall']. subst.
  destruct (canonical_mono_inv first Hcf) as [Hcp [_ Hfe]].
  cbn [PolyAt exp0_coeffs foldM filter].
  destruct (m_exp first =? 0) eqn:E0.
  - apply Z.eqb_eq in E0.
    assert (Hhigh : Forall (fun m => 0 < m_exp m) rest).
    { eapply Forall_impl; [| exact Hlt]. intros m Hm. simpl in Hm. lia. }
    exists (m_p first). unfold MonoAt. rewrite E0. cbn [PowerOf bind].
    unfold PolyFromCoeff. rewrite (PolyMul_one_r _ Hcp). cbn [bind].
    unfold PolyZero, PolyFromCoeff. rewrite (PolyAdd_zero_l _ Hcp). cbn [bind].
    split; [apply PolyAt_step_high; assumption |].
    rewrite (filter_exp0_high rest Hhigh).
    unfold SumPolys. cbn [map foldM]. unfold PolyZero, PolyFromCoeff.
    rewrite (PolyAdd_zero_l _ Hcp). reflexivity.
  - apply Z.eqb_neq in E0.
    assert (Hhigh : Forall (fun m => 0 < m_exp m) (first :: rest)).
    { constructor; [lia |].
      eapply Forall_impl; [| exact Hlt]. intros m Hm. simpl in Hm. lia. }
    exists (Coeff 0). split.
    + apply (PolyAt_step_high (first :: rest) (Coeff 0)); [reflexivity | exact Hhigh].
    + inversion Hhigh as [| ? ? _ Hh']. subst.
      rewrite (filter_exp0_high rest Hh'). reflexivity.
Qed.

(** ** Denotation: basic facts *)

Lemma eval_Terms (env : nat -> Z) (d : nat) (arr : list Mono) :
  eval env d (Terms arr) = evalMonos env d arr.
Proof. reflexivity. Qed.

Lemma evalMonos_nil (env : nat -> Z) (d : nat) : evalMonos env d [] = 0.
Proof. reflexivity. Qed.

Lemma evalMonos_cons (env : nat -> Z) (d : nat) (m : Mono) (l : list Mono) :
  evalMonos env d (m :: l) = evalMono env d m + evalMonos env d l.
Proof. reflexivity. Qed.

Lemma evalMonos_app (env : nat -> Z) (d : nat) (l1 l2 : list Mono) :
  evalMonos env d (l1 ++ l2) = evalMonos env d l1 + evalMonos env d l2.
Proof.
  induction l1 as [| m l1 IH]; [reflexivity |].
  cbn [app]. rewrite !evalMonos_cons, IH. ring.
Qed.

Lemma evalMonos_perm (env : nat -> Z) (d : nat) (l1 l2 : list Mono) :
  Permutation l1 l2 -> evalMonos env d l1 = evalMonos env d l2.
Proof.
  induction 1 as [| m l l' _ IH | a b l | l l' l'' _ IH1 _ IH2].
  - reflexivity.
  - rewrite !evalMonos_cons, IH. reflexivity.
  - rewrite !evalMonos_cons. ring.
  - congruence.
Qed.

Lemma eval_Coeff_depth (env : nat -> Z) (d d' : nat) (p : Poly) :
  PolyIsCoeff p = true -> eval env d p = eval env d' p.
Proof. destruct p; [reflexivity | discriminate]. Qed.

Lemma PolyIsZero_eval (env : nat -> Z) (d : nat) (p : Poly) :
  PolyIsZero p = true -> eval env d p = 0.
Proof.
  destruct p as [c |]; [| discriminate].
  cbn [PolyIsZero eval]. apply Z.eqb_eq.
Qed.

Lemma PolyClone_Some (p : Poly) : forall r, PolyClone p = Some r -> r = p.
Proof.
  induction p as [c | arr IH] using Poly_nested_ind; intros r H.
  - inversion H. reflexivity.
  - cbn [PolyClone] in H. apply bind_Some in H. destruct H as [na [Hna H]].
    assert (Hid : na = arr).
    { clear H. revert na Hna. induction arr as [| m arr IHarr]; intros na Hna.
      - inversion Hna. reflexivity.
      - inversion IH as [| ? ? Hm IH']. subst.
        cbn [mapM] in Hna. apply bind_Some in Hna. destruct Hna as [b [Hb Hna]].
        apply bind_Some in Hna. destruct Hna as [bs [Hbs Hna]].
        inversion Hna. subst.
        apply bind_Some in Hb. destruct Hb as [c [Hc Hb]].
        inversion Hb. subst.
        rewrite (Hm c Hc), (IHarr IH' bs Hbs). destruct m; reflexivity. }
    subst na. unfold PolyFromSizeAndArray in H.
    destruct (negb (Nat.eqb (length arr) 0)); [| discriminate].
    rewrite firstn_all in H. inversion H. reflexivity.
Qed.

Lemma MonoClone_Some (m c : Mono) : MonoClone m = Some c -> c = m.
Proof.
  unfold MonoClone. intros H. apply bind_Some in H. destruct H as [r [Hr H]].
  inversion H. rewrite (PolyClone_Some _ _ Hr). destruct m; reflexivity.
Qed.

Lemma mapM_MonoClone_Some (l r : list Mono) :
  mapM MonoClone l = Some r -> r = l.
Proof.
  revert r. induction l as [| m l IH]; intros r H.
  - inversion H. reflexivity.
  - cbn [mapM] in H. apply bind_Some in H. destruct H as [c [Hc H]].
    apply bind_Some in H. destruct H as [cs [Hcs H]].
    inversion H. rewrite (MonoClone_Some _ _ Hc), (IH _ Hcs). reflexivity.
Qed.

Lemma PolyFromSizeAndArray_Some (l : list Mono) (r : Poly) :
  PolyFromSizeAndArray (length l) l = Some r -> r = Terms l.
Proof.
  unfold PolyFromSizeAndArray.
  destruct (negb (Nat.eqb (length l) 0)); [| discriminate].
  rewrite firstn_all. intros H. inversion H. reflexivity.
Qed.

Lemma eval_Interpret (env : nat -> Z) (d : nat) (out : list Mono) :
  eval env d (Interpret out) = evalMonos env d out.
Proof.
  destruct out as [| m [| m' out']]; try reflexivity.
  cbn [Interpret]. unfold evalMonos, evalMono. cbn [fold_right].
  destruct (PolyIsZero (m_p m)) eqn:Ez.
  - rewrite (PolyIsZero_eval env (S d) _ Ez). reflexivity.
  - destruct ((m_exp m =? 0) && PolyIsCoeff (m_p m)) eqn:Ef; [| reflexivity].
    apply andb_true_iff in Ef. destruct Ef as [E0 Ec].
    apply Z.eqb_eq in E0. rewrite E0.
    rewrite (eval_Coeff_depth env d (S d) _ Ec).
    change (env d ^ 0) with 1. ring.
Qed.

(** ** Rewriting modulo [2^64] *)

#[global] Instance eqm64_Equivalence : Equivalence eqm64.
Proof.
  constructor.
  - intros a. apply eqm64_refl.
  - intros a b. apply eqm64_sym.
  - intros a b c. apply eqm64_trans.
Qed.

#[global] Instance eqm64_add_Proper : Proper (eqm64 ==> eqm64 ==> eqm64) Z.add.
Proof. intros a a' Ha b b' Hb. apply eqm64_add; assumption. Qed.

#[global] Instance eqm64_mul_Proper : Proper (eqm64 ==> eqm64 ==> eqm64) Z.mul.
Proof. intros a a' Ha b b' Hb. apply eqm64_mul; assumption. Qed.

#[global] Instance eqm64_pow_Proper : Proper (eqm64 ==> eq ==> eqm64) Z.pow.
Proof. intros a a' Ha e e' <-. apply eqm64_pow. exact Ha. Qed.

Lemma eqm64_of_eq (a b : Z) : a = b -> eqm64 a b.
Proof. intros ->. reflexivity. Qed.

Ltac eqm_ring := rewrite ?evalMonos_nil; apply eqm64_of_eq; ring.

(** ** Addition denotes the sum *)

Lemma ordered_sem (rec : Poly -> Poly -> option Poly) (p q : Poly) :
  (forall arr m, p = Terms arr -> In m arr -> add_sem rec (m_p m)) ->
  forall r, PolyAddCoeffToNonCoeff_ordered rec p q = Some r ->
            forall env d, eqm64 (eval env d r) (eval env d p + eval env d q).
Proof.
  intros Hrec r H env d. unfold PolyAddCoeffToNonCoeff_ordered in H.
  destruct (PolyIsCoeff q) eqn:Hq; [| discriminate].
  destruct (PolyIsZero q) eqn:Hz.
  { rewrite (PolyClone_Some _ _ H), (PolyIsZero_eval env d q Hz). eqm_ring. }
  destruct p as [a | [| first rest]]; try discriminate.
  specialize (Hrec (first :: rest) first eq_refl (or_introl eq_refl)).
  unfold MonoGetExp in H.
  destruct (m_exp first =? 0) eqn:E0.
  - apply Z.eqb_eq in E0.
    unfold PolyAddCoeffIfPhasConst in H.
    apply bind_Some in H. destruct H as [new [Hnew H]].
    apply bind_Some in H. destruct H as [clones [Hcl H]].
    apply mapM_MonoClone_Some in Hcl. subst clones.
    pose proof (Hrec q new Hnew env (S d)) as Hsem.
    rewrite (eval_Coeff_depth env (S d) d q Hq) in Hsem.
    rewrite eval_Terms, evalMonos_cons. unfold evalMono at 1.
    rewrite E0. change (env d ^ 0) with 1.
    destruct (PolyIsZero new) eqn:Ezn.
    + apply PolyFromSizeAndArray_Some in H. subst r.
      rewrite (PolyIsZero_eval env (S d) new Ezn) in Hsem.
      rewrite eval_Terms.
      transitivity (0 + evalMonos env d rest); [eqm_ring |].
      rewrite Hsem. eqm_ring.
    + unfold MonoFromPoly in H. cbn [Z.eqb orb bind] in H.
      apply (PolyFromSizeAndArray_Some (MkMono new 0 :: rest)) in H. subst r.
      rewrite eval_Terms, evalMonos_cons. unfold evalMono at 1.
      rewrite m_p_Mk, m_exp_Mk. change (env d ^ 0) with 1.
      rewrite Hsem. eqm_ring.
  - unfold PolyAddCoeffIfPDoesntHaveConst in H.
    unfold MonoFromPoly in H. cbn [Z.eqb orb bind] in H.
    apply bind_Some in H. destruct H as [clones [Hcl H]].
    apply mapM_MonoClone_Some in Hcl. subst clones.
    apply (PolyFromSizeAndArray_Some (MkMono q 0 :: first :: rest)) in H. subst r.
    rewrite !eval_Terms, (evalMonos_cons env d (MkMono q 0)).
    unfold evalMono at 1. rewrite m_p_Mk, m_exp_Mk. change (env d ^ 0) with 1.
    rewrite (eval_Coeff_depth env (S d) d q Hq). eqm_ring.
Qed.

Lemma merge_sem (rec : Poly -> Poly -> option Poly) (lp : list Mono) :
  (forall m, In m lp -> add_sem rec (m_p m)) ->
  forall lq out,
    PolyAddMerge rec lp lq = Some out ->
    forall env d,
      eqm64 (evalMonos env d out) (evalMonos env d lp + evalMonos env d lq).
Proof.
  induction lp as [| a lp IHp]; intros Hrec lq out H env d.
  { rewrite PolyAddMerge_nil_l in H. apply mapM_MonoClone_Some in H. subst.
    eqm_ring. }
  revert out H. induction lq as [| b lq IHq]; intros out H.
  { rewrite PolyAddMerge_nil_r in H. apply mapM_MonoClone_Some in H. subst.
    eqm_ring. }
  rewrite PolyAddMerge_cons_cons in H. unfold MonoGetExp in H.
  destruct (m_exp a =? m_exp b) eqn:Eeq; [| destruct (m_exp a >? m_exp b)].
  - apply Z.eqb_eq in Eeq.
    apply bind_Some in H. destruct H as [nm [Hnm H]].
    apply bind_Some in H. destruct H as [tl [Htl H]].
    unfold MonoAdd in Hnm. apply bind_Some in Hnm. destruct Hnm as [s [Hs Hnm]].
    inversion Hnm. subst nm. clear Hnm. rewrite m_p_Mk in H.
    pose proof (Hrec a (or_introl eq_refl) (m_p b) s Hs env (S d)) as Hsem.
    assert (Htl' : eqm64 (evalMonos env d tl)
                         (evalMonos env d lp + evalMonos env d lq)).
    { apply (IHp (fun m Hm => Hrec m (or_intror Hm)) lq tl Htl). }
    rewrite !evalMonos_cons. unfold evalMono at 1 2. rewrite <- Eeq.
    destruct (PolyIsZero s) eqn:Ez; cbn [negb] in H; inversion H; subst out.
    + rewrite (PolyIsZero_eval env (S d) s Ez) in Hsem.
      rewrite Htl'.
      transitivity (0 * env d ^ m_exp a
                    + (evalMonos env d lp + evalMonos env d lq)); [eqm_ring |].
      rewrite Hsem. eqm_ring.
    + rewrite evalMonos_cons. unfold evalMono at 1. rewrite m_p_Mk, m_exp_Mk.
      rewrite Htl', Hsem. eqm_ring.
  - apply bind_Some in H. destruct H as [c [Hc H]].
    apply MonoClone_Some in Hc. subst c.
    apply bind_Some in H. destruct H as [tl [Htl H]].
    inversion H. subst out.
    rewrite !evalMonos_cons. rewrite (IHq tl Htl).
    rewrite evalMonos_cons. eqm_ring.
  - apply bind_Some in H. destruct H as [c [Hc H]].
    apply MonoClone_Some in Hc. subst c.
    apply bind_Some in H. destruct H as [tl [Htl H]].
    inversion H. subst out.
    rewrite !evalMonos_cons.
    rewrite (IHp (fun m Hm => Hrec m (or_intror Hm)) (b :: lq) tl Htl).
    rewrite evalMonos_cons. eqm_ring.
Qed.

Lemma PolyAddConst_sem (p : Poly) : add_sem PolyAddConst p.
Proof.
  induction p as [a | arr IH] using Poly_nested_ind; intros q r H env d.
  - destruct q as [b | lq]; [| discriminate].
    inversion H. cbn [eval]. apply wrap64_eqm.
  - cbn [PolyAddConst] in H. revert r H env d. apply ordered_sem.
    intros arr' m Harr Hm. inversion Harr. subst arr'.
    rewrite Forall_forall in IH. apply (IH m Hm).
Qed.

Lemma PolyAdd_sem_ind (p : Poly) : add_sem PolyAdd p.
Proof.
  induction p as [a | arr IH] using Poly_nested_ind; intros q r H env d.
  - destruct q as [b | lq].
    + inversion H. cbn [eval]. apply wrap64_eqm.
    + cbn [PolyAdd] in H.
      rewrite (ordered_sem PolyAddConst (Terms lq) (Coeff a)
                 (fun _ m _ _ => PolyAddConst_sem (m_p m)) r H env d).
      eqm_ring.
  - destruct q as [b | lq].
    + cbn [PolyAdd] in H. revert r H env d. apply ordered_sem.
      intros arr' m Harr Hm. inversion Harr. subst arr'.
      rewrite Forall_forall in IH. apply (IH m Hm).
    + cbn [PolyAdd] in H. unfold PolyAddTwoNonCoeffs in H.
      apply bind_Some in H. destruct H as [out [Hout H]].
      rewrite Trim_Interpret in H. inversion H. subst r.
      rewrite eval_Interpret, !eval_Terms.
      apply (merge_sem PolyAdd arr); [| exact Hout].
      intros m Hm. rewrite Forall_forall in IH. apply (IH m Hm).
Qed.

Lemma PolyAdd_sem (p q r : Poly) (env : nat -> Z) (d : nat) :
  PolyAdd p q = Some r ->
  eqm64 (eval env d r) (eval env d p + eval env d q).
Proof. intros H. apply (PolyAdd_sem_ind p q r H). Qed.

(** ** [PolyAddMonos] denotes the sum of the monomials *)

Lemma PolyAddMonosLoop_sem (rest : list Mono) :
  forall done cur out,
    PolyAddMonosLoop done cur rest = Some out ->
    forall env d,
      eqm64 (evalMonos env d out)
            (evalMonos env d done + evalMono env d cur + evalMonos env d rest).
Proof.
  induction rest as [| m rest IH]; intros done cur out H env d.
  - inversion H. rewrite evalMonos_app, evalMonos_cons. eqm_ring.
  - cbn [PolyAddMonosLoop] in H. unfold MonoGetExp in H.
    rewrite evalMonos_cons.
    destruct (m_exp cur =? m_exp m) eqn:E.
    + apply Z.eqb_eq in E.
      apply bind_Some in H. destruct H as [nm [Hnm H]].
      unfold MonoAdd in Hnm. apply bind_Some in Hnm. destruct Hnm as [s [Hs Hnm]].
      inversion Hnm. subst nm. clear Hnm.
      rewrite (IH _ _ _ H env d).
      unfold evalMono. rewrite m_p_Mk, m_exp_Mk.
      rewrite (PolyAdd_sem _ _ _ env (S d) Hs). rewrite <- E. eqm_ring.
    + apply bind_Some in H. destruct H as [c [Hc H]].
      apply MonoClone_Some in Hc. subst c.
      destruct (PolyIsZero (m_p cur)) eqn:Ez; cbn [negb] in H.
      * rewrite (IH _ _ _ H env d).
        unfold evalMono at 2. rewrite (PolyIsZero_eval env (S d) _ Ez). eqm_ring.
      * rewrite (IH _ _ _ H env d).
        rewrite evalMonos_app, evalMonos_cons. eqm_ring.
Qed.

Lemma PolyAddMonos_sem (count : nat) (monos : list Mono) (r : Poly) :
  PolyAddMonos count monos = Some r ->
  forall env d, eqm64 (eval env d r) (evalMonos env d (firstn count monos)).
Proof.
  intros H env d. unfold PolyAddMonos, PolyAddMonosScan in H.
  destruct (Nat.eqb count 0) eqn:E0.
  { apply Nat.eqb_eq in E0. subst count. inversion H. reflexivity. }
  destruct (Nat.leb count (length monos)); [| discriminate].
  pose proof (MonoSort_perm (firstn count monos)) as Hp.
  destruct (MonoSort (firstn count monos)) as [| first rest]; [discriminate |].
  apply bind_Some in H. destruct H as [out [Hout H]].
  rewrite Trim_Interpret in H. inversion H. subst r.
  rewrite eval_Interpret.
  rewrite (PolyAddMonosLoop_sem _ _ _ _ Hout env d).
  rewrite <- (evalMonos_perm env d _ _ Hp).
  rewrite evalMonos_cons. eqm_ring.
Qed.

(** ** Multiplication denotes the product while exponent sums fit *)

Lemma MonoMulCoeff_sem (rec : Poly -> Poly -> option Poly) (q : Poly)
      (arr result : list Mono) :
  (forall m, In m arr -> mul_const_sem rec (m_p m)) ->
  mapM (fun m => MonoMulCoeff rec m q) arr = Some result ->
  forall env d,
    eqm64 (evalMonos env d result) (evalMonos env d arr * eval env d q).
Proof.
  revert result. induction arr as [| m arr IH]; intros result Hrec H env d.
  - inversion H. eqm_ring.
  - cbn [mapM] in H. apply bind_Some in H. destruct H as [b [Hb H]].
    apply bind_Some in H. destruct H as [bs [Hbs H]].
    inversion H. subst result. clear H.
    unfold MonoMulCoeff in Hb.
    destruct (PolyIsCoeff q) eqn:Hq; [| discriminate].
    apply bind_Some in Hb. destruct Hb as [c [Hc Hb]].
    inversion Hb. subst b. clear Hb.
    rewrite !evalMonos_cons.
    rewrite (IH bs (fun m' Hm' => Hrec m' (or_intror Hm')) Hbs env d).
    unfold evalMono. rewrite m_p_Mk, m_exp_Mk.
    rewrite (Hrec m (or_introl eq_refl) q c Hq Hc env (S d)).
    rewrite (eval_Coeff_depth env (S d) d q Hq). eqm_ring.
Qed.

Lemma mul_ordered_sem (rec : Poly -> Poly -> option Poly) (p q : Poly) :
  (forall arr m, p = Terms arr -> In m arr -> mul_const_sem rec (m_p m)) ->
  forall r, PolyMulCoeffAndNonCoeff_ordered rec p q = Some r ->
            forall env d, eqm64 (eval env d r) (eval env d p * eval env d q).
Proof.
  intros Hrec r H env d. unfold PolyMulCoeffAndNonCoeff_ordered in H.
  destruct (PolyIsCoeff q) eqn:Hq; [| discriminate].
  destruct (PolyIsZero q) eqn:Hz.
  { inversion H. rewrite (PolyIsZero_eval env d q Hz). cbn [eval PolyZero PolyFromCoeff].
    eqm_ring. }
  destruct p as [a | arr]; [discriminate |].
  apply bind_Some in H. destruct H as [result [Hres H]].
  rewrite (PolyAddMonos_sem _ _ _ H env d).
  rewrite <- (mapM_length _ _ _ Hres), firstn_all.
  rewrite eval_Terms.
  apply (MonoMulCoeff_sem rec q arr result); [| exact Hres].
  intros m Hm. apply (Hrec arr m eq_refl Hm).
Qed.

Lemma MonoMul_row_sem (B1 B2 : Z) (rec : Poly -> Poly -> option Poly)
      (mi : Mono) (lq row : list Mono) :
  B1 + B2 <= exp_max -> 0 <= m_exp mi <= B1 ->
  Forall (wfB_mono B2) lq ->
  mul_sem B2 rec (m_p mi) ->
  mapM (fun mj => MonoMul rec mi mj) lq = Some row ->
  forall env d,
    eqm64 (evalMonos env d row) (evalMono env d mi * evalMonos env d lq).
Proof.
  intros HB Hei Hq Hrec. revert row.
  induction Hq as [| mj lq [Hwj Hej] _ IH]; intros row H env d.
  - inversion H. eqm_ring.
  - cbn [mapM] in H. apply bind_Some in H. destruct H as [b [Hb H]].
    apply bind_Some in H. destruct H as [bs [Hbs H]].
    inversion H. subst row. clear H.
    unfold MonoMul in Hb. apply bind_Some in Hb. destruct Hb as [c [Hc Hb]].
    inversion Hb. subst b. clear Hb.
    rewrite !evalMonos_cons. rewrite (IH bs Hbs env d).
    unfold evalMono. rewrite m_p_Mk, m_exp_Mk.
    rewrite wrap32_small by lia.
    rewrite Z.pow_add_r by lia.
    rewrite (Hrec (m_p mj) c Hwj Hc env (S d)). eqm_ring.
Qed.

Lemma cross_sem (B1 B2 : Z) (rec : Poly -> Poly -> option Poly)
      (lp lq out : list Mono) :
  B1 + B2 <= exp_max ->
  Forall (wfB_mono B1) lp -> Forall (wfB_mono B2) lq ->
  (forall m, In m lp -> mul_sem B2 rec (m_p m)) ->
  PolyMulCross rec lp lq = Some out ->
  forall env d,
    eqm64 (evalMonos env d out) (evalMonos env d lp * evalMonos env d lq).
Proof.
  intros HB Hp Hq Hrec H env d. unfold PolyMulCross in H.
  apply bind_Some in H. destruct H as [rows [Hrows H]].
  inversion H. subst out. clear H.
  revert rows Hrows. induction Hp as [| mi lp [_ Hei] _ IH]; intros rows Hrows.
  - inversion Hrows. eqm_ring.
  - cbn [mapM] in Hrows. apply bind_Some in Hrows. destruct Hrows as [row [Hrow H]].
    apply bind_Some in H. destruct H as [rows' [Hrows' H]].
    inversion H. subst rows. clear H.
    cbn [concat]. rewrite evalMonos_app, evalMonos_cons.
    rewrite (IH (fun m Hm => Hrec m (or_intror Hm)) rows' Hrows').
    rewrite (MonoMul_row_sem B1 B2 rec mi lq row HB Hei Hq
               (Hrec mi (or_introl eq_refl)) Hrow env d).
    eqm_ring.
Qed.

Lemma PolyMulConst_sem (p : Poly) : mul_const_sem PolyMulConst p.
Proof.
  induction p as [a | arr IH] using Poly_nested_ind; intros q r Hq H env d.
  - destruct q as [b | lq]; [| discriminate].
    inversion H. cbn [eval].
    etransitivity; [apply wrap64_eqm | eqm_ring].
  - cbn [PolyMulConst] in H. revert r H env d. apply mul_ordered_sem.
    intros arr' m Harr Hm. inversion Harr. subst arr'.
    rewrite Forall_forall in IH. apply (IH m Hm).
Qed.

Lemma PolyMul_const_sem (p : Poly) : mul_const_sem PolyMul p.
Proof.
  intros q r Hq H. rewrite <- (PolyMulConst_eq p q Hq) in H.
  apply (PolyMulConst_sem p q r Hq H).
Qed.

Lemma PolyMul_sem_ind (B1 B2 : Z) (p : Poly) :
  B1 + B2 <= exp_max -> wfB B1 p = true -> mul_sem B2 PolyMul p.
Proof.
  intros HB.
  induction p as [a | arr IH] using Poly_nested_ind; intros Hwf q r Hq H env d.
  - destruct q as [b | lq].
    + inversion H. cbn [eval].
    etransitivity; [apply wrap64_eqm | eqm_ring].
    + cbn [PolyMul] in H.
      rewrite (mul_ordered_sem PolyMulConst (Terms lq) (Coeff a)
                 (fun _ m _ _ => PolyMulConst_sem (m_p m)) r H env d).
      eqm_ring.
  - destruct q as [b | lq].
    + cbn [PolyMul] in H. revert r H env d. apply mul_ordered_sem.
      intros arr' m _ _. apply PolyMul_const_sem.
    + cbn [PolyMul] in H. unfold PolyMulTwoNonCoeffs in H.
      apply bind_Some in H. destruct H as [out [Hout H]].
      rewrite (PolyAddMonos_sem _ _ _ H env d), firstn_all, !eval_Terms.
      apply wfB_Terms in Hwf. destruct Hwf as [_ [_ [_ Hall]]].
      apply wfB_Terms in Hq. destruct Hq as [_ [_ [_ Hallq]]].
      apply (cross_sem B1 B2 PolyMul arr lq out HB Hall Hallq); [| exact Hout].
      intros m Hm. rewrite Forall_forall in IH, Hall.
      apply (IH m Hm). apply (Hall m Hm).
Qed.

Lemma PolyMul_sem (B1 B2 : Z) (p q r : Poly) (env : nat -> Z) (d : nat) :
  B1 + B2 <= exp_max -> wfB B1 p = true -> wfB B2 q = true ->
  PolyMul p q = Some r ->
  eqm64 (eval env d r) (eval env d p * eval env d q).
Proof.
  intros HB Hp Hq H. apply (PolyMul_sem_ind B1 B2 p HB Hp q r Hq H).
Qed.

(** ** Powers and composition denote what they should *)

Lemma pow_odd (x k : Z) : 0 <= k -> x ^ (2 * k + 1) = x * (x * x) ^ k.
Proof.
  intros Hk. rewrite Z.pow_add_r by lia.
  rewrite Z.pow_mul_r by lia. rewrite Z.pow_2_r, Z.pow_1_r. ring.
Qed.

Lemma pow_even (x k : Z) : 0 <= k -> x ^ (2 * k) = (x * x) ^ k.
Proof.
  intros Hk. rewrite Z.pow_mul_r by lia. rewrite Z.pow_2_r. reflexivity.
Qed.

Lemma PolyPowerPos_sem (n : positive) :
  forall (p r : Poly) (B : Z),
    0 <= B -> wfB B p = true -> Zpos n * B <= exp_max ->
    PolyPowerPos p n = Some r ->
    forall env d, eqm64 (eval env d r) (eval env d p ^ Zpos n).
Proof.
  induction n as [k IH | k IH |]; intros p r B HB Hwf Hle H env d.
  - rewrite Pos2Z.inj_xI in *.
    assert (Hk : 0 < Zpos k) by apply Pos2Z.is_pos.
    cbn [PolyPowerPos] in H.
    apply bind_Some in H. destruct H as [foo1 [H1 H]].
    apply bind_Some in H. destruct H as [foo2 [H2 H]].
    destruct (PolyMul_wfB B B p p HB HB) as [foo1' [H1' Hw1]]; auto; [nia |].
    rewrite H1 in H1'. inversion H1'. subst foo1'. clear H1'.
    destruct (PolyPowerPos_wfB k foo1 (B + B)) as [foo2' [H2' Hw2]];
      auto; [lia | nia |].
    rewrite H2 in H2'. inversion H2'. subst foo2'. clear H2'.
    rewrite (PolyMul_sem B (Zpos k * (B + B)) p foo2 r env d); auto; [| nia].
    rewrite (IH foo1 foo2 (B + B)); auto; [| lia | nia].
    rewrite (PolyMul_sem B B p p foo1 env d); auto; [| nia].
    rewrite pow_odd by lia. reflexivity.
  - rewrite Pos2Z.inj_xO in *.
    assert (Hk : 0 < Zpos k) by apply Pos2Z.is_pos.
    cbn [PolyPowerPos] in H.
    apply bind_Some in H. destruct H as [foo1 [H1 H]].
    destruct (PolyMul_wfB B B p p HB HB) as [foo1' [H1' Hw1]]; auto; [nia |].
    rewrite H1 in H1'. inversion H1'. subst foo1'. clear H1'.
    rewrite (IH foo1 r (B + B)); auto; [| lia | nia].
    rewrite (PolyMul_sem B B p p foo1 env d); auto; [| nia].
    rewrite pow_even by lia. reflexivity.
  - cbn [PolyPowerPos] in H. rewrite (PolyClone_Some _ _ H).
    rewrite Z.pow_1_r. reflexivity.
Qed.

Lemma PolyPower_sem (p r : Poly) (B e : Z) :
  0 <= B -> 0 <= e -> wfB B p = true -> e * B <= exp_max ->
  PolyPower p e = Some r ->
  forall env d, eqm64 (eval env d r) (eval env d p ^ e).
Proof.
  intros HB He Hwf Hle H env d. destruct e as [| n | n].
  - inversion H. reflexivity.
  - apply (PolyPowerPos_sem n p r B); assumption.
  - lia.
Qed.

Lemma subst_env_lt (env : nat -> Z) (k : nat) (q : list Poly) (i : nat) (qi : Poly) :
  Nat.ltb i k = true -> nth_error q i = Some qi ->
  subst_env env k q i = eval env 0 qi.
Proof. unfold subst_env. intros -> ->. reflexivity. Qed.

Lemma subst_env_ge (env : nat -> Z) (k : nat) (q : list Poly) (i : nat) :
  Nat.ltb i k = false -> subst_env env k q i = 0.
Proof. unfold subst_env. intros ->. reflexivity. Qed.

Section ComposeSemantics.

Variables (E D : Z) (k : nat) (q : list Poly) (env : nat -> Z).
Hypothesis HE : 0 <= E.
Hypothesis HD : 0 <= D.
Hypothesis Hq : forall i, (i < k)%nat ->
                          exists qi, nth_error q i = Some qi /\ wfB D qi = true.

Lemma MonoComposeHelper_sem (m : Mono) (var_id : nat) (r : Poly) :
  wfB_mono E m ->
  Z.of_nat (S (PolyDepth (m_p m))) * (E * D) <= exp_max ->
  (forall c, PolyComposeHelper (m_p m) k (var_id + 1) q = Some c ->
             eqm64 (eval env 0 c)
                   (eval (subst_env env k q) (S var_id) (m_p m))) ->
  MonoComposeHelper PolyComposeHelper m k var_id q = Some r ->
  eqm64 (eval env 0 r) (evalMono (subst_env env k q) var_id m).
Proof.
  intros [Hwm Hem] Hle IH H.
  assert (HED : 0 <= E * D) by nia.
  rewrite Nat2Z.inj_succ in Hle.
  unfold MonoComposeHelper in H.
  apply bind_Some in H. destruct H as [coeff [Hco H]].
  destruct (PolyComposeHelper_wfB E D k q HE HD Hq (m_p m) (var_id + 1)%nat Hwm)
    as [coeff' [Hco' Hwco]]; [nia |].
  rewrite Hco in Hco'. inversion Hco'. subst coeff'. clear Hco'.
  specialize (IH coeff Hco). unfold evalMono.
  destruct (m_exp m =? 0) eqn:E0.
  - apply Z.eqb_eq in E0. inversion H. subst r.
    rewrite IH, E0. change (subst_env env k q var_id ^ 0) with 1. eqm_ring.
  - apply Z.eqb_neq in E0.
    destruct (Nat.ltb var_id k) eqn:Elt.
    + apply bind_Some in H. destruct H as [qi [Hqi H]].
      apply bind_Some in H. destruct H as [ae [Hae H]].
      assert (Hlt : (var_id < k)%nat) by (apply Nat.ltb_lt; exact Elt).
      destruct (Hq var_id Hlt) as [qi' [Hqi' Hwqi]].
      rewrite Hqi in Hqi'. inversion Hqi'. subst qi'. clear Hqi'.
      destruct (PolyPower_wfB qi D (m_exp m)) as [ae' [Hae' Hwae]];
        auto; [lia | nia |].
      rewrite Hae in Hae'. inversion Hae'. subst ae'. clear Hae'.
      rewrite (PolyMul_sem (Z.of_nat (PolyDepth (m_p m)) * (E * D))
                           (m_exp m * D) coeff ae r env 0); auto; [| nia].
      rewrite IH.
      rewrite (PolyPower_sem qi ae D (m_exp m)); auto; [| lia | nia].
      rewrite (subst_env_lt env k q var_id qi Elt Hqi). reflexivity.
    + inversion H. subst r.
      rewrite (subst_env_ge env k q var_id Elt).
      rewrite Z.pow_0_l by lia. cbn [eval PolyZero PolyFromCoeff]. eqm_ring.
Qed.

Lemma PolyComposeHelper_sem (p : Poly) :
  forall var_id r,
    wfB E p = true ->
    Z.of_nat (PolyDepth p) * (E * D) <= exp_max ->
    PolyComposeHelper p k var_id q = Some r ->
    eqm64 (eval env 0 r) (eval (subst_env env k q) var_id p).
Proof.
  assert (HED : 0 <= E * D) by nia.
  induction p as [c | arr IH] using Poly_nested_ind; intros var_id r Hwf Hle H.
  - inversion H. reflexivity.
  - cbn [PolyComposeHelper] in H.
    apply wfB_Terms in Hwf. destruct Hwf as [_ [_ [_ Hall]]].
    assert (Hdepth : forall m, In m arr ->
                               Z.of_nat (S (PolyDepth (m_p m))) * (E * D) <= exp_max).
    { intros m Hm. pose proof (PolyDepth_In m arr Hm) as Hd.
      cbn [PolyDepth] in Hle. rewrite !Nat2Z.inj_succ in *. nia. }
    clear Hle. rewrite eval_Terms.
    assert (Hgen : forall a,
               foldM (fun result m =>
                        result_of_mono_compose <-
                          MonoComposeHelper PolyComposeHelper m k var_id q ;;
                        PolyAdd result result_of_mono_compose) arr a = Some r ->
               eqm64 (eval env 0 r)
                     (eval env 0 a + evalMonos (subst_env env k q) var_id arr)).
    { clear H. revert r.
      induction arr as [| m arr IHarr]; intros r a H.
      - inversion H. eqm_ring.
      - inversion IH as [| ? ? IHm IH']. subst.
        inversion Hall as [| ? ? Hm Hall']. subst.
        cbn [foldM] in H. apply bind_Some in H. destruct H as [a' [Ha' H]].
        apply bind_Some in Ha'. destruct Ha' as [rc [Hrc Ha']].
        rewrite (IHarr IH' Hall' (fun m' Hm' => Hdepth m' (or_intror Hm')) r a' H).
        rewrite (PolyAdd_sem _ _ _ env 0%nat Ha').
        rewrite (MonoComposeHelper_sem m var_id rc Hm
                   (Hdepth m (or_introl eq_refl))); [| | exact Hrc].
        + rewrite evalMonos_cons. eqm_ring.
        + intros c Hc. apply (IHm (var_id + 1)%nat c (proj1 Hm)) in Hc.
          * rewrite Nat.add_1_r in Hc. exact Hc.
          * specialize (Hdepth m (or_introl eq_refl)).
            rewrite Nat2Z.inj_succ in Hdepth. nia. }
    rewrite (Hgen PolyZero H). cbn [eval PolyZero PolyFromCoeff]. eqm_ring.
Qed.

End ComposeSemantics.

Lemma eval_ext (env1 env2 : nat -> Z) (p : Poly) :
  (forall i, env1 i = env2 i) ->
  forall d, eval env1 d p = eval env2 d p.
Proof.
  intros Hext.
  induction p as [c | arr IH] using Poly_nested_ind; intros d.
  - reflexivity.
  - cbn [eval]. induction arr as [| m arr IHarr]; [reflexivity |].
    inversion IH as [| ? ? Hm IH']. subst.
    cbn [fold_right]. rewrite (IHarr IH'), (Hm (S d)), (Hext d). reflexivity.
Qed.

Lemma pow2_high (N : Z) : 64 <= N -> eqm64 (2 ^ N) 0.
Proof.
  intros HN. replace N with ((N - 64) + 64) by lia.
  rewrite Z.pow_add_r by lia.
  unfold eqm64. rewrite Z_mod_mult. reflexivity.
Qed.

Lemma cube_of_high_power (N : Z) :
  64 <= N ->
  ~ eqm64 (eval (fun _ => 2) 0 (Terms [MkMono (Coeff 1) 2]))
          (eval (subst_env (fun _ => 2) 1 [Terms [MkMono (Coeff 1) N]]) 0
                (Terms [MkMono (Coeff 1) 3])).
Proof.
  intros HN Hc.
  cbn [eval fold_right subst_env Nat.ltb Nat.leb nth_error m_p m_exp] in Hc.
  rewrite (pow2_high N HN) in Hc.
  vm_compute in Hc. discriminate.
Qed.

(** ** The binary recursions satisfy the equations of the C source *)

Lemma PowerOf_unfold (x n : Z) :
  2 <= n ->
  PowerOf x n =
  if Z.odd n then
    r <- PowerOf (wrap64 (x * x)) (Z.quot (n - 1) 2) ;; Some (wrap64 (x * r))
  else PowerOf (wrap64 (x * x)) (Z.quot n 2).
Proof.
  intros Hn. destruct n as [| [k | k |] | k]; try lia.
  - replace (Z.quot (Zpos k~1 - 1) 2) with (Zpos k).
    + reflexivity.
    + rewrite Pos2Z.inj_xI. replace (2 * Zpos k + 1 - 1) with (Zpos k * 2) by ring.
      rewrite Z.quot_mul by lia. reflexivity.
  - replace (Z.quot (Zpos k~0) 2) with (Zpos k).
    + reflexivity.
    + rewrite Pos2Z.inj_xO. replace (2 * Zpos k) with (Zpos k * 2) by ring.
      rewrite Z.quot_mul by lia. reflexivity.
Qed.

Lemma PolyPower_unfold (p : Poly) (exp : Z) :
  2 <= exp ->
  PolyPower p exp =
  if Z.odd exp then
    foo1 <- PolyMul p p ;;
    foo2 <- PolyPower foo1 (Z.quot (exp - 1) 2) ;;
    PolyMul p foo2
  else
    foo1 <- PolyMul p p ;;
    PolyPower foo1 (Z.quot exp 2).
Proof.
  intros Hn. destruct exp as [| [k | k |] | k]; try lia.
  - replace (Z.quot (Zpos k~1 - 1) 2) with (Zpos k).
    + reflexivity.
    + rewrite Pos2Z.inj_xI. replace (2 * Zpos k + 1 - 1) with (Zpos k * 2) by ring.
      rewrite Z.quot_mul by lia. reflexivity.
  - replace (Z.quot (Zpos k~0) 2) with (Zpos k).
    + reflexivity.
    + rewrite Pos2Z.inj_xO. replace (2 * Zpos k) with (Zpos k * 2) by ring.
      rewrite Z.quot_mul by lia. reflexivity.
Qed.

(** ** The array of products [PolyMul] builds *)

Lemma MonoMul_row (a : Mono) (lq : list Mono) :
  forallb (fun ab => match PolyMul (m_p (fst ab)) (m_p (snd ab)) with
                     | Some _ => true
                     | None => false
                     end) (map (fun b => (a, b)) lq) = true ->
  exists row, mapM (fun mj => MonoMul PolyMul a mj) lq = Some row
              /\ Forall2 product_of row (map (fun b => (a, b)) lq).
Proof.
  induction lq as [| b lq IH]; intros H.
  - exists []. split; [reflexivity | constructor].
  - cbn [map forallb fst snd] in H. apply andb_true_iff in H.
    destruct H as [Hb Hrest].
    destruct (PolyMul (m_p a) (m_p b)) as [c |] eqn:Ec; [| discriminate].
    destruct (IH Hrest) as [row [Hrow Hall]].
    exists (MkMono c (wrap32 (m_exp a + m_exp b)) :: row).
    cbn [mapM]. unfold MonoMul at 1. rewrite Ec. cbn [bind]. rewrite Hrow.
    cbn [bind]. split; [reflexivity |].
    cbn [map]. constructor; [| exact Hall].
    split; [exact Ec | reflexivity].
Qed.

Lemma PolyMulCross_products (lp lq : list Mono) :
  coefficient_products_returned lp lq = true ->
  exists new_array, PolyMulCross PolyMul lp lq = Some new_array
                    /\ Forall2 product_of new_array (list_prod lp lq).
Proof.
  unfold coefficient_products_returned, PolyMulCross.
  induction lp as [| a lp IH]; intros H.
  - exists []. split; [reflexivity | constructor].
  - cbn [list_prod] in H. rewrite forallb_app in H. apply andb_true_iff in H.
    destruct H as [Hrow Hrest].
    destruct (MonoMul_row a lq Hrow) as [row [Hr Hall]].
    destruct (IH Hrest) as [rest [Hrows Hallr]].
    apply bind_Some in Hrows. destruct Hrows as [rows [Hrows Hc]].
    inversion Hc. subst rest. clear Hc.
    exists (row ++ concat rows). cbn [mapM]. rewrite Hr. cbn [bind].
    rewrite Hrows. cbn [bind concat]. split; [reflexivity |].
    cbn [list_prod]. apply Forall2_app; assumption.
Qed.

Lemma PolyAddMonos_single (m : Mono) : PolyAddMonos 1 [m] = Some (Interpret [m]).
Proof.
  unfold PolyAddMonos, PolyAddMonosScan.
  cbn [Nat.eqb length Nat.leb firstn MonoSort fold_right MonoInsert
       PolyAddMonosLoop app bind].
  apply Trim_Interpret.
Qed.

(** * The claims *)

(** C7: ingesting [(3, 2); (0, 5); (-3, 2)] through [PolyAddMonos] with
    count 3 returns exactly [Coeff 0]: the two exponent-2 terms cancel and
    the zero-coefficient exponent-5 term is dropped.  The scan gives the
    same from either order in which a sort may leave the two exponent-2
    terms. *)
Theorem PolyAddMonos_cancel_scenario :
  PolyAddMonos 3 [MkMono (Coeff 3) 2; MkMono (Coeff 0) 5; MkMono (Coeff (-3)) 2]
  = Some (Coeff 0)
  /\ PolyAddMonosScan [MkMono (Coeff 3) 2; MkMono (Coeff (-3)) 2; MkMono (Coeff 0) 5]
     = Some (Coeff 0)
  /\ PolyAddMonosScan [MkMono (Coeff (-3)) 2; MkMono (Coeff 3) 2; MkMono (Coeff 0) 5]
     = Some (Coeff 0).
Proof. repeat split; vm_compute; reflexivity. Qed.

(** C8: [PolyOwnMonos] and [PolyCloneMonos] return the zero polynomial
    whenever the count is 0 or the array is [NULL]. *)
Theorem PolyOwnMonos_PolyCloneMonos_empty (count : nat) (monos : option (list Mono)) :
  count = 0%nat \/ monos = None ->
  PolyOwnMonos count monos = Some (Coeff 0)
  /\ PolyCloneMonos count monos = Some (Coeff 0).
Proof.
  intros [H | H]; subst.
  - destruct monos as [arr |]; split; reflexivity.
  - split; reflexivity.
Qed.

Lemma PolyOwnMonos_PolyCloneMonos_empty_witness :
  PolyOwnMonos 0 (Some [MkMono (Coeff 7) 3]) = Some (Coeff 0)
  /\ PolyCloneMonos 0 (Some [MkMono (Coeff 7) 3]) = Some (Coeff 0).
Proof.
  apply (PolyOwnMonos_PolyCloneMonos_empty 0 (Some [MkMono (Coeff 7) 3])).
  left. reflexivity.
Defined.

(** C9: for a canonical [p], [PolyClone p] succeeds, its result is
    structurally [p] (the argument is only read) and [PolyIsEq] of the clone
    and [p] is true. *)
Theorem PolyClone_PolyIsEq (p : Poly) :
  canonical p = true ->
  exists c, PolyClone p = Some c /\ c = p /\ PolyIsEq c p = true.
Proof.
  intros H. exists p. split; [| split].
  - apply (PolyClone_wfB exp_max). apply canonical_wfB. exact H.
  - reflexivity.
  - apply PolyIsEq_refl.
Qed.

Lemma PolyClone_PolyIsEq_witness :
  exists c,
    PolyClone (Terms [MkMono (Coeff 1) 0; MkMono (Terms [MkMono (Coeff 2) 1]) 3])
    = Some c
    /\ c = Terms [MkMono (Coeff 1) 0; MkMono (Terms [MkMono (Coeff 2) 1]) 3]
    /\ PolyIsEq c (Terms [MkMono (Coeff 1) 0; MkMono (Terms [MkMono (Coeff 2) 1]) 3])
       = true.
Proof.
  apply (PolyClone_PolyIsEq
           (Terms [MkMono (Coeff 1) 0; MkMono (Terms [MkMono (Coeff 2) 1]) 3])).
  reflexivity.
Defined.

(** C1 (the code departs from it): on the well-formed array
    [(1, 1); (3, 2); (-3, 2)] the scan of [PolyAddMonos] merges the two
    exponent-2 terms into a zero coefficient and, that being the last slot,
    never tests it: the result keeps a monomial whose coefficient is the
    zero constant, and is not canonical; the other order of the two
    exponent-2 terms after the sort gives the same. *)
Theorem PolyAddMonos_keeps_trailing_zero :
  Forall (fun m => canonical_mono m = true)
         [MkMono (Coeff 1) 1; MkMono (Coeff 3) 2; MkMono (Coeff (-3)) 2]
  /\ PolyAddMonos 3 [MkMono (Coeff 1) 1; MkMono (Coeff 3) 2; MkMono (Coeff (-3)) 2]
     = Some (Terms [MkMono (Coeff 1) 1; MkMono (Coeff 0) 2])
  /\ PolyAddMonosScan [MkMono (Coeff 1) 1; MkMono (Coeff (-3)) 2; MkMono (Coeff 3) 2]
     = Some (Terms [MkMono (Coeff 1) 1; MkMono (Coeff 0) 2])
  /\ has_zero_term (Terms [MkMono (Coeff 1) 1; MkMono (Coeff 0) 2]) = true
  /\ canonical (Terms [MkMono (Coeff 1) 1; MkMono (Coeff 0) 2]) = false.
Proof.
  split; [| split; [| split; [| split]]].
  - repeat constructor.
  - vm_compute. reflexivity.
  - vm_compute. reflexivity.
  - reflexivity.
  - reflexivity.
Qed.

(** C5, as stated, fails: multiplying the canonical [x^(2^31-1)] by the
    canonical [x] is no error although the exponent sum is [2^31]; the
    product carries the wrapped exponent [-2^31]. *)
Lemma PolyMul_exponent_sum_not_checked :
  canonical (Terms [MkMono (Coeff 1) exp_max]) = true
  /\ canonical (Terms [MkMono (Coeff 1) 1]) = true
  /\ exp_max < exp_max + 1
  /\ PolyMul (Terms [MkMono (Coeff 1) exp_max]) (Terms [MkMono (Coeff 1) 1])
     = Some (Terms [MkMono (Coeff 1) (- 2 ^ 31)]).
Proof.
  split; [| split; [| split]].
  - reflexivity.
  - reflexivity.
  - lia.
  - vm_compute. reflexivity.
Qed.

(** C5 amended: in the non-constant by non-constant case [PolyMul] forms,
    for every pair of a monomial of [p] and a monomial of [q], in the order
    of its two loops, the monomial whose coefficient is the product of the
    two coefficients and whose exponent is the 32-bit sum of the two
    exponents.  No exponent is tested: once the products of the
    coefficients are returned the whole array is, whatever the exponents,
    and [PolyMul] returns what [PolyAddMonos] makes of it, so the value of
    the result is the sum of these monomials with their wrapped exponents.
    For two single monomials with constant coefficients the product is
    returned for all exponents, the wrapped sum as its exponent. *)
Theorem PolyMul_carries_exponent_sums (lp lq : list Mono) :
  coefficient_products_returned lp lq = true ->
  exists new_array,
    PolyMulCross PolyMul lp lq = Some new_array
    /\ Forall2 product_of new_array (list_prod lp lq)
    /\ PolyMul (Terms lp) (Terms lq) = PolyAddMonos (length new_array) new_array
    /\ (forall r, PolyMul (Terms lp) (Terms lq) = Some r ->
                  forall env d, eqm64 (eval env d r) (evalMonos env d new_array))
    /\ (forall a b ea eb,
           lp = [MkMono (Coeff a) ea] -> lq = [MkMono (Coeff b) eb] ->
           PolyMul (Terms lp) (Terms lq)
           = Some (Interpret [MkMono (Coeff (wrap64 (b * a))) (wrap32 (ea + eb))])).
Proof.
  intros H. destruct (PolyMulCross_products lp lq H) as [new_array [Hcross Hall]].
  assert (Hmul : PolyMul (Terms lp) (Terms lq)
                 = PolyAddMonos (length new_array) new_array).
  { cbn [PolyMul]. unfold PolyMulTwoNonCoeffs. rewrite Hcross. reflexivity. }
  exists new_array. split; [exact Hcross |]. split; [exact Hall |].
  split; [exact Hmul |]. split.
  - intros r Hr env d. rewrite Hmul in Hr.
    pose proof (PolyAddMonos_sem _ _ _ Hr env d) as Hsem.
    rewrite firstn_all in Hsem. exact Hsem.
  - intros a b ea eb -> ->. cbn [PolyMul]. unfold PolyMulTwoNonCoeffs, PolyMulCross.
    cbn [mapM]. unfold MonoMul. rewrite !m_p_Mk, !m_exp_Mk.
    cbn [PolyMul PolyMulTwoCoeffs bind concat app length]. unfold PolyFromCoeff.
    apply PolyAddMonos_single.
Qed.

Lemma PolyMul_carries_exponent_sums_witness :
  exists new_array,
    PolyMulCross PolyMul [MkMono (Coeff 1) exp_max] [MkMono (Coeff 1) 1]
    = Some new_array
    /\ Forall2 product_of new_array
         (list_prod [MkMono (Coeff 1) exp_max] [MkMono (Coeff 1) 1])
    /\ PolyMul (Terms [MkMono (Coeff 1) exp_max]) (Terms [MkMono (Coeff 1) 1])
       = PolyAddMonos (length new_array) new_array
    /\ (forall r,
           PolyMul (Terms [MkMono (Coeff 1) exp_max]) (Terms [MkMono (Coeff 1) 1])
           = Some r ->
           forall env d, eqm64 (eval env d r) (evalMonos env d new_array))
    /\ (forall a b ea eb,
           [MkMono (Coeff 1) exp_max] = [MkMono (Coeff a) ea] ->
           [MkMono (Coeff 1) 1] = [MkMono (Coeff b) eb] ->
           PolyMul (Terms [MkMono (Coeff 1) exp_max]) (Terms [MkMono (Coeff 1) 1])
           = Some (Interpret [MkMono (Coeff (wrap64 (b * a))) (wrap32 (ea + eb))])).
Proof.
  apply (PolyMul_carries_exponent_sums [MkMono (Coeff 1) exp_max]
           [MkMono (Coeff 1) 1]).
  reflexivity.
Defined.

(** C4, as stated, fails: for the canonical [x_0] and the absent variable
    [x_5] the degree returned is 0, not -1. *)
Lemma PolyDegBy_of_absent_is_zero :
  canonical (Terms [MkMono (Coeff 1) 1]) = true
  /\ (PolyDepth (Terms [MkMono (Coeff 1) 1]) < 5)%nat
  /\ PolyDegBy (Terms [MkMono (Coeff 1) 1]) 5 = Some 0
  /\ PolyDegBy (Terms [MkMono (Coeff 1) 1]) 5 <> Some (-1).
Proof.
  split; [| split; [| split]].
  - reflexivity.
  - simpl. lia.
  - reflexivity.
  - discriminate.
Qed.

(** C4 amended: for a canonical non-constant [p] and a variable index at or
    beyond the nesting depth of [p] (so beyond every variable of [p]),
    [PolyDegBy] returns 0, the degree of the nonzero constants met at the
    leaves, and never an error. *)
Theorem PolyDegBy_absent_variable (p : Poly) (var_idx : nat) :
  canonical p = true -> PolyIsCoeff p = false ->
  (PolyDepth p <= var_idx)%nat ->
  PolyDegBy p var_idx = Some 0.
Proof.
  intros Hc Hn Hd. apply PolyDegBy_below_nesting; auto.
  destruct p; [discriminate | reflexivity].
Qed.

Lemma PolyDegBy_absent_variable_witness :
  PolyDegBy (Terms [MkMono (Coeff 1) 0; MkMono (Terms [MkMono (Coeff 2) 1]) 3]) 4
  = Some 0.
Proof.
  apply (PolyDegBy_absent_variable
           (Terms [MkMono (Coeff 1) 0; MkMono (Terms [MkMono (Coeff 2) 1]) 3]) 4).
  - reflexivity.
  - reflexivity.
  - simpl. lia.
Defined.

(** C3: for every canonical [p], [PolyNeg p] is defined and adding it to
    [p] returns the zero polynomial [Coeff 0]. *)
Theorem PolyAdd_PolyNeg_zero (p : Poly) :
  canonical p = true ->
  exists n, PolyNeg p = Some n /\ PolyAdd p n = Some (Coeff 0).
Proof.
  intros Hc. exists (Negate p). split.
  - apply PolyNeg_Negate. exact Hc.
  - apply PolyAdd_Negate.
Qed.

Lemma PolyAdd_PolyNeg_zero_witness :
  exists n,
    PolyNeg (Terms [MkMono (Coeff 1) 0; MkMono (Terms [MkMono (Coeff 2) 1]) 3])
    = Some n
    /\ PolyAdd (Terms [MkMono (Coeff 1) 0; MkMono (Terms [MkMono (Coeff 2) 1]) 3]) n
       = Some (Coeff 0).
Proof.
  apply (PolyAdd_PolyNeg_zero
           (Terms [MkMono (Coeff 1) 0; MkMono (Terms [MkMono (Coeff 2) 1]) 3])).
  reflexivity.
Defined.

(** C6, as stated, fails: [wrap_p] and [wrap_q] are canonical, yet in their
    product the unchecked exponent sums wrap, an intermediate sum becomes
    the one-term list holding a constant at exponent 0, and adding the
    opposite constant to it reaches [PolyFromSizeAndArray] with size 0, whose
    assertion fires. *)
Lemma PolyMul_assertion_fires :
  canonical wrap_p = true /\ canonical wrap_q = true
  /\ PolyMul wrap_p wrap_q = None.
Proof.
  split; [| split].
  - vm_compute. reflexivity.
  - vm_compute. reflexivity.
  - vm_compute. reflexivity.
Qed.

(** C6 amended: on canonical inputs [PolyAdd], [PolyNeg], [PolySub],
    [PolyDegBy] and [PolyAt] return a value, no assertion firing ([PolyDeg]
    and [PolyIsEq] have no failure path at all); [PolyMul] does when the
    exponents of [p] are at most [B1], those of [q] at most [B2] and
    [B1 + B2 <= 2^31 - 1]; [PolyCompose] does when the exponents of [p] are
    at most [E], those of the substituted polynomials at most [D] and
    [PolyDepth p * E * D <= 2^31 - 1].  Every result satisfies the
    invariant [wfB].  All functions are structural recursions, hence
    terminate. *)
Theorem operators_total (p q : Poly) (x : Z) (var_idx : nat) :
  canonical p = true -> canonical q = true ->
  (exists r, PolyAdd p q = Some r /\ wfB exp_max r = true)
  /\ (exists r, PolyNeg p = Some r /\ wfB exp_max r = true)
  /\ (exists r, PolySub p q = Some r /\ wfB exp_max r = true)
  /\ (exists d, PolyDegBy p var_idx = Some d)
  /\ (exists r, PolyAt p x = Some r /\ wfB exp_max r = true)
  /\ (exists d, PolyDeg p = d)
  /\ (exists b, PolyIsEq p q = b)
  /\ (forall B1 B2,
         0 <= B1 -> 0 <= B2 -> wfB B1 p = true -> wfB B2 q = true ->
         B1 + B2 <= exp_max ->
         exists r, PolyMul p q = Some r /\ wfB (B1 + B2) r = true)
  /\ (forall E D k qs,
         0 <= E -> 0 <= D -> wfB E p = true ->
         (k <= length qs)%nat ->
         Forall (fun qi => canonical qi = true /\ wfB D qi = true) qs ->
         Z.of_nat (PolyDepth p) * (E * D) <= exp_max ->
         exists r, PolyCompose p k qs = Some r
                   /\ wfB (Z.of_nat (PolyDepth p) * (E * D)) r = true).
Proof.
  intros Hp Hq.
  pose proof (canonical_wfB p Hp) as Hwp.
  pose proof (canonical_wfB q Hq) as Hwq.
  repeat split.
  - apply PolyAdd_wfB; assumption.
  - exists (Negate p). split; [apply PolyNeg_Negate; exact Hp |].
    apply Negate_wfB. exact Hwp.
  - apply PolySub_wfB; assumption.
  - apply (PolyDegBy_defined exp_max); exact Hwp.
  - apply PolyAt_wfB. exact Hwp.
  - exists (PolyDeg p). reflexivity.
  - exists (PolyIsEq p q). reflexivity.
  - intros B1 B2 H1 H2 Hw1 Hw2 HB. apply PolyMul_wfB; assumption.
  - intros E D k qs HE HD HwE Hk Hqs Hle. unfold PolyCompose.
    apply PolyComposeHelper_wfB; auto.
    intros i Hi.
    destruct (nth_error qs i) as [qi |] eqn:Eq.
    + exists qi. split; [reflexivity |].
      rewrite Forall_forall in Hqs.
      apply (Hqs qi). eapply nth_error_In. exact Eq.
    + apply nth_error_None in Eq. lia.
Qed.

Lemma operators_total_witness :
  (exists r, PolyAdd (Terms [MkMono (Coeff 1) 0; MkMono (Coeff 1) 1])
                     (Terms [MkMono (Coeff (-1)) 1]) = Some r
             /\ wfB exp_max r = true)
  /\ (exists r, PolyMul (Terms [MkMono (Coeff 1) 0; MkMono (Coeff 1) 1])
                        (Terms [MkMono (Coeff (-1)) 1]) = Some r
                /\ wfB (1 + 1) r = true).
Proof.
  pose proof (operators_total (Terms [MkMono (Coeff 1) 0; MkMono (Coeff 1) 1])
                              (Terms [MkMono (Coeff (-1)) 1]) 2 0
                              eq_refl eq_refl) as H.
  destruct H as [Hadd [_ [_ [_ [_ [_ [_ [Hmul _]]]]]]]].
  split; [exact Hadd |].
  apply (Hmul 1 1); [lia | lia | reflexivity | reflexivity |].
  unfold exp_max. lia.
Defined.

(** C10: [PowerOf x 0] is 1 for every base [x], zero included; and for a
    canonical non-constant [p], [PolyAt p 0] returns exactly the sum of the
    coefficients of the exponent-0 monomials of [p], every monomial of a
    higher exponent contributing the zero polynomial. *)
Theorem PolyAt_zero (x : Z) (p : Poly) :
  canonical p = true -> PolyIsCoeff p = false ->
  PowerOf x 0 = Some 1
  /\ (exists r, PolyAt p 0 = Some r /\ SumPolys (exp0_coeffs p) = Some r)
  /\ (forall arr m, p = Terms arr -> In m arr -> m_exp m <> 0 ->
                    MonoAt m 0 = Some (Coeff 0)).
Proof.
  intros Hc Hn. split; [reflexivity |]. split.
  - destruct p as [c | arr]; [discriminate |].
    apply PolyAt_origin_canonical. exact Hc.
  - intros arr m -> Hm He.
    apply canonical_Terms in Hc. destruct Hc as [_ [_ [_ Hall]]].
    rewrite Forall_forall in Hall.
    destruct (canonical_mono_inv m (Hall m Hm)) as [_ [_ Hr]].
    apply MonoAt_zero_high. lia.
Qed.

Lemma PolyAt_zero_witness :
  PowerOf 0 0 = Some 1
  /\ PolyAt (Terms [MkMono (Terms [MkMono (Coeff 2) 1]) 0; MkMono (Coeff 5) 3]) 0
     = Some (Terms [MkMono (Coeff 2) 1]).
Proof.
  destruct (PolyAt_zero 0 (Terms [MkMono (Terms [MkMono (Coeff 2) 1]) 0;
                                  MkMono (Coeff 5) 3]) eq_refl eq_refl)
    as [H0 [[r [Hr Hs]] _]].
  split; [exact H0 |].
  rewrite Hr. rewrite <- Hs. reflexivity.
Defined.

(** C2, as stated, fails: composing the canonical [x_0^3] with the canonical
    [x_0^1431655766] returns [x_0^2], the exponent [3 * 1431655766 = 2^32 + 2]
    having wrapped; at [x_0 = 2] the result is worth 4 while the
    substituted polynomial is worth [2^(2^32 + 6)], which is 0 in 64-bit
    arithmetic. *)
Lemma PolyCompose_exponent_wraps :
  canonical (Terms [MkMono (Coeff 1) 3]) = true
  /\ canonical (Terms [MkMono (Coeff 1) 1431655766]) = true
  /\ PolyCompose (Terms [MkMono (Coeff 1) 3]) 1 [Terms [MkMono (Coeff 1) 1431655766]]
     = Some (Terms [MkMono (Coeff 1) 2])
  /\ ~ eqm64 (eval (fun _ => 2) 0 (Terms [MkMono (Coeff 1) 2]))
             (eval (subst_env (fun _ => 2) 1 [Terms [MkMono (Coeff 1) 1431655766]]) 0
                   (Terms [MkMono (Coeff 1) 3])).
Proof.
  split; [| split; [| split]].
  - reflexivity.
  - reflexivity.
  - vm_compute. reflexivity.
  - apply (cube_of_high_power 1431655766). lia.
Qed.

(** C2 amended: for a canonical [p] with exponents at most [E] and an array
    [q] of [k] canonical polynomials with exponents at most [D], such that
    [PolyDepth p * E * D <= 2^31 - 1], [PolyCompose p k q] returns a
    polynomial whose value, in 64-bit arithmetic and under every valuation
    of the variables, is that of [p] with [q[i]] substituted for [x_i] when
    [i < k] and zero for every [x_i] with [i >= k]; when [k = 0] it is the
    value of [p] with every variable replaced by zero. *)
Theorem PolyCompose_substitutes (p : Poly) (k : nat) (q : list Poly) (E D : Z) :
  canonical p = true ->
  Forall (fun qi => canonical qi = true) q ->
  k = length q ->
  0 <= E -> 0 <= D ->
  wfB E p = true ->
  Forall (fun qi => wfB D qi = true) q ->
  Z.of_nat (PolyDepth p) * (E * D) <= exp_max ->
  exists r,
    PolyCompose p k q = Some r
    /\ (forall env, eqm64 (eval env 0 r) (eval (subst_env env k q) 0 p))
    /\ (k = 0%nat -> forall env, eqm64 (eval env 0 r) (eval (fun _ => 0) 0 p)).
Proof.
  intros Hcp Hcq Hk HE HD Hwp Hwq Hle.
  assert (Hq : forall i, (i < k)%nat ->
                         exists qi, nth_error q i = Some qi /\ wfB D qi = true).
  { intros i Hi. destruct (nth_error q i) as [qi |] eqn:Eq.
    - exists qi. split; [reflexivity |].
      rewrite Forall_forall in Hwq. apply (Hwq qi).
      eapply nth_error_In. exact Eq.
    - apply nth_error_None in Eq. lia. }
  destruct (PolyComposeHelper_wfB E D k q HE HD Hq p 0%nat Hwp Hle) as [r [Hr _]].
  exists r. unfold PolyCompose.
  assert (Hsem : forall env, eqm64 (eval env 0 r) (eval (subst_env env k q) 0 p)).
  { intros env.
    apply (PolyComposeHelper_sem E D k q env HE HD Hq p 0%nat r Hwp Hle Hr). }
  split; [exact Hr |]. split; [exact Hsem |].
  intros H0 env. rewrite (Hsem env).
  apply eqm64_of_eq. apply eval_ext.
  intros i. unfold subst_env. rewrite H0. reflexivity.
Qed.

Lemma PolyCompose_substitutes_witness :
  exists r,
    PolyCompose (Terms [MkMono (Coeff 1) 0;
                        MkMono (Terms [MkMono (Coeff 2) 1]) 2])
                1 [Terms [MkMono (Coeff 1) 0; MkMono (Coeff 1) 1]] = Some r
    /\ (forall env,
           eqm64 (eval env 0 r)
                 (eval (subst_env env 1
                                  [Terms [MkMono (Coeff 1) 0; MkMono (Coeff 1) 1]])
                       0 (Terms [MkMono (Coeff 1) 0;
                                 MkMono (Terms [MkMono (Coeff 2) 1]) 2])))
    /\ (1%nat = 0%nat ->
        forall env,
          eqm64 (eval env 0 r)
                (eval (fun _ => 0) 0
                      (Terms [MkMono (Coeff 1) 0;
                              MkMono (Terms [MkMono (Coeff 2) 1]) 2]))).
Proof.
  apply (PolyCompose_substitutes
           (Terms [MkMono (Coeff 1) 0; MkMono (Terms [MkMono (Coeff 2) 1]) 2])
           1 [Terms [MkMono (Coeff 1) 0; MkMono (Coeff 1) 1]] 2 1).
  - reflexivity.
  - repeat constructor.
  - reflexivity.
  - lia.
  - lia.
  - reflexivity.
  - repeat constructor.
  - vm_compute. discriminate.
Defined.

(** * Further properties of the operators *)

(** ** Canonical form is the invariant plus zero-freeness *)

Lemma zero_free_Terms (arr : list Mono) :
  zero_free (Terms arr) = true <-> Forall zero_free_mono arr.
Proof.
  cbn [zero_free]. rewrite forallb_forall, Forall_forall.
  unfold zero_free_mono. split; intros H m Hm; specialize (H m Hm).
  - apply andb_true_iff in H. destruct H as [H1 H2].
    apply negb_true_iff in H2. auto.
  - destruct H as [H1 H2]. rewrite H1, H2. reflexivity.
Qed.

Lemma canonical_split (p : Poly) :
  canonical p = true <-> wfB exp_max p = true /\ zero_free p = true.
Proof.
  induction p as [c | arr IH] using Poly_nested_ind.
  - cbn [canonical wfB zero_free]. tauto.
  - rewrite canonical_Terms, wfB_Terms, zero_free_Terms.
    rewrite Forall_forall in IH. rewrite !Forall_forall.
    split.
    + intros [Hn [Hf [Ha Hall]]]. repeat split; auto.
      * destruct (canonical_mono_inv x (Hall x H)) as [H1 _].
        apply (IH x H). exact H1.
      * destruct (canonical_mono_inv x (Hall x H)) as [_ [_ H3]]. lia.
      * destruct (canonical_mono_inv x (Hall x H)) as [_ [_ H3]]. lia.
      * destruct (canonical_mono_inv x (Hall x H)) as [H1 _].
        apply (IH x H). exact H1.
      * destruct (canonical_mono_inv x (Hall x H)) as [_ [H2 _]]. exact H2.
    + intros [[Hn [Hf [Ha Hw]]] Hz]. repeat split; auto.
      intros m Hm. destruct (Hw m Hm) as [H1 H2]. destruct (Hz m Hm) as [H3 H4].
      unfold canonical_mono.
      rewrite (proj2 (IH m Hm) (conj H1 H3)), H4.
      cbn [negb andb].
      apply andb_true_iff. split; apply Z.leb_le; lia.
Qed.

Lemma zero_free_Coeff_wrap (z : Z) : zero_free (Coeff (wrap64 z)) = true.
Proof.
  cbn [zero_free]. pose proof (wrap64_range z) as H.
  apply andb_true_iff. split; apply Z.leb_le; lia.
Qed.

(** ** Addition keeps values zero-free *)

Lemma ordered_zero_free (rec : Poly -> Poly -> option Poly) (p q : Poly) :
  (forall arr m, p = Terms arr -> In m arr -> add_zero_free rec (m_p m)) ->
  forall r, zero_free p = true -> zero_free q = true ->
            PolyAddCoeffToNonCoeff_ordered rec p q = Some r ->
            zero_free r = true.
Proof.
  intros Hrec r Hp Hq H. unfold PolyAddCoeffToNonCoeff_ordered in H.
  destruct (PolyIsCoeff q) eqn:Hcq; [| discriminate].
  destruct (PolyIsZero q) eqn:Hz.
  { rewrite (PolyClone_Some _ _ H). exact Hp. }
  destruct p as [a | [| first rest]]; try discriminate.
  specialize (Hrec (first :: rest) first eq_refl (or_introl eq_refl)).
  pose proof Hp as Hp'. apply zero_free_Terms in Hp'.
  inversion Hp' as [| ? ? [Hf1 Hf2] Hrest]. subst.
  destruct (MonoGetExp first =? 0).
  - unfold PolyAddCoeffIfPhasConst in H.
    apply bind_Some in H. destruct H as [new [Hnew H]].
    apply bind_Some in H. destruct H as [clones [Hcl H]].
    apply mapM_MonoClone_Some in Hcl. subst clones.
    pose proof (Hrec q new Hf1 Hq Hnew) as Hzn.
    destruct (PolyIsZero new) eqn:Ezn.
    + apply PolyFromSizeAndArray_Some in H. subst r.
      apply zero_free_Terms. exact Hrest.
    + unfold MonoFromPoly in H. cbn [Z.eqb orb bind] in H.
      apply (PolyFromSizeAndArray_Some (MkMono new 0 :: rest)) in H. subst r.
      apply zero_free_Terms. constructor; [| exact Hrest].
      split; rewrite m_p_Mk; assumption.
  - unfold PolyAddCoeffIfPDoesntHaveConst in H.
    unfold MonoFromPoly in H. cbn [Z.eqb orb bind] in H.
    apply bind_Some in H. destruct H as [clones [Hcl H]].
    apply mapM_MonoClone_Some in Hcl. subst clones.
    apply (PolyFromSizeAndArray_Some (MkMono q 0 :: first :: rest)) in H. subst r.
    apply zero_free_Terms. constructor; [| exact Hp'].
    split; rewrite m_p_Mk; assumption.
Qed.

Lemma merge_zero_free (rec : Poly -> Poly -> option Poly) (lp : list Mono) :
  (forall m, In m lp -> add_zero_free rec (m_p m)) ->
  forall lq out,
    Forall zero_free_mono lp -> Forall zero_free_mono lq ->
    PolyAddMerge rec lp lq = Some out ->
    Forall zero_free_mono out.
Proof.
  induction lp as [| a lp IHp]; intros Hrec lq out Hp Hq H.
  { rewrite PolyAddMerge_nil_l in H. apply mapM_MonoClone_Some in H. subst.
    exact Hq. }
  revert out H. induction lq as [| b lq IHq]; intros out H.
  { rewrite PolyAddMerge_nil_r in H. apply mapM_MonoClone_Some in H. subst.
    exact Hp. }
  inversion Hp as [| ? ? Ha Hp']. subst.
  inversion Hq as [| ? ? Hb Hq']. subst.
  rewrite PolyAddMerge_cons_cons in H.
  destruct (MonoGetExp a =? MonoGetExp b); [| destruct (MonoGetExp a >? MonoGetExp b)].
  - apply bind_Some in H. destruct H as [nm [Hnm H]].
    apply bind_Some in H. destruct H as [tl [Htl H]].
    unfold MonoAdd in Hnm. apply bind_Some in Hnm. destruct Hnm as [s [Hs Hnm]].
    inversion Hnm. subst nm. clear Hnm. rewrite m_p_Mk in H.
    pose proof (Hrec a (or_introl eq_refl) (m_p b) s (proj1 Ha) (proj1 Hb) Hs) as Hzs.
    pose proof (IHp (fun m Hm => Hrec m (or_intror Hm)) lq tl Hp' Hq' Htl) as Htl'.
    destruct (PolyIsZero s) eqn:Ez; cbn [negb] in H; inversion H; subst out.
    + exact Htl'.
    + constructor; [| exact Htl']. split; rewrite m_p_Mk; assumption.
  - apply bind_Some in H. destruct H as [c [Hc H]].
    apply MonoClone_Some in Hc. subst c.
    apply bind_Some in H. destruct H as [tl [Htl H]].
    inversion H. subst out.
    constructor; [exact Hb | apply (IHq Hq' tl Htl)].
  - apply bind_Some in H. destruct H as [c [Hc H]].
    apply MonoClone_Some in Hc. subst c.
    apply bind_Some in H. destruct H as [tl [Htl H]].
    inversion H. subst out.
    constructor; [exact Ha |].
    apply (IHp (fun m Hm => Hrec m (or_intror Hm)) (b :: lq) tl Hp' Hq Htl).
Qed.

Lemma Interpret_zero_free (out : list Mono) :
  Forall zero_free_mono out -> zero_free (Interpret out) = true.
Proof.
  intros Hall.
  assert (Ht : zero_free (Terms out) = true) by (apply zero_free_Terms; exact Hall).
  destruct out as [| m [| m' out']]; try assumption.
  cbn [Interpret]. inversion Hall as [| ? ? [H1 H2] _]. subst.
  rewrite H2. destruct ((m_exp m =? 0) && PolyIsCoeff (m_p m)); assumption.
Qed.

Lemma PolyAddConst_zero_free (p : Poly) : add_zero_free PolyAddConst p.
Proof.
  induction p as [a | arr IH] using Poly_nested_ind; intros q r Hp Hq H.
  - destruct q as [b | lq]; [| discriminate].
    inversion H. apply zero_free_Coeff_wrap.
  - cbn [PolyAddConst] in H. revert r Hp Hq H. apply ordered_zero_free.
    intros arr' m Harr Hm. inversion Harr. subst arr'.
    rewrite Forall_forall in IH. apply (IH m Hm).
Qed.

Lemma PolyAdd_zero_free (p : Poly) : add_zero_free PolyAdd p.
Proof.
  induction p as [a | arr IH] using Poly_nested_ind; intros q r Hp Hq H.
  - destruct q as [b | lq].
    + inversion H. apply zero_free_Coeff_wrap.
    + cbn [PolyAdd] in H.
      apply (ordered_zero_free PolyAddConst (Terms lq) (Coeff a)
               (fun _ m _ _ => PolyAddConst_zero_free (m_p m)) r Hq Hp H).
  - destruct q as [b | lq].
    + cbn [PolyAdd] in H. revert r Hp Hq H. apply ordered_zero_free.
      intros arr' m Harr Hm. inversion Harr. subst arr'.
      rewrite Forall_forall in IH. apply (IH m Hm).
    + cbn [PolyAdd] in H. unfold PolyAddTwoNonCoeffs in H.
      apply bind_Some in H. destruct H as [out [Hout H]].
      rewrite Trim_Interpret in H. inversion H. subst r.
      apply Interpret_zero_free.
      apply (merge_zero_free PolyAdd arr) with (lq := lq); auto.
      * intros m Hm. rewrite Forall_forall in IH. apply (IH m Hm).
      * apply zero_free_Terms. exact Hp.
      * apply zero_free_Terms. exact Hq.
Qed.

Lemma PolyAdd_canonical (p q : Poly) :
  canonical p = true -> canonical q = true ->
  exists r, PolyAdd p q = Some r /\ canonical r = true.
Proof.
  intros Hp Hq.
  apply canonical_split in Hp. destruct Hp as [Hwp Hzp].
  apply canonical_split in Hq. destruct Hq as [Hwq Hzq].
  destruct (PolyAdd_wfB exp_max p q Hwp Hwq) as [r [Hr Hw]].
  exists r. split; [exact Hr |].
  apply canonical_split. split; [exact Hw |].
  apply (PolyAdd_zero_free p q r Hzp Hzq Hr).
Qed.

(** ** Addition is commutative *)

Lemma PolyAddMerge_comm (rec : Poly -> Poly -> option Poly) (lp : list Mono) :
  (forall m, In m lp -> forall q, rec (m_p m) q = rec q (m_p m)) ->
  forall lq, PolyAddMerge rec lp lq = PolyAddMerge rec lq lp.
Proof.
  induction lp as [| a lp IHp]; intros Hrec lq.
  { rewrite PolyAddMerge_nil_l, PolyAddMerge_nil_r. reflexivity. }
  induction lq as [| b lq IHq].
  { rewrite PolyAddMerge_nil_l, PolyAddMerge_nil_r. reflexivity. }
  rewrite !PolyAddMerge_cons_cons. unfold MonoGetExp.
  rewrite (Z.eqb_sym (m_exp b) (m_exp a)).
  destruct (m_exp a =? m_exp b) eqn:Eeq.
  - apply Z.eqb_eq in Eeq. unfold MonoAdd.
    rewrite (Hrec a (or_introl eq_refl) (m_p b)), Eeq.
    rewrite (IHp (fun m Hm => Hrec m (or_intror Hm)) lq). reflexivity.
  - apply Z.eqb_neq in Eeq.
    destruct (Z.gtb_spec (m_exp a) (m_exp b)) as [Hgt | Hle];
      destruct (Z.gtb_spec (m_exp b) (m_exp a)) as [Hgt' | Hle']; try lia.
    + rewrite IHq. reflexivity.
    + rewrite (IHp (fun m Hm => Hrec m (or_intror Hm)) (b :: lq)). reflexivity.
Qed.

Lemma PolyAdd_comm (p : Poly) : forall q, PolyAdd p q = PolyAdd q p.
Proof.
  induction p as [a | arr IH] using Poly_nested_ind; intros [b | lq].
  - cbn [PolyAdd PolyAddTwoCoeffs]. rewrite Z.add_comm. reflexivity.
  - cbn [PolyAdd]. apply ordered_PolyAddConst.
  - cbn [PolyAdd]. symmetry. apply ordered_PolyAddConst.
  - cbn [PolyAdd]. unfold PolyAddTwoNonCoeffs.
    rewrite (PolyAddMerge_comm PolyAdd arr).
    + destruct (PolyAddMerge PolyAdd lq arr) as [out |]; [| reflexivity].
      cbn [bind]. rewrite !Trim_Interpret. reflexivity.
    + intros m Hm. rewrite Forall_forall in IH. apply (IH m Hm).
Qed.

(** ** [PolyIsEq] decides structural equality *)

Lemma PolyIsEq_true (p : Poly) : forall q, PolyIsEq p q = true -> p = q.
Proof.
  induction p as [a | arr IH] using Poly_nested_ind; intros [b | lq] H;
    try discriminate.
  - cbn [PolyIsEq] in H. apply Z.eqb_eq in H. subst. reflexivity.
  - cbn [PolyIsEq] in H.
    destruct (Nat.eqb (length arr) (length lq)) eqn:El; [| discriminate].
    cbn [negb] in H. apply Nat.eqb_eq in El. f_equal.
    revert lq El H. induction arr as [| m arr IHarr]; intros lq El H.
    + destruct lq; [reflexivity | discriminate].
    + destruct lq as [| n lq]; [discriminate |].
      inversion IH as [| ? ? Hm IH']. subst.
      destruct ((m_exp m =? m_exp n) && PolyIsEq (m_p m) (m_p n)) eqn:E;
        [| discriminate].
      cbn [negb] in H. apply andb_true_iff in E. destruct E as [E1 E2].
      apply Z.eqb_eq in E1. apply Hm in E2.
      rewrite (IHarr IH' lq); [| simpl in El; lia | exact H].
      destruct m, n. simpl in *. subst. reflexivity.
Qed.

(** ** Negation *)

Lemma eqm64_in_range (a b : Z) :
  eqm64 a b -> coeff_min <= a <= coeff_max -> coeff_min <= b <= coeff_max ->
  a = b.
Proof.
  unfold eqm64, coeff_min, coeff_max. intros H Ha Hb.
  assert (Ha' : (a + 2 ^ 63) mod 2 ^ 64 = a + 2 ^ 63) by (apply Z.mod_small; lia).
  assert (Hb' : (b + 2 ^ 63) mod 2 ^ 64 = b + 2 ^ 63) by (apply Z.mod_small; lia).
  assert (Hab : (a + 2 ^ 63) mod 2 ^ 64 = (b + 2 ^ 63) mod 2 ^ 64).
  { rewrite <- (Z.add_mod_idemp_l a), <- (Z.add_mod_idemp_l b) by (compute; discriminate).
    rewrite H. reflexivity. }
  lia.
Qed.

Lemma wrap64_neg_neg (c : Z) :
  coeff_min <= c <= coeff_max -> wrap64 (NEG * wrap64 (NEG * c)) = c.
Proof.
  intros Hc. apply eqm64_in_range; [| apply wrap64_range | exact Hc].
  etransitivity; [apply wrap64_eqm |].
  transitivity (NEG * (NEG * c)).
  - apply eqm64_mul; [reflexivity | apply wrap64_eqm].
  - apply eqm64_of_eq. unfold NEG. ring.
Qed.

Lemma Negate_canonical (p : Poly) :
  canonical p = true -> canonical (Negate p) = true.
Proof.
  induction p as [c | arr IH] using Poly_nested_ind; intros Hc.
  - cbn [Negate canonical]. pose proof (wrap64_range (NEG * c)) as H.
    apply andb_true_iff. split; apply Z.leb_le; lia.
  - pose proof Hc as Hc'.
    apply canonical_Terms in Hc'. destruct Hc' as [Hn [Hf [Ha Hall]]].
    cbn [Negate]. apply canonical_Terms. repeat split.
    + destruct arr; [congruence | discriminate].
    + destruct arr as [| m [| m' arr']]; try reflexivity.
      cbn [map is_flat] in *. rewrite m_exp_Mk, m_p_Mk, Negate_IsCoeff.
      exact Hf.
    + rewrite map_map. cbn [m_exp]. exact Ha.
    + rewrite Forall_forall in *. intros m' Hm'.
      apply in_map_iff in Hm'. destruct Hm' as [m [<- Hm]].
      destruct (canonical_mono_inv m (Hall m Hm)) as [H1 [H2 H3]].
      unfold canonical_mono. rewrite m_p_Mk, m_exp_Mk.
      rewrite (IH m Hm H1), (Negate_nonzero _ H1 H2). cbn [negb andb].
      apply andb_true_iff. split; apply Z.leb_le; lia.
Qed.

Lemma Negate_involutive (p : Poly) :
  canonical p = true -> Negate (Negate p) = p.
Proof.
  induction p as [c | arr IH] using Poly_nested_ind; intros Hc.
  - cbn [Negate]. f_equal. apply wrap64_neg_neg.
    apply canonical_Coeff_range. exact Hc.
  - apply canonical_Terms in Hc. destruct Hc as [_ [_ [_ Hall]]].
    cbn [Negate]. f_equal. rewrite map_map.
    rewrite <- (map_id arr) at 2. apply map_ext_in.
    intros m Hm. rewrite m_p_Mk, m_exp_Mk.
    rewrite Forall_forall in *.
    destruct (canonical_mono_inv m (Hall m Hm)) as [H1 _].
    rewrite (IH m Hm H1). destruct m; reflexivity.
Qed.

Lemma Negate_sem (p : Poly) :
  forall env d, eqm64 (eval env d (Negate p)) (- eval env d p).
Proof.
  induction p as [c | arr IH] using Poly_nested_ind; intros env d.
  - cbn [Negate eval]. etransitivity; [apply wrap64_eqm |].
    apply eqm64_of_eq. unfold NEG. ring.
  - cbn [Negate]. rewrite !eval_Terms.
    induction arr as [| m arr IHarr].
    + reflexivity.
    + inversion IH as [| ? ? Hm IH']. subst.
      cbn [map]. rewrite !evalMonos_cons. rewrite (IHarr IH').
      unfold evalMono. rewrite m_p_Mk, m_exp_Mk. rewrite (Hm env (S d)).
      apply eqm64_of_eq. ring.
Qed.

(** ** Degree by the outermost variable *)

Lemma asc_last (l : list Mono) :
  asc l -> l <> [] ->
  exists m, nth_error l (length l - 1) = Some m /\ In m l
            /\ Forall (fun n => m_exp n <= m_exp m) l.
Proof.
  induction l as [| a l IH]; intros Ha Hn; [congruence |].
  destruct (asc_cons_inv _ _ Ha) as [Ha' Hlt].
  destruct l as [| b l'].
  - exists a. repeat split; [left; reflexivity |].
    constructor; [lia | constructor].
  - destruct (IH Ha') as [m [Hm [Hin Hall]]]; [discriminate |].
    exists m. split; [| split].
    + simpl length in *. simpl Nat.sub in *.
      rewrite Nat.sub_0_r in Hm. exact Hm.
    + right. exact Hin.
    + constructor; [| exact Hall].
      rewrite Forall_forall in Hlt. specialize (Hlt m Hin). lia.
Qed.

(** ** Evaluation at a point *)

Lemma eval_shift (x : Z) (env : nat -> Z) (p : Poly) :
  forall d, eval (cons_env x env) (S d) p = eval env d p.
Proof.
  induction p as [c | arr IH] using Poly_nested_ind; intros d.
  - reflexivity.
  - cbn [eval]. induction arr as [| m arr IHarr]; [reflexivity |].
    inversion IH as [| ? ? Hm IH']. subst.
    cbn [fold_right]. rewrite (IHarr IH'), (Hm (S d)). reflexivity.
Qed.

Lemma PowerOfPos_sem (n : positive) :
  forall x, eqm64 (PowerOfPos x n) (x ^ Zpos n).
Proof.
  induction n as [k IH | k IH |]; intros x; cbn [PowerOfPos].
  - rewrite Pos2Z.inj_xI, pow_odd by lia.
    etransitivity; [apply wrap64_eqm |].
    apply eqm64_mul; [reflexivity |].
    etransitivity; [apply IH |]. apply eqm64_pow. apply wrap64_eqm.
  - rewrite Pos2Z.inj_xO, pow_even by lia.
    etransitivity; [apply IH |]. apply eqm64_pow. apply wrap64_eqm.
  - rewrite Z.pow_1_r. reflexivity.
Qed.

Lemma PowerOf_sem (x n c : Z) : PowerOf x n = Some c -> eqm64 c (x ^ n).
Proof.
  destruct n as [| k | k]; intros H; inversion H.
  - reflexivity.
  - apply PowerOfPos_sem.
Qed.

Lemma PolyAt_sem (p r : Poly) (x : Z) :
  PolyAt p x = Some r ->
  forall env, eqm64 (eval env 0 r) (eval (cons_env x env) 0 p).
Proof.
  intros H env. destruct p as [c | arr].
  - cbn [PolyAt] in H. rewrite (PolyClone_Some _ _ H). reflexivity.
  - cbn [PolyAt] in H. rewrite eval_Terms.
    assert (Hgen : forall a,
               foldM (fun result m => new_poly <- MonoAt m x ;; PolyAdd result new_poly)
                     arr a = Some r ->
               eqm64 (eval env 0 r)
                     (eval env 0 a + evalMonos (cons_env x env) 0 arr)).
    { clear H. revert r. induction arr as [| m arr IHarr]; intros r a H.
      - inversion H. eqm_ring.
      - cbn [foldM] in H. apply bind_Some in H. destruct H as [a' [Ha' H]].
        apply bind_Some in Ha'. destruct Ha' as [np [Hnp Ha']].
        unfold MonoAt in Hnp. apply bind_Some in Hnp. destruct Hnp as [c [Hc Hnp]].
        rewrite (IHarr r a' H). rewrite (PolyAdd_sem _ _ _ env 0%nat Ha').
        rewrite (PolyMul_const_sem (m_p m) (PolyFromCoeff c) np eq_refl Hnp env 0%nat).
        rewrite evalMonos_cons. unfold evalMono. rewrite eval_shift.
        cbn [eval PolyFromCoeff cons_env]. rewrite (PowerOf_sem _ _ _ Hc).
        eqm_ring. }
    rewrite (Hgen PolyZero H). cbn [eval PolyZero PolyFromCoeff]. eqm_ring.
Qed.

(** ** Composition with no substituted polynomial *)

Lemma pow_zero_base (e : Z) : e <> 0 -> 0 ^ e = 0.
Proof.
  intros He. destruct (Z_lt_le_dec e 0).
  - apply Z.pow_neg_r. assumption.
  - apply Z.pow_0_l. lia.
Qed.

Lemma PolyComposeHelper_k0 (q : list Poly) (p : Poly) :
  forall var_id,
    exists c, PolyComposeHelper p 0 var_id q = Some (Coeff c)
              /\ eqm64 c (eval (fun _ => 0) var_id p).
Proof.
  induction p as [c | arr IH] using Poly_nested_ind; intros var_id.
  - exists c. split; reflexivity.
  - cbn [PolyComposeHelper]. rewrite eval_Terms.
    assert (Hgen : forall a,
               exists c,
                 foldM (fun result m =>
                          result_of_mono_compose <-
                            MonoComposeHelper PolyComposeHelper m 0 var_id q ;;
                          PolyAdd result result_of_mono_compose) arr (Coeff a)
                 = Some (Coeff c)
                 /\ eqm64 c (a + evalMonos (fun _ => 0) var_id arr)).
    { induction arr as [| m arr IHarr]; intros a.
      - exists a. split; [reflexivity | eqm_ring].
      - inversion IH as [| ? ? Hm IH']. subst.
        destruct (Hm (var_id + 1)%nat) as [cm [Hcm Hsem]].
        rewrite Nat.add_1_r in Hsem.
        cbn [foldM]. unfold MonoComposeHelper. rewrite Hcm. cbn [bind].
        rewrite evalMonos_cons. unfold evalMono.
        destruct (m_exp m =? 0) eqn:E0.
        + apply Z.eqb_eq in E0. cbn [bind PolyAdd PolyAddTwoCoeffs].
          unfold PolyFromCoeff.
          destruct (IHarr IH' (wrap64 (a + cm))) as [c [Hc Hs]].
          exists c. split; [exact Hc |].
          rewrite Hs, E0. rewrite wrap64_eqm, Hsem.
          change ((fun _ : nat => 0) var_id ^ 0) with 1. eqm_ring.
        + apply Z.eqb_neq in E0. cbn [Nat.ltb Nat.leb bind PolyAdd PolyAddTwoCoeffs].
          unfold PolyZero, PolyFromCoeff. cbn [PolyAdd PolyAddTwoCoeffs].
          unfold PolyFromCoeff.
          destruct (IHarr IH' (wrap64 (a + 0))) as [c [Hc Hs]].
          exists c. split; [exact Hc |].
          rewrite Hs. rewrite wrap64_eqm.
          rewrite (pow_zero_base _ E0). eqm_ring. }
    destruct (Hgen 0) as [c [Hc Hs]].
    exists c. split; [exact Hc |]. rewrite Hs. eqm_ring.
Qed.

(** ** Subtraction, unit and zero of the product *)

Lemma PolySub_canonical_sem (p q : Poly) :
  canonical p = true -> canonical q = true ->
  exists r, PolySub p q = Some r /\ canonical r = true
            /\ forall env d, eqm64 (eval env d r) (eval env d p - eval env d q).
Proof.
  intros Hp Hq. unfold PolySub. rewrite (PolyNeg_Negate q Hq). cbn [bind].
  destruct (PolyAdd_canonical p (Negate q) Hp (Negate_canonical q Hq))
    as [r [Hr Hc]].
  exists r. split; [exact Hr |]. split; [exact Hc |].
  intros env d. rewrite (PolyAdd_sem _ _ _ env d Hr). rewrite (Negate_sem q env d).
  apply eqm64_of_eq. ring.
Qed.

Lemma PolyMul_one_l (p : Poly) :
  canonical p = true -> PolyMul (Coeff 1) p = Some p.
Proof.
  intros Hc. destruct p as [c | arr].
  - cbn [PolyMul PolyMulTwoCoeffs]. unfold PolyFromCoeff.
    rewrite wrap64_small; [do 2 f_equal; ring |].
    apply canonical_Coeff_range in Hc. lia.
  - cbn [PolyMul]. rewrite ordered_PolyMulConst.
    apply (PolyMul_one_r (Terms arr) Hc).
Qed.

Lemma PolyMul_zero_l (p : Poly) : PolyMul (Coeff 0) p = Some (Coeff 0).
Proof.
  destruct p as [c | arr].
  - cbn [PolyMul PolyMulTwoCoeffs]. unfold PolyFromCoeff.
    rewrite Z.mul_0_r. reflexivity.
  - reflexivity.
Qed.

(** ** [PolyClone] fails exactly on an empty array *)

Lemma nonempty_terms_Terms (arr : list Mono) :
  nonempty_terms (Terms arr) = true <->
  arr <> [] /\ Forall (fun m => nonempty_terms (m_p m) = true) arr.
Proof.
  cbn [nonempty_terms]. rewrite andb_true_iff, negb_true_iff, forallb_forall,
    Forall_forall.
  split; intros [H1 H2]; split; auto.
  - destruct arr; [discriminate | congruence].
  - destruct arr; [congruence | reflexivity].
Qed.

Lemma PolyClone_nonempty (p : Poly) :
  nonempty_terms p = true -> PolyClone p = Some p.
Proof.
  induction p as [c | arr IH] using Poly_nested_ind; intros H.
  - reflexivity.
  - apply nonempty_terms_Terms in H. destruct H as [Hn Hall].
    cbn [PolyClone]. rewrite (mapM_id _ arr).
    + cbn [bind]. apply PolyFromSizeAndArray_all. exact Hn.
    + rewrite Forall_forall in *. intros m Hm.
      rewrite (IH m Hm (Hall m Hm)). destruct m; reflexivity.
Qed.

Lemma PolyClone_defined_nonempty (p : Poly) :
  forall r, PolyClone p = Some r -> nonempty_terms p = true.
Proof.
  induction p as [c | arr IH] using Poly_nested_ind; intros r H.
  - reflexivity.
  - cbn [PolyClone] in H. apply bind_Some in H. destruct H as [na [Hna H]].
    apply nonempty_terms_Terms. split.
    + unfold PolyFromSizeAndArray in H. destruct arr; [discriminate | discriminate].
    + clear H. revert na Hna.
      induction arr as [| m arr IHarr]; intros na Hna; [constructor |].
      inversion IH as [| ? ? Hm IH']. subst.
      cbn [mapM] in Hna. apply bind_Some in Hna. destruct Hna as [b [Hb Hna]].
      apply bind_Some in Hna. destruct Hna as [bs [Hbs _]].
      apply bind_Some in Hb. destruct Hb as [c [Hc _]].
      constructor; [apply (Hm c Hc) | apply (IHarr IH' bs Hbs)].
Qed.

(** ** Bounds on the total degree *)

Lemma fold_left_max_step_bounds (U : Z) (l : list Z) :
  Forall (fun z => 0 <= z <= U) l ->
  forall a, -1 <= a <= U ->
            a <= fold_left max_step l a <= U
            /\ (l <> [] -> 0 <= fold_left max_step l a).
Proof.
  induction 1 as [| z l Hz _ IH]; intros a Ha.
  - cbn [fold_left]. split; [lia | congruence].
  - cbn [fold_left].
    assert (Hs : a <= max_step a z <= U /\ 0 <= max_step a z).
    { unfold max_step. destruct (Z.gtb_spec z a); lia. }
    destruct (IH (max_step a z)) as [H1 _]; [lia |].
    split; [lia | intros _; lia].
Qed.

Lemma PolyDeg_bounds (B : Z) (p : Poly) :
  0 <= B -> canonical p = true -> wfB B p = true ->
  Z.of_nat (PolyDepth p) * B <= exp_max ->
  PolyIsZero p = false ->
  0 <= PolyDeg p <= Z.of_nat (PolyDepth p) * B.
Proof.
  intros HB.
  induction p as [c | arr IH] using Poly_nested_ind; intros Hc Hw Hle Hz.
  - cbn [PolyDeg PolyIsZero PolyDepth] in *. rewrite Hz. simpl. lia.
  - apply canonical_Terms in Hc. destruct Hc as [Hn [_ [_ Hall]]].
    apply wfB_Terms in Hw. destruct Hw as [_ [_ [_ Hwall]]].
    cbn [PolyDepth PolyDeg] in *.
    set (d := fold_right (fun m d => Nat.max (PolyDepth (m_p m)) d) O arr) in *.
    rewrite Nat2Z.inj_succ in *.
    destruct (fold_left_max_step_bounds
                (Z.succ (Z.of_nat d) * B)
                (map (fun m => wrap32 (m_exp m + PolyDeg (m_p m))) arr))
      with (a := SMALL_VALUE) as [H1 H2].
    + rewrite Forall_forall. intros z Hzin.
      apply in_map_iff in Hzin. destruct Hzin as [m [<- Hm]].
      rewrite Forall_forall in IH, Hall, Hwall.
      destruct (canonical_mono_inv m (Hall m Hm)) as [Hcm [Hzm _]].
      destruct (Hwall m Hm) as [Hwm Hem].
      pose proof (PolyDepth_In m arr Hm) as Hd. fold d in Hd.
      assert (Hdm : Z.of_nat (PolyDepth (m_p m)) * B <= Z.of_nat d * B) by nia.
      pose proof (IH m Hm Hcm Hwm ltac:(lia) Hzm) as Hdeg.
      rewrite wrap32_small; unfold exp_max in *; lia.
    + unfold SMALL_VALUE. nia.
    + split; [| lia]. apply H2.
      destruct arr; [congruence | discriminate].
Qed.

(** * The stack *)

Lemma set_slot_spec {A : Type} (arr : list A) :
  forall i v, (i < length arr)%nat ->
              set_slot arr i v = Some (firstn i arr ++ v :: skipn (S i) arr).
Proof.
  induction arr as [| a arr IH]; intros i v Hi.
  - simpl in Hi. lia.
  - destruct i as [| j].
    + reflexivity.
    + cbn [set_slot]. rewrite IH by (simpl in Hi; lia). reflexivity.
Qed.

Lemma Represents_size_le (s : Tstack) (l : list Poly) :
  Represents s l -> (length l <= st_reserved s)%nat.
Proof.
  intros [_ [Hlen [Hfirst _]]].
  apply (f_equal (@length _)) in Hfirst.
  rewrite length_firstn, length_map in Hfirst. lia.
Qed.

Lemma firstn_app_exact {A : Type} (l1 l2 : list A) :
  firstn (length l1) (l1 ++ l2) = l1.
Proof.
  rewrite firstn_app, Nat.sub_diag, firstn_all. cbn [firstn].
  apply app_nil_r.
Qed.

Lemma set_slot_fill {A : Type} (pre : list A) (x v : A) (rest : list A) (i : nat) :
  i = length pre ->
  set_slot (pre ++ x :: rest) i v = Some (pre ++ v :: rest).
Proof.
  intros ->. induction pre as [| a pre IH]; [reflexivity |].
  cbn [app length set_slot]. rewrite IH. reflexivity.
Qed.

Lemma firstn_map_snoc (l : list Poly) (p : Poly) (rest : list (option Poly)) :
  firstn (length (l ++ [p])) (map Some l ++ Some p :: rest) = map Some (l ++ [p]).
Proof.
  replace (map Some l ++ Some p :: rest) with (map Some (l ++ [p]) ++ rest)
    by (rewrite map_app, <- app_assoc; reflexivity).
  rewrite <- (length_map Some (l ++ [p])). apply firstn_app_exact.
Qed.

Lemma Push_Represents (s : Tstack) (l : list Poly) (p : Poly) :
  Represents s l ->
  exists s', Push s p = Some s' /\ Represents s' (l ++ [p]).
Proof.
  intros Hrep. pose proof (Represents_size_le s l Hrep) as Hle.
  destruct Hrep as [Hsize [Hlen [Hfirst Hcap]]].
  unfold Push. destruct (Nat.eqb (st_size s) (st_reserved s)) eqn:Efull.
  - apply Nat.eqb_eq in Efull.
    assert (Hall : st_elements s = map Some l).
    { rewrite <- Hfirst. symmetry. apply firstn_all2. lia. }
    unfold StackResize, SIZE_EXPAND_CONST. cbn [st_size st_reserved st_elements].
    rewrite firstn_all2 by lia.
    replace (st_reserved s * 2 + 1 - length (st_elements s))%nat
      with (S (st_reserved s)) by lia.
    cbn [repeat]. rewrite Hall, Hsize.
    rewrite set_slot_fill by (rewrite length_map; reflexivity). cbn [bind].
    eexists. split; [reflexivity |].
    unfold Represents. cbn [st_size st_reserved st_elements].
    rewrite firstn_map_snoc. rewrite !length_app, length_map. cbn [length].
    rewrite repeat_length. repeat split; lia.
  - apply Nat.eqb_neq in Efull.
    assert (Hsplit : exists x rest, st_elements s = map Some l ++ x :: rest).
    { rewrite <- (firstn_skipn (length l) (st_elements s)), Hfirst.
      destruct (skipn (length l) (st_elements s)) as [| x rest] eqn:Es.
      - apply (f_equal (@length _)) in Es. rewrite length_skipn in Es.
        simpl in Es. lia.
      - exists x, rest. reflexivity. }
    destruct Hsplit as [x [rest Hsplit]].
    rewrite Hsplit, Hsize.
    rewrite set_slot_fill by (rewrite length_map; reflexivity). cbn [bind].
    eexists. split; [reflexivity |].
    unfold Represents. cbn [st_size st_reserved st_elements].
    rewrite firstn_map_snoc. rewrite <- Hlen, Hsplit.
    rewrite !length_app, length_map. cbn [length].
    rewrite Hsplit, length_app, length_map in Hlen. cbn [length] in Hlen.
    repeat split; lia.
Qed.

Lemma Pop_Represents (s : Tstack) (l : list Poly) (p : Poly) :
  Represents s (l ++ [p]) ->
  exists s', Pop s = Some (p, s') /\ Represents s' l.
Proof.
  intros Hrep. pose proof (Represents_size_le s _ Hrep) as Hle.
  destruct Hrep as [Hsize [Hlen [Hfirst Hcap]]].
  rewrite length_app in *. cbn [length] in *.
  rewrite Nat.add_1_r in *.
  assert (Hsplit : st_elements s
                   = map Some l ++ Some p :: skipn (S (length l)) (st_elements s)).
  { rewrite <- (firstn_skipn (S (length l)) (st_elements s)) at 1.
    rewrite Hfirst, map_app, <- app_assoc. reflexivity. }
  assert (Hnth : nth_error (st_elements s) (length l) = Some (Some p)).
  { rewrite Hsplit. rewrite nth_error_app2 by (rewrite length_map; lia).
    rewrite length_map, Nat.sub_diag. reflexivity. }
  assert (Hpre : firstn (length l) (st_elements s) = map Some l).
  { rewrite Hsplit. replace (length l) with (length (map Some l)) at 1
      by apply length_map.
    apply firstn_app_exact. }
  unfold Pop. rewrite Hsize, Hnth. cbn [bind].
  destruct (Nat.leb (length l) (st_reserved s / SIZE_SHRINK_BOUND)) eqn:Eshrink.
  - eexists. split; [reflexivity |].
    unfold Represents, StackResize. cbn [st_size st_reserved st_elements].
    replace (length l - length (st_elements s))%nat with 0%nat by lia.
    cbn [repeat]. rewrite app_nil_r. repeat split.
    + rewrite length_firstn. lia.
    + rewrite firstn_firstn, Nat.min_id. exact Hpre.
    + lia.
  - apply Nat.leb_gt in Eshrink. unfold SIZE_SHRINK_BOUND in Eshrink.
    eexists. split; [reflexivity |].
    unfold Represents. cbn [st_size st_reserved st_elements].
    repeat split; auto.
    pose proof (Nat.div_mod_eq (st_reserved s) 4) as Hdm.
    pose proof (Nat.mod_upper_bound (st_reserved s) 4 ltac:(lia)) as Hmod.
    lia.
Qed.

Lemma Represents_nil (s : Tstack) : Represents s [] -> s = StackInit.
Proof.
  intros [Hsize [Hlen [_ Hcap]]]. cbn [length] in *.
  destruct s as [sz rs els]. cbn [st_size st_reserved st_elements] in *.
  assert (rs = 0%nat) by lia. subst.
  destruct els; [reflexivity | discriminate].
Qed.

Lemma EmptyLoop_Represents (l : list Poly) :
  forall s, Represents s l -> EmptyLoop (length l) s = Some StackInit.
Proof.
  induction l as [| p l IH] using rev_ind; intros s Hrep.
  - cbn [length EmptyLoop]. rewrite (Represents_nil s Hrep). reflexivity.
  - destruct (Pop_Represents s l p Hrep) as [s' [Hpop Hrep']].
    destruct Hrep as [Hsize _].
    rewrite length_app in *. cbn [length] in *. rewrite Nat.add_1_r in *.
    cbn [EmptyLoop]. rewrite Hsize. cbn [Nat.ltb Nat.leb].
    rewrite Hpop. cbn [bind snd]. apply IH. exact Hrep'.
Qed.

(** * Reading and printing *)

Lemma Holds_New : Holds NewDynamicMonoArray [].
Proof. repeat split. Qed.

Lemma firstn_map_Some_snoc {A : Type} (l : list A) (a : A) (rest : list (option A)) :
  firstn (length (l ++ [a])) (map Some l ++ Some a :: rest) = map Some (l ++ [a]).
Proof.
  replace (map Some l ++ Some a :: rest) with (map Some (l ++ [a]) ++ rest)
    by (rewrite map_app, <- app_assoc; reflexivity).
  rewrite <- (length_map Some (l ++ [a])). apply firstn_app_exact.
Qed.

Lemma DynamicMonoArrayAdd_Holds (d : DynamicMonoArray) (l : list Mono) (m : Mono) :
  Holds d l ->
  exists d', DynamicMonoArrayAdd d m = Some d' /\ Holds d' (l ++ [m]).
Proof.
  intros [Hsize [Hlen Hfirst]].
  assert (Hle : (length l <= da_reserved d)%nat).
  { pose proof (f_equal (@length _) Hfirst) as H.
    rewrite length_firstn, length_map in H. lia. }
  unfold DynamicMonoArrayAdd.
  destruct (Nat.eqb (da_size d) (da_reserved d)) eqn:Efull.
  - apply Nat.eqb_eq in Efull.
    assert (Hall : mono_array d = map Some l).
    { rewrite <- Hfirst. symmetry. apply firstn_all2. lia. }
    unfold RESIZE_CONST. cbn [da_size da_reserved mono_array].
    rewrite firstn_all2 by lia.
    replace (da_reserved d * 2 + 1 - length (mono_array d))%nat
      with (S (da_reserved d)) by lia.
    cbn [repeat]. rewrite Hall, Hsize.
    rewrite set_slot_fill by (rewrite length_map; reflexivity). cbn [bind].
    eexists. split; [reflexivity |].
    unfold Holds. cbn [da_size da_reserved mono_array].
    rewrite firstn_map_Some_snoc. rewrite !length_app, length_map. cbn [length].
    rewrite repeat_length. repeat split; lia.
  - apply Nat.eqb_neq in Efull.
    assert (Hsplit : exists x rest, mono_array d = map Some l ++ x :: rest).
    { rewrite <- (firstn_skipn (length l) (mono_array d)), Hfirst.
      destruct (skipn (length l) (mono_array d)) as [| x rest] eqn:Es.
      - apply (f_equal (@length _)) in Es. rewrite length_skipn in Es.
        simpl in Es. lia.
      - exists x, rest. reflexivity. }
    destruct Hsplit as [x [rest Hsplit]].
    rewrite Hsplit, Hsize.
    rewrite set_slot_fill by (rewrite length_map; reflexivity). cbn [bind].
    eexists. split; [reflexivity |].
    unfold Holds. cbn [da_size da_reserved mono_array].
    rewrite firstn_map_Some_snoc. rewrite <- Hlen, Hsplit.
    rewrite !length_app, length_map. cbn [length].
    repeat split; lia.
Qed.

Lemma mapM_slots {A : Type} (l : list A) :
  mapM (fun slot : option A => slot) (map Some l) = Some l.
Proof.
  induction l as [| a l IH]; [reflexivity |].
  cbn [map mapM bind]. rewrite IH. reflexivity.
Qed.

Lemma Holds_Contents (d : DynamicMonoArray) (l : list Mono) :
  Holds d l -> DynamicMonoArrayContents d = Some l /\ da_size d = length l.
Proof.
  intros [Hsize [_ Hfirst]]. unfold DynamicMonoArrayContents.
  rewrite Hsize, Hfirst. split; [apply mapM_slots | reflexivity].
Qed.

(** ** [strtol] leaves its end pointer in the string *)

Lemma suffix_refl (s : cstring) : suffix s s.
Proof. exists []. reflexivity. Qed.

Lemma suffix_trans (a b c : cstring) : suffix a b -> suffix b c -> suffix a c.
Proof.
  intros [p1 H1] [p2 H2]. exists (p2 ++ p1). subst. apply app_assoc.
Qed.

Lemma suffix_cons (a : Ascii.ascii) (l s : cstring) : suffix l s -> suffix l (a :: s).
Proof. intros [pre H]. exists (a :: pre). subst. reflexivity. Qed.

Lemma suffix_length (l s : cstring) : suffix l s -> (length l <= length s)%nat.
Proof. intros [pre H]. subst. rewrite length_app. lia. Qed.

Lemma suffix_tail (a : Ascii.ascii) (l s : cstring) : suffix (a :: l) s -> suffix l s.
Proof. intros [pre H]. exists (pre ++ [a]). subst. rewrite <- app_assoc. reflexivity. Qed.

Lemma read_digits_suffix (s : cstring) :
  forall acc, suffix (snd (read_digits s acc)) s.
Proof.
  induction s as [| c s IH]; intros acc; cbn [read_digits].
  - apply suffix_refl.
  - destruct (isdigit c).
    + apply suffix_cons, IH.
    + apply suffix_refl.
Qed.

Lemma skip_spaces_suffix (s : cstring) : suffix (skip_spaces s) s.
Proof.
  induction s as [| c s IH]; cbn [skip_spaces].
  - apply suffix_refl.
  - destruct (isspace c); [apply suffix_cons, IH | apply suffix_refl].
Qed.

Lemma strtol_suffix (s : cstring) : suffix (snd (fst (strtol s))) s.
Proof.
  unfold strtol.
  set (s1 := skip_spaces s).
  assert (H1 : suffix s1 s) by apply skip_spaces_suffix.
  set (sg := match s1 with
             | [] => (false, s1)
             | c :: rest =>
                 if Ascii.eqb c MINUS_SIGN then (true, rest)
                 else if Ascii.eqb c PLUS_SIGN then (false, rest) else (false, s1)
             end).
  assert (H2 : suffix (snd sg) s).
  { subst sg. destruct s1 as [| c rest]; [exact H1 |].
    destruct (Ascii.eqb c MINUS_SIGN); [exact (suffix_tail _ _ _ H1) |].
    destruct (Ascii.eqb c PLUS_SIGN); [exact (suffix_tail _ _ _ H1) | exact H1]. }
  destruct sg as [negative s2]. cbn [snd] in H2.
  destruct (isdigit (char_at s2 0)); [| apply suffix_refl].
  pose proof (read_digits_suffix s2 0) as H3.
  destruct (read_digits s2 0) as [v endptr]. cbn [snd] in H3.
  assert (H4 : suffix endptr s) by (eapply suffix_trans; eassumption).
  destruct negative.
  - destruct (- v >? LONG_MAX); [exact H4 |]. destruct (- v <? LONG_MIN); exact H4.
  - destruct (v >? LONG_MAX); [exact H4 |]. destruct (v <? LONG_MIN); exact H4.
Qed.

Lemma IsError_wrong_poly (h : ErrorHandler) :
  IsError (ErrorHandlerSetCode h WRONG_POLY_CODE) = true.
Proof. reflexivity. Qed.

Lemma kept_refl (h : ErrorHandler) : kept_or_wrong_poly h h.
Proof. left. reflexivity. Qed.

Lemma kept_wrong (h : ErrorHandler) :
  kept_or_wrong_poly h (ErrorHandlerSetCode h WRONG_POLY_CODE).
Proof. right. reflexivity. Qed.

Lemma kept_no_error (h h' : ErrorHandler) :
  kept_or_wrong_poly h h' -> IsError h' = false -> h' = h.
Proof.
  intros [H | H] He; [exact H |]. subst h'. rewrite IsError_wrong_poly in He.
  discriminate.
Qed.

Lemma char_at_head (c : Ascii.ascii) (s : cstring) :
  c <> NULL_CHAR -> Ascii.eqb (char_at s 0) c = true -> exists rest, s = c :: rest.
Proof.
  intros Hc H. apply Ascii.eqb_eq in H. destruct s as [| a rest].
  - cbn in H. congruence.
  - cbn in H. subst. eauto.
Qed.

Lemma wfB_mono_Dummy : wfB_mono exp_max MonoDummy.
Proof. split; [reflexivity | cbn; unfold exp_max; lia]. Qed.

Lemma IsExpValid_range (errno n : Z) :
  IsExpValid errno n = true -> errno = 0 /\ 0 <= n <= exp_max.
Proof.
  unfold IsExpValid, EXP_LOWER_BOUND, EXP_UPPER_BOUND, exp_max.
  rewrite negb_true_iff, !orb_false_iff, negb_false_iff.
  intros [[H1 H2] H3]. apply Z.eqb_eq in H1. apply Z.ltb_ge in H2.
  rewrite Z.gtb_ltb in H3. apply Z.ltb_ge in H3. lia.
Qed.

Ltac read_fails :=
  do 3 eexists;
  split; [reflexivity |
  split; [first [apply wfB_mono_Dummy | reflexivity] |
  split; [first [apply kept_refl | apply kept_wrong | assumption] |
  let He := fresh "He" in
  intros He; first [rewrite IsError_wrong_poly in He; discriminate | congruence]]]].

Lemma MonoRead_step (feof : bool) (string : cstring) :
  (forall s, (length s < length string)%nat -> PolyRead_ok feof s) ->
  MonoRead_ok feof string.
Proof.
  intros IH fuel last handler Hfuel.
  destruct fuel as [| fuel']; [lia |]. cbn [MonoReadFuel].
  destruct (IsError handler) eqn:Eh; [read_fails |].
  destruct (Ascii.eqb (char_at string 0) OPENING_BRACKET) eqn:Eopen;
    cbn [negb]; [| read_fails].
  destruct (char_at_head OPENING_BRACKET _ ltac:(cbv; discriminate) Eopen) as [string1 ->].
  cbn [next bind]. cbn [length] in Hfuel.
  destruct (IH string1 ltac:(cbn [length]; lia) fuel' last handler ltac:(lia))
    as [coeff [last1 [handler1 [Hr [Hwf [Hk Hl]]]]]].
  rewrite Hr. cbn [bind].
  destruct (IsError handler1) eqn:E1; [read_fails |].
  pose proof (kept_no_error _ _ Hk E1). subst handler1.
  destruct (Hl eq_refl) as [l [-> Hsuf]]. cbn [bind].
  destruct (Ascii.eqb (char_at l 0) SEPARATOR) eqn:Esep; cbn [negb]; [| read_fails].
  destruct (isdigit (char_at l 1)) eqn:Edig; cbn [negb]; [| read_fails].
  destruct (char_at_head SEPARATOR _ ltac:(cbv; discriminate) Esep) as [l1 ->]. cbn [next bind].
  pose proof (strtol_suffix l1) as Hs.
  destruct (strtol l1) as [[value endptr] errno]. cbn [fst snd] in Hs.
  destruct (IsExpValid errno (wrap32 value)) eqn:Ev; cbn [negb]; [| read_fails].
  destruct (Ascii.eqb (char_at endptr 0) CLOSING_BRACKET) eqn:Ecl;
    cbn [negb]; [| read_fails].
  destruct (char_at_head CLOSING_BRACKET _ ltac:(cbv; discriminate) Ecl) as [l' ->].
  assert (Hsuf' : suffix (CLOSING_BRACKET :: l') (OPENING_BRACKET :: string1)).
  { apply suffix_cons. eapply suffix_trans; [exact Hs |].
    eapply suffix_tail. exact Hsuf. }
  destruct (PolyIsZero coeff && negb (wrap32 value =? 0)) eqn:Ez.
  { do 3 eexists. split; [reflexivity |]. split; [apply wfB_mono_Dummy |].
    split; [apply kept_refl |]. intros _. eexists. split; [reflexivity | exact Hsuf']. }
  unfold MonoFromPoly.
  replace ((wrap32 value =? 0) || negb (PolyIsZero coeff)) with true
    by (destruct (PolyIsZero coeff), (wrap32 value =? 0); cbn in *; congruence).
  cbn [bind]. do 3 eexists. split; [reflexivity |]. split.
  { split; [exact Hwf |]. rewrite m_exp_Mk. apply (IsExpValid_range _ _ Ev). }
  split; [apply kept_refl |]. intros _. eexists. split; [reflexivity | exact Hsuf'].
Qed.

Lemma PolyReadLoop_step (feof : bool) (string : cstring) :
  (forall s, (length s <= length string)%nat -> MonoRead_ok feof s) ->
  (forall s, (length s < length string)%nat -> PolyReadLoop_ok feof s) ->
  PolyReadLoop_ok feof string.
Proof.
  intros IHM IHL fuel monos ms last handler Hfuel Hholds Hall.
  destruct fuel as [| fuel']; [lia |]. cbn [PolyReadLoop].
  assert (H1 : exists string1,
             (if Ascii.eqb (char_at string 0) PLUS_SIGN then next string
              else Some string) = Some string1
             /\ suffix string1 string).
  { destruct (Ascii.eqb (char_at string 0) PLUS_SIGN) eqn:E.
    - destruct (char_at_head PLUS_SIGN _ ltac:(cbv; discriminate) E) as [r ->].
      exists r. split; [reflexivity |]. apply suffix_cons, suffix_refl.
    - exists string. split; [reflexivity | apply suffix_refl]. }
  destruct H1 as [string1 [-> Hsuf1]]. cbn [bind].
  pose proof (suffix_length _ _ Hsuf1) as Hlen1.
  destruct (IHM string1 Hlen1 fuel' last handler ltac:(lia))
    as [to_add [last1 [handler1 [Hr [Hwm [Hk Hl]]]]]].
  rewrite Hr. cbn [bind].
  destruct (IsError handler1) eqn:E1; [read_fails |].
  pose proof (kept_no_error _ _ Hk E1). subst handler1.
  destruct (Hl eq_refl) as [l' [-> Hsuf]]. cbn [bind next].
  assert (Hsuf2 : suffix l' string).
  { eapply suffix_trans; [| exact Hsuf1]. eapply suffix_tail. exact Hsuf. }
  assert (Hlen2 : (length l' < length string)%nat).
  { pose proof (suffix_length _ _ Hsuf) as H. cbn [length] in H. lia. }
  assert (H2 : exists monos1 ms1,
             (if negb (PolyIsZero (m_p to_add) && (m_exp to_add =? 0))
              then DynamicMonoArrayAdd monos to_add else Some monos) = Some monos1
             /\ Holds monos1 ms1 /\ Forall (wfB_mono exp_max) ms1).
  { destruct (negb (PolyIsZero (m_p to_add) && (m_exp to_add =? 0))).
    - destruct (DynamicMonoArrayAdd_Holds monos ms to_add Hholds) as [d' [Hd Hh]].
      exists d', (ms ++ [to_add]). split; [exact Hd |]. split; [exact Hh |].
      apply Forall_app. split; [exact Hall | constructor; [exact Hwm | constructor]].
    - exists monos, ms. auto. }
  destruct H2 as [monos1 [ms1 [-> [Hh1 Hall1]]]]. cbn [bind].
  destruct (Ascii.eqb (char_at l' 0) PLUS_SIGN) eqn:Eplus.
  - destruct (IHL l' Hlen2 fuel' monos1 ms1 (Some (CLOSING_BRACKET :: l')) handler
                ltac:(lia) Hh1 Hall1)
      as [p [last2 [h2 [Hr2 [Hwf2 [Hk2 Hl2]]]]]].
    exists p, last2, h2. split; [exact Hr2 |]. split; [exact Hwf2 |].
    split; [exact Hk2 |]. intros He. destruct (Hl2 He) as [l2 [-> Hs2]].
    exists l2. split; [reflexivity |]. eapply suffix_trans; eassumption.
  - cbv zeta. destruct (Holds_Contents monos1 ms1 Hh1) as [-> Hsz]. cbn [bind].
    rewrite Hsz.
    destruct (PolyAddMonos_wfB exp_max (length ms1) ms1 (le_n _)) as [r [-> Hwr]].
    { rewrite firstn_all. exact Hall1. }
    cbn [bind]. do 3 eexists. split; [reflexivity |]. split; [exact Hwr |]. split.
    { match goal with |- kept_or_wrong_poly _ (if ?c then _ else _) => destruct c end;
        [apply kept_wrong | apply kept_refl]. }
    intros _. exists l'. split; [reflexivity | exact Hsuf2].
Qed.

Lemma PolyRead_step (feof : bool) (string : cstring) :
  PolyReadLoop_ok feof string -> PolyRead_ok feof string.
Proof.
  intros HL fuel last handler Hfuel.
  destruct fuel as [| fuel']; [lia |]. cbn [PolyReadFuel].
  destruct (isdigit (char_at string 0) || Ascii.eqb (char_at string 0) MINUS_SIGN).
  - pose proof (strtol_suffix string) as Hs.
    destruct (strtol string) as [[value endptr] errno]. cbn [fst snd] in Hs.
    cbv zeta. destruct (IsCoeffOrAtArgValid errno value); cbn [negb]; [| read_fails].
    do 3 eexists. split; [reflexivity |]. split; [reflexivity |].
    split; [apply kept_refl |]. intros _. eauto.
  - destruct (Ascii.eqb (char_at string 0) OPENING_BRACKET); [| read_fails].
    apply (HL fuel' NewDynamicMonoArray [] last handler ltac:(lia) Holds_New).
    constructor.
Qed.

Lemma readers_ok (feof : bool) (n : nat) :
  forall string, (length string < n)%nat ->
                 PolyRead_ok feof string /\ PolyReadLoop_ok feof string
                 /\ MonoRead_ok feof string.
Proof.
  induction n as [| n IH]; intros string Hn; [lia |].
  assert (HM : forall s, (length s < S n)%nat -> MonoRead_ok feof s).
  { intros s Hs. apply MonoRead_step. intros s' Hs'. apply IH. lia. }
  assert (HL : PolyReadLoop_ok feof string).
  { apply PolyReadLoop_step.
    - intros s Hs. apply HM. lia.
    - intros s Hs. apply IH. lia. }
  split; [apply PolyRead_step; exact HL |]. split; [exact HL | apply HM; exact Hn].
Qed.

(** More fuel does not change what a reader returns. *)
Lemma readers_fuel_mono (feof : bool) (fuel : nat) :
  (forall fuel' s last h r,
      (fuel <= fuel')%nat ->
      PolyReadFuel feof fuel s last h = Some r ->
      PolyReadFuel feof fuel' s last h = Some r)
  /\ (forall fuel' s monos last h r,
         (fuel <= fuel')%nat ->
         PolyReadLoop feof fuel s monos last h = Some r ->
         PolyReadLoop feof fuel' s monos last h = Some r)
  /\ (forall fuel' s last h r,
         (fuel <= fuel')%nat ->
         MonoReadFuel feof fuel s last h = Some r ->
         MonoReadFuel feof fuel' s last h = Some r).
Proof.
  induction fuel as [| f [IHP [IHL IHM]]].
  { repeat split; intros; discriminate. }
  repeat split.
  - intros fuel' s last h r Hle H.
    destruct fuel' as [| f']; [lia |]. cbn [PolyReadFuel] in *.
    destruct (isdigit (char_at s 0) || Ascii.eqb (char_at s 0) MINUS_SIGN);
      [exact H |].
    destruct (Ascii.eqb (char_at s 0) OPENING_BRACKET); [| exact H].
    apply (IHL f'); [lia | exact H].
  - intros fuel' s monos last h r Hle H.
    destruct fuel' as [| f']; [lia |]. cbn [PolyReadLoop] in *.
    destruct (if Ascii.eqb (char_at s 0) PLUS_SIGN then next s else Some s)
      as [string1 |]; [| discriminate].
    cbn [bind] in *.
    destruct (MonoReadFuel feof f string1 last h) as [[[to_add last1] handler1] |]
      eqn:EM; [| discriminate].
    rewrite (IHM f' _ _ _ _ ltac:(lia) EM). cbn [bind] in *.
    destruct (IsError handler1); [exact H |].
    destruct last1 as [l |]; [| discriminate]. cbn [bind] in *.
    destruct (next l) as [string2 |]; [| discriminate]. cbn [bind] in *.
    destruct (if negb (PolyIsZero (m_p to_add) && (m_exp to_add =? 0))
              then DynamicMonoArrayAdd monos to_add else Some monos)
      as [monos1 |]; [| discriminate].
    cbn [bind] in *.
    destruct (Ascii.eqb (char_at string2 0) PLUS_SIGN); [| exact H].
    apply (IHL f'); [lia | exact H].
  - intros fuel' s last h r Hle H.
    destruct fuel' as [| f']; [lia |]. cbn [MonoReadFuel] in *.
    destruct (IsError h); [exact H |].
    destruct (negb (Ascii.eqb (char_at s 0) OPENING_BRACKET)); [exact H |].
    destruct (next s) as [string1 |]; [| discriminate]. cbn [bind] in *.
    destruct (PolyReadFuel feof f string1 last h) as [[[coeff last1] handler1] |]
      eqn:EP; [| discriminate].
    rewrite (IHP f' _ _ _ _ ltac:(lia) EP). exact H.
Qed.

(** ** Decimal numerals: what [printf] writes, [strtol] reads back *)

Lemma isdigit_not_space_sign (c : Ascii.ascii) :
  isdigit c = true ->
  isspace c = false /\ Ascii.eqb c MINUS_SIGN = false
  /\ Ascii.eqb c PLUS_SIGN = false.
Proof.
  destruct c as [[] [] [] [] [] [] [] []]; cbv; intros H;
    try discriminate H; repeat split.
Qed.

Lemma read_digits_stop (rest : cstring) (acc : Z) :
  isdigit (char_at rest 0) = false -> read_digits rest acc = (acc, rest).
Proof.
  destruct rest as [| c rest]; [reflexivity |].
  cbn [char_at nth read_digits]. intros ->. reflexivity.
Qed.

Lemma read_digits_acc (d : Decimal.uint) (rest : cstring) :
  isdigit (char_at rest 0) = false ->
  forall acc : positive,
    read_digits (uint_chars d ++ rest) (Zpos acc)
    = (Zpos (Pos.of_uint_acc d acc), rest).
Proof.
  intros Hrest.
  induction d as [| d IH | d IH | d IH | d IH | d IH | d IH | d IH | d IH | d IH | d IH];
    intros acc; cbn [uint_chars app];
    [apply read_digits_stop; exact Hrest | ..];
    cbn [read_digits];
    match goal with
    | |- context [isdigit ?c] => change (isdigit c) with true
    end; cbv iota;
    match goal with
    | |- context [digit_value ?c] =>
        let v := eval cbv in (digit_value c) in change (digit_value c) with v
    end;
    cbn [Pos.of_uint_acc];
    match goal with
    | |- read_digits _ ?a = (Zpos (Pos.of_uint_acc _ ?b), _) =>
        replace a with (Zpos b) by lia
    end; apply IH.
Qed.

Lemma read_digits_uint (d : Decimal.uint) (rest : cstring) :
  isdigit (char_at rest 0) = false ->
  read_digits (uint_chars d ++ rest) 0 = (Z.of_N (Pos.of_uint d), rest).
Proof.
  intros Hrest.
  induction d as [| d IH | d IH | d IH | d IH | d IH | d IH | d IH | d IH | d IH | d IH];
    cbn [uint_chars app];
    [apply read_digits_stop; exact Hrest | ..];
    cbn [read_digits];
    match goal with
    | |- context [isdigit ?c] => change (isdigit c) with true
    end; cbv iota;
    match goal with
    | |- context [digit_value ?c] =>
        let v := eval cbv in (digit_value c) in change (digit_value c) with v
    end;
    cbn [Pos.of_uint Z.of_N Z.mul Z.add];
    [exact IH | ..];
    apply (read_digits_acc d rest Hrest).
Qed.

Lemma uint_chars_digit (d : Decimal.uint) (rest : cstring) :
  d <> Decimal.Nil -> isdigit (char_at (uint_chars d ++ rest) 0) = true.
Proof. destruct d; intros H; [congruence | reflexivity ..]. Qed.

Lemma to_uint_not_Nil (p : positive) : Pos.to_uint p <> Decimal.Nil.
Proof.
  intros H. pose proof (DecimalPos.Unsigned.of_to p) as Hp.
  rewrite H in Hp. discriminate Hp.
Qed.

Lemma read_digits_pos (p : positive) (rest : cstring) :
  isdigit (char_at rest 0) = false ->
  read_digits (uint_chars (Pos.to_uint p) ++ rest) 0 = (Zpos p, rest).
Proof.
  intros Hrest. rewrite read_digits_uint by exact Hrest.
  rewrite DecimalPos.Unsigned.of_to. reflexivity.
Qed.

Lemma strtol_digits (s : cstring) :
  isdigit (char_at s 0) = true ->
  strtol s =
  let '(v, endptr) := read_digits s 0 in
  if v >? LONG_MAX then (LONG_MAX, endptr, ERANGE)
  else if v <? LONG_MIN then (LONG_MIN, endptr, ERANGE)
  else (v, endptr, 0).
Proof.
  intros Hd. unfold strtol. destruct s as [| c s]; [discriminate Hd |].
  cbn [char_at nth] in Hd.
  destruct (isdigit_not_space_sign c Hd) as [Hsp [Hm Hp]].
  cbn [skip_spaces]. rewrite Hsp, Hm, Hp. cbn [char_at nth]. rewrite Hd.
  reflexivity.
Qed.

Lemma strtol_print_Z (c : Z) (rest : cstring) :
  LONG_MIN <= c <= LONG_MAX ->
  isdigit (char_at rest 0) = false ->
  strtol (print_Z c ++ rest) = (c, rest, 0).
Proof.
  intros Hc Hrest. destruct c as [| p | p]; cbn [print_Z].
  - rewrite strtol_digits by reflexivity.
    cbn [app read_digits]. change (isdigit "0") with true. cbv iota.
    rewrite read_digits_stop by exact Hrest. reflexivity.
  - rewrite strtol_digits by (apply uint_chars_digit, to_uint_not_Nil).
    rewrite read_digits_pos by exact Hrest.
    destruct (Z.pos p >? LONG_MAX) eqn:E1; [rewrite Z.gtb_ltb in E1; lia |].
    destruct (Z.pos p <? LONG_MIN) eqn:E2; [unfold LONG_MIN, LONG_MAX in *; lia |].
    reflexivity.
  - unfold strtol. cbn [app skip_spaces].
    change (isspace MINUS_SIGN) with false. cbv iota.
    change (Ascii.eqb MINUS_SIGN MINUS_SIGN) with true. cbv iota.
    rewrite uint_chars_digit by apply to_uint_not_Nil.
    rewrite read_digits_pos by exact Hrest.
    destruct (- Z.pos p >? LONG_MAX) eqn:E1;
      [rewrite Z.gtb_ltb in E1; unfold LONG_MAX in *; lia |].
    destruct (- Z.pos p <? LONG_MIN) eqn:E2; [lia |].
    reflexivity.
Qed.

Lemma print_Z_head (c : Z) (rest : cstring) :
  isdigit (char_at (print_Z c ++ rest) 0)
  || Ascii.eqb (char_at (print_Z c ++ rest) 0) MINUS_SIGN = true.
Proof.
  destruct c as [| p | p]; cbn [print_Z].
  - reflexivity.
  - rewrite uint_chars_digit by apply to_uint_not_Nil. reflexivity.
  - apply orb_true_r.
Qed.

Lemma print_Z_head_digit (c : Z) (rest : cstring) :
  0 <= c -> isdigit (char_at (print_Z c ++ rest) 0) = true.
Proof.
  destruct c as [| p | p]; cbn [print_Z]; intros H.
  - reflexivity.
  - apply uint_chars_digit, to_uint_not_Nil.
  - lia.
Qed.

(** ** Reading back what was printed *)

Lemma ends_poly_head (feof : bool) (rest : cstring) :
  ends_poly feof rest = true ->
  isdigit (char_at rest 0) = false
  /\ Ascii.eqb (char_at rest 0) PLUS_SIGN = false
  /\ (negb (Ascii.eqb (char_at rest 0) SEPARATOR)
      && negb (Ascii.eqb (char_at rest 0) NEWLINE)
      && negb (Ascii.eqb (char_at rest 0) NULL_CHAR))
     || (Ascii.eqb (char_at rest 0) NULL_CHAR && negb feof) = false.
Proof.
  unfold ends_poly. cbv zeta.
  destruct (Ascii.eqb (char_at rest 0) SEPARATOR) eqn:E1.
  { apply Ascii.eqb_eq in E1. rewrite E1. intros _. repeat split. }
  destruct (Ascii.eqb (char_at rest 0) NEWLINE) eqn:E2.
  { apply Ascii.eqb_eq in E2. rewrite E2. intros _. repeat split. }
  destruct (Ascii.eqb (char_at rest 0) NULL_CHAR) eqn:E3; [| discriminate].
  apply Ascii.eqb_eq in E3. rewrite E3. cbn [orb andb]. intros ->. repeat split.
Qed.

Lemma wrap32_upper (v : Z) : - 2 ^ 31 <= wrap32 v <= exp_max.
Proof.
  unfold wrap32, wrap, exp_max.
  pose proof (Z.mod_pos_bound (v + 2 ^ (32 - 1)) (2 ^ 32) ltac:(lia)).
  change (2 ^ (32 - 1)) with (2 ^ 31) in *. lia.
Qed.

Lemma IsExpValid_wrap32 (v : Z) : IsExpValid 0 (wrap32 v) = (0 <=? wrap32 v).
Proof.
  unfold IsExpValid, EXP_LOWER_BOUND, EXP_UPPER_BOUND.
  pose proof (wrap32_upper v) as H. unfold exp_max in H.
  cbn [Z.eqb negb orb].
  destruct (wrap32 v <? 0) eqn:E1; destruct (0 <=? wrap32 v) eqn:E2;
    try lia; cbn [orb negb]; reflexivity.
Qed.

Lemma MonoRead_print (feof : bool) (c : Poly) (sc : cstring) (v : Z) (tail : cstring) :
  reads_back feof c sc -> PolyIsZero c = false -> 0 <= v <= LONG_MAX ->
  forall fuel last handler,
    IsError handler = false ->
    (3 * length (OPENING_BRACKET :: sc ++ SEPARATOR :: print_Z v
                 ++ CLOSING_BRACKET :: tail) + 1 <= fuel)%nat ->
    MonoReadFuel feof fuel
      (OPENING_BRACKET :: sc ++ SEPARATOR :: print_Z v ++ CLOSING_BRACKET :: tail)
      last handler
    = if 0 <=? wrap32 v
      then Some (MkMono c (wrap32 v), Some (CLOSING_BRACKET :: tail), handler)
      else Some (MonoDummy, Some (CLOSING_BRACKET :: tail),
                 ErrorHandlerSetCode handler WRONG_POLY_CODE).
Proof.
  intros Hc Hz Hv fuel last handler Herr Hfuel.
  destruct fuel as [| fuel']; [lia |]. cbn [MonoReadFuel].
  rewrite Herr. cbn [char_at nth]. rewrite Ascii.eqb_refl. cbn [negb next bind].
  cbn [length] in Hfuel.
  rewrite (Hc (SEPARATOR :: print_Z v ++ CLOSING_BRACKET :: tail) fuel' last handler
              eq_refl Herr ltac:(lia)).
  cbn [bind]. rewrite Herr. cbn [bind char_at nth]. rewrite Ascii.eqb_refl.
  cbn [negb].
  change (nth 0 (print_Z v ++ CLOSING_BRACKET :: tail) NULL_CHAR)
    with (char_at (print_Z v ++ CLOSING_BRACKET :: tail) 0).
  rewrite print_Z_head_digit by lia. cbn [negb next bind].
  rewrite strtol_print_Z by (unfold LONG_MIN; first [lia | reflexivity]).
  rewrite IsExpValid_wrap32.
  destruct (0 <=? wrap32 v); cbn [negb]; [| reflexivity].
  cbn [char_at nth]. rewrite Ascii.eqb_refl. cbn [negb]. rewrite Hz. cbn [andb].
  unfold MonoFromPoly. rewrite Hz. rewrite orb_true_r. reflexivity.
Qed.

Lemma PolyReadLoop_print (feof : bool) (rest : cstring) (handler : ErrorHandler) :
  ends_poly feof rest = true -> IsError handler = false ->
  forall (ms : list Mono) (m : Mono) (sc : cstring) (ss : list cstring)
         (pre : cstring) (done : list Mono) (monos : DynamicMonoArray)
         (fuel : nat) (last : option cstring),
    Forall (fun m => forall s, PolyPrint (m_p m) = Some s
                               -> reads_back feof (m_p m) s) (m :: ms) ->
    Forall (fun m => canonical_mono m = true) (m :: ms) ->
    PolyPrint (m_p m) = Some sc ->
    mapM (fun m =>
            s <- PolyPrint (m_p m) ;;
            Some (PLUS_SIGN :: OPENING_BRACKET :: s
                  ++ SEPARATOR :: print_Z (m_exp m) ++ [CLOSING_BRACKET])) ms
    = Some ss ->
    pre = [] \/ pre = [PLUS_SIGN] ->
    Holds monos done ->
    (3 * length (pre ++ OPENING_BRACKET :: sc ++ SEPARATOR :: print_Z (m_exp m)
                 ++ CLOSING_BRACKET :: concat ss ++ rest) + 2 <= fuel)%nat ->
    PolyReadLoop feof fuel
      (pre ++ OPENING_BRACKET :: sc ++ SEPARATOR :: print_Z (m_exp m)
       ++ CLOSING_BRACKET :: concat ss ++ rest) monos last handler
    = (to_return <- PolyAddMonos (length (done ++ m :: ms)) (done ++ m :: ms) ;;
       Some (to_return, Some rest, handler)).
Proof.
  intros Hrest Herr.
  destruct (ends_poly_head feof rest Hrest) as [Hnd [Hnp Hnc]].
  induction ms as [| m' ms IH];
    intros m sc ss pre done monos fuel last Hback Hcan Hsc Hss Hpre Hholds Hfuel.
  - destruct fuel as [| fuel']; [lia |]. cbn [PolyReadLoop].
    inversion Hss. subst ss. cbn [concat app] in *.
    inversion Hback as [| ? ? Hb _]. inversion Hcan as [| ? ? Hc _]. subst.
    destruct (canonical_mono_inv m Hc) as [_ [Hz He]].
    destruct m as [c e]. rewrite m_p_Mk in *. rewrite m_exp_Mk in *.
    match goal with
    | |- bind ?x _ = _ =>
        replace x with (Some (OPENING_BRACKET :: sc ++ SEPARATOR
                              :: print_Z e ++ CLOSING_BRACKET :: rest))
          by (destruct Hpre as [-> | ->]; reflexivity)
    end.
    cbn [bind].
    assert (Hl : (length (OPENING_BRACKET :: sc ++ SEPARATOR
                          :: print_Z e ++ CLOSING_BRACKET :: rest)
                  <= length (pre ++ OPENING_BRACKET :: sc ++ SEPARATOR
                             :: print_Z e ++ CLOSING_BRACKET :: rest))%nat).
    { rewrite (length_app pre). lia. }
    rewrite (MonoRead_print feof c sc e rest (Hb sc Hsc) Hz
               ltac:(unfold LONG_MAX, exp_max in *; lia) fuel' last handler Herr
               ltac:(lia)).
    rewrite wrap32_small by (unfold exp_max in *; lia).
    replace (0 <=? e) with true by (symmetry; apply Z.leb_le; lia).
    cbn [bind]. rewrite Herr. cbn [bind next]. rewrite m_p_Mk, Hz. cbn [andb negb].
    destruct (DynamicMonoArrayAdd_Holds monos done (MkMono c e) Hholds)
      as [d' [-> Hh']].
    cbn [bind]. rewrite Hnp. cbv zeta. rewrite Hnc.
    destruct (Holds_Contents d' _ Hh') as [-> ->]. cbn [bind]. reflexivity.
  - destruct fuel as [| fuel']; [lia |]. cbn [PolyReadLoop].
    cbn [mapM] in Hss. apply bind_Some in Hss. destruct Hss as [s' [Hs' Hss]].
    apply bind_Some in Hs'. destruct Hs' as [sc' [Hsc' Hs']].
    inversion Hs'. subst s'. clear Hs'.
    apply bind_Some in Hss. destruct Hss as [ss' [Hss' Hss]].
    inversion Hss. subst ss. clear Hss.
    inversion Hback as [| ? ? Hb Hback']. inversion Hcan as [| ? ? Hc Hcan']. subst.
    destruct (canonical_mono_inv m Hc) as [_ [Hz He]].
    destruct m as [c e]. rewrite m_p_Mk in *. rewrite m_exp_Mk in *.
    set (tail := concat ((PLUS_SIGN :: OPENING_BRACKET :: sc' ++ SEPARATOR
                          :: print_Z (m_exp m') ++ [CLOSING_BRACKET]) :: ss') ++ rest)
      in *.
    match goal with
    | |- bind ?x _ = _ =>
        replace x with (Some (OPENING_BRACKET :: sc ++ SEPARATOR
                              :: print_Z e ++ CLOSING_BRACKET :: tail))
          by (destruct Hpre as [-> | ->]; reflexivity)
    end.
    cbn [bind].
    assert (Hl : (length (OPENING_BRACKET :: sc ++ SEPARATOR
                          :: print_Z e ++ CLOSING_BRACKET :: tail)
                  <= length (pre ++ OPENING_BRACKET :: sc ++ SEPARATOR
                             :: print_Z e ++ CLOSING_BRACKET :: tail))%nat).
    { rewrite (length_app pre). lia. }
    rewrite (MonoRead_print feof c sc e tail (Hb sc Hsc) Hz
               ltac:(unfold LONG_MAX, exp_max in *; lia) fuel' last handler Herr
               ltac:(lia)).
    rewrite wrap32_small by (unfold exp_max in *; lia).
    replace (0 <=? e) with true by (symmetry; apply Z.leb_le; lia).
    cbn [bind]. rewrite Herr. cbn [bind next]. rewrite m_p_Mk, Hz. cbn [andb negb].
    destruct (DynamicMonoArrayAdd_Holds monos done (MkMono c e) Hholds)
      as [d' [-> Hh']].
    cbn [bind].
    assert (Htail : tail = [PLUS_SIGN] ++ OPENING_BRACKET :: sc' ++ SEPARATOR
                           :: print_Z (m_exp m') ++ CLOSING_BRACKET
                           :: concat ss' ++ rest).
    { subst tail. cbn [concat app]. rewrite <- !app_assoc. cbn [app].
      rewrite <- !app_assoc. reflexivity. }
    assert (Hlt : (length tail + length sc + 2
                   <= length (OPENING_BRACKET :: sc ++ SEPARATOR
                              :: print_Z e ++ CLOSING_BRACKET :: tail))%nat).
    { cbn [length]. rewrite length_app. cbn [length]. rewrite length_app.
      cbn [length]. lia. }
    rewrite Htail at 1. cbn [app char_at nth]. rewrite Ascii.eqb_refl.
    rewrite Htail at 1.
    rewrite (IH m' sc' ss' [PLUS_SIGN] (done ++ [MkMono c e]) d' fuel'
               (Some (CLOSING_BRACKET :: tail)) Hback' Hcan' Hsc' Hss'
               (or_intror eq_refl) Hh').
    + rewrite <- app_assoc. reflexivity.
    + rewrite <- Htail. lia.
Qed.

Lemma IsCoeffOrAtArgValid_range (c : Z) :
  LONG_MIN <= c <= LONG_MAX -> IsCoeffOrAtArgValid 0 c = true.
Proof.
  intros H. unfold IsCoeffOrAtArgValid. cbn [Z.eqb negb orb].
  rewrite Z.gtb_ltb.
  destruct (c <? LONG_MIN) eqn:E1; [lia |].
  destruct (LONG_MAX <? c) eqn:E2; [lia | reflexivity].
Qed.

Lemma PolyPrint_reads_back (feof : bool) (p : Poly) :
  canonical p = true -> forall s, PolyPrint p = Some s -> reads_back feof p s.
Proof.
  induction p as [c | arr IH] using Poly_nested_ind;
    intros Hcan s Hs rest fuel last handler Hrest Herr Hfuel.
  - cbn [PolyPrint] in Hs. inversion Hs. subst s. clear Hs.
    destruct (ends_poly_head feof rest Hrest) as [Hnd _].
    apply canonical_Coeff_range in Hcan.
    assert (Hc : LONG_MIN <= c <= LONG_MAX)
      by (unfold LONG_MIN, LONG_MAX, coeff_min, coeff_max in *; lia).
    destruct fuel as [| fuel']; [lia |]. cbn [PolyReadFuel].
    rewrite print_Z_head. rewrite strtol_print_Z by assumption.
    cbv zeta. rewrite IsCoeffOrAtArgValid_range by exact Hc. reflexivity.
  - pose proof Hcan as Hcan0.
    apply canonical_Terms in Hcan. destruct Hcan as [Hn [_ [_ Hall]]].
    destruct arr as [| m ms]; [congruence |].
    cbn [PolyPrint] in Hs.
    apply bind_Some in Hs. destruct Hs as [s0 [Hs0 Hs]].
    apply bind_Some in Hs0. destruct Hs0 as [sc [Hsc Hs0]].
    inversion Hs0. subst s0. clear Hs0.
    apply bind_Some in Hs. destruct Hs as [ss [Hss Hs]].
    inversion Hs. subst s. clear Hs.
    match goal with
    | |- PolyReadFuel _ _ ?str _ _ = _ =>
        assert (Hstr : str = [] ++ OPENING_BRACKET :: sc ++ SEPARATOR
                             :: print_Z (m_exp m) ++ CLOSING_BRACKET
                             :: concat ss ++ rest)
    end.
    { cbn [app]. rewrite <- !app_assoc. cbn [app]. rewrite <- ?app_assoc.
      reflexivity. }
    rewrite Hstr in *.
    destruct fuel as [| fuel']; [lia |]. cbn [PolyReadFuel].
    cbn [app char_at nth].
    change (isdigit OPENING_BRACKET || Ascii.eqb OPENING_BRACKET MINUS_SIGN)
      with false. cbv iota.
    rewrite Ascii.eqb_refl.
    change (OPENING_BRACKET :: sc ++ SEPARATOR :: print_Z (m_exp m)
            ++ CLOSING_BRACKET :: concat ss ++ rest)
      with ([] ++ OPENING_BRACKET :: sc ++ SEPARATOR :: print_Z (m_exp m)
            ++ CLOSING_BRACKET :: concat ss ++ rest).
    rewrite (PolyReadLoop_print feof rest handler Hrest Herr ms m sc ss [] []
               NewDynamicMonoArray fuel' last).
    + cbn [app]. rewrite (PolyAddMonos_canonical _ Hcan0). reflexivity.
    + rewrite Forall_forall in *. intros x Hx s Hxs. apply (IH x Hx); [| exact Hxs].
      apply (canonical_mono_inv x (Hall x Hx)).
    + exact Hall.
    + exact Hsc.
    + exact Hss.
    + left. reflexivity.
    + apply Holds_New.
    + lia.
Qed.

Lemma PolyPrint_defined (p : Poly) :
  nonempty_terms p = true -> exists s, PolyPrint p = Some s.
Proof.
  induction p as [c | arr IH] using Poly_nested_ind; intros Hne.
  - eexists. reflexivity.
  - apply nonempty_terms_Terms in Hne. destruct Hne as [Hn Hall].
    destruct arr as [| m ms]; [congruence |].
    inversion IH as [| ? ? IHm IHms]. inversion Hall as [| ? ? Hm Hms]. subst.
    cbn [PolyPrint]. destruct (IHm Hm) as [sc ->]. cbn [bind].
    assert (H : exists ss,
               mapM (fun m =>
                       s <- PolyPrint (m_p m) ;;
                       Some (PLUS_SIGN :: OPENING_BRACKET :: s
                             ++ SEPARATOR :: print_Z (m_exp m)
                             ++ [CLOSING_BRACKET])) ms = Some ss).
    { clear - IHms Hms. induction ms as [| a ms IHl]; [eexists; reflexivity |].
      inversion IHms. inversion Hms. subst.
      cbn [mapM]. destruct (H1 H5) as [sa ->]. cbn [bind].
      destruct (IHl H2 H6) as [ss ->]. cbn [bind]. eexists. reflexivity. }
    destruct H as [ss ->]. cbn [bind]. eexists. reflexivity.
Qed.

Lemma canonical_nonempty (p : Poly) : canonical p = true -> nonempty_terms p = true.
Proof.
  intros H. apply canonical_wfB in H.
  apply (PolyClone_defined_nonempty p p). apply (PolyClone_wfB exp_max). exact H.
Qed.



(** * The calculator *)

Lemma DoHandleErrorCode_underflow (w : Machine) (n : nat) :
  DoHandleErrorCode w STACK_UNDERFLOW_CODE n
  = Some (Returns (reported w n "STACK UNDERFLOW")).
Proof. reflexivity. Qed.

Lemma DoHandleErrorCode_wrong_command (w : Machine) (n : nat) :
  DoHandleErrorCode w WRONG_COMMAND_CODE n
  = Some (Returns (reported w n "WRONG COMMAND")).
Proof. reflexivity. Qed.

Lemma DoHandleError_wrong_poly (w : Machine) (n : nat) :
  DoHandleError w (ErrorHandlerSetCode (NewErrorHandler n) WRONG_POLY_CODE)
  = Some (Returns (reported w n "WRONG POLY")).
Proof. reflexivity. Qed.

Lemma CalcReadLine_poly_line (feof : bool) (w : Machine) (l : list Poly)
      (line : cstring) (n : nat) :
  Represents (stack w) l ->
  isalpha (char_at line 0) = false ->
  Ascii.eqb (char_at line 0) COMMENT_CHAR = false ->
  Ascii.eqb (char_at line 0) NEWLINE = false ->
  (exists p s, CalcReadLine feof w (Some line) n = Some (Returns (with_stack w s))
               /\ Represents s (l ++ [p]) /\ wfB exp_max p = true)
  \/ CalcReadLine feof w (Some line) n = Some (Returns (reported w n "WRONG POLY")).
Proof.
  intros Hrep Ha Hc Hn. unfold CalcReadLine. rewrite Hc, Hn, Ha. cbn [orb].
  destruct (readers_ok feof (S (length line)) line (Nat.lt_succ_diag_r _)) as [HP _].
  destruct (HP (3 * length line + 3)%nat None (NewErrorHandler n) (le_n _))
    as [p [last' [h' [Hr [Hwf [Hk Hl]]]]]].
  unfold PolyRead. rewrite Hr. cbn [bind].
  set (handler2 := match last' with
                   | Some h =>
                       if negb (Ascii.eqb (char_at h 0) NEWLINE)
                          && negb (Ascii.eqb (char_at h 0) NULL_CHAR && feof)
                       then ErrorHandlerSetCode h' WRONG_POLY_CODE
                       else h'
                   | None => h'
                   end).
  assert (H2 : kept_or_wrong_poly (NewErrorHandler n) handler2).
  { subst handler2. destruct last' as [h |]; [| exact Hk].
    destruct (negb (Ascii.eqb (char_at h 0) NEWLINE)
              && negb (Ascii.eqb (char_at h 0) NULL_CHAR && feof)); [| exact Hk].
    destruct Hk as [-> | ->]; right; reflexivity. }
  destruct H2 as [-> | ->].
  - left. cbn [IsError NewErrorHandler code Z.eqb negb].
    destruct (Push_Represents (stack w) l p Hrep) as [s [Hs Hrs]].
    rewrite Hs. cbn [bind]. exists p, s. auto.
  - right. rewrite IsError_wrong_poly. apply DoHandleError_wrong_poly.
Qed.

Ltac eval_InstrCmp :=
  repeat match goal with
         | |- context [InstrCmp ?f ?a ?b] =>
             let v := eval lazy in (InstrCmp f a b) in
             change (InstrCmp f a b) with v
         end.

Lemma uint_chars_head (d : Decimal.uint) (rest : cstring) :
  d <> Decimal.Nil ->
  isalpha (char_at (uint_chars d ++ rest) 0) = false
  /\ Ascii.eqb (char_at (uint_chars d ++ rest) 0) COMMENT_CHAR = false
  /\ Ascii.eqb (char_at (uint_chars d ++ rest) 0) NEWLINE = false.
Proof. destruct d; intros H; [congruence | repeat split ..]. Qed.

Lemma PolyPrint_head (p : Poly) (text rest : cstring) :
  PolyPrint p = Some text ->
  isalpha (char_at (text ++ rest) 0) = false
  /\ Ascii.eqb (char_at (text ++ rest) 0) COMMENT_CHAR = false
  /\ Ascii.eqb (char_at (text ++ rest) 0) NEWLINE = false.
Proof.
  destruct p as [c | arr]; cbn [PolyPrint]; intros H.
  - inversion H. subst text. destruct c as [| q | q]; cbn [print_Z].
    + repeat split.
    + apply uint_chars_head, to_uint_not_Nil.
    + repeat split.
  - destruct arr as [| m ms]; [discriminate |].
    apply bind_Some in H. destruct H as [s0 [Hs0 H]].
    apply bind_Some in Hs0. destruct Hs0 as [sc [_ Hs0]]. inversion Hs0. subst s0.
    apply bind_Some in H. destruct H as [ss [_ H]]. inversion H. subst text.
    repeat split.
Qed.

Lemma Represents_not_empty (s : Tstack) (l : list Poly) (p : Poly) :
  Represents s (l ++ [p]) -> StackIsEmpty s = false.
Proof.
  intros [Hsize _]. unfold StackIsEmpty. rewrite Hsize, length_app.
  cbn [length]. apply Nat.eqb_neq. lia.
Qed.

Lemma CalcReadLine_PRINT (feof : bool) (w : Machine) (l : list Poly) (p : Poly)
      (text : cstring) (n : nat) :
  Represents (stack w) (l ++ [p]) -> PolyPrint p = Some text ->
  exists s, CalcReadLine feof w (Some (line_of PRINT_STRING)) n
            = Some (Returns (printf (with_stack w s) (text ++ [NEWLINE])))
            /\ Represents s (l ++ [p]).
Proof.
  intros Hrep Htext. unfold CalcReadLine.
  change (char_at (line_of PRINT_STRING) 0) with "P"%char.
  change (Ascii.eqb "P" COMMENT_CHAR || Ascii.eqb "P" NEWLINE) with false.
  change (isalpha "P") with true. cbv iota.
  unfold CalcInterpretOperation. eval_InstrCmp. cbv iota.
  unfold UnaryOperation. rewrite (Represents_not_empty _ _ _ Hrep).
  destruct (Pop_Represents _ _ _ Hrep) as [s1 [-> Hrep1]]. cbn [bind].
  eval_InstrCmp. cbv iota. unfold CalcPrint. rewrite Htext. cbn [bind].
  destruct (Push_Represents s1 l p Hrep1) as [s2 [-> Hrep2]]. cbn [bind].
  exists s2. split; [reflexivity | exact Hrep2].
Qed.

Lemma CalcReadLine_printed (feof : bool) (w : Machine) (l : list Poly) (p : Poly)
      (text : cstring) (n : nat) :
  Represents (stack w) l -> canonical p = true -> PolyPrint p = Some text ->
  exists s, CalcReadLine feof w (Some (line_of text)) n
            = Some (Returns (with_stack w s))
            /\ Represents s (l ++ [p]).
Proof.
  intros Hrep Hcan Htext. unfold CalcReadLine, line_of.
  destruct (PolyPrint_head p text [NEWLINE] Htext) as [Ha [Hc Hn]].
  rewrite Hc, Hn, Ha. cbn [orb].
  unfold PolyRead.
  rewrite (PolyPrint_reads_back feof p Hcan text Htext [NEWLINE] _ None
             (NewErrorHandler n) eq_refl eq_refl (le_n _)).
  cbn [bind char_at nth]. rewrite Ascii.eqb_refl. cbn [negb andb].
  cbn [IsError NewErrorHandler code Z.eqb negb].
  destruct (Push_Represents (stack w) l p Hrep) as [s [-> Hrs]]. cbn [bind].
  exists s. auto.
Qed.

Lemma Pop_two (s : Tstack) (l : list Poly) (second first : Poly) :
  Represents s (l ++ [second; first]) ->
  exists s1 s2, Pop s = Some (first, s1) /\ Pop s1 = Some (second, s2)
                /\ Represents s2 l
                /\ StackDoesHaveAtLeastTwoElements s = true.
Proof.
  intros Hrep.
  assert (Htwo : StackDoesHaveAtLeastTwoElements s = true).
  { destruct Hrep as [Hsize _]. unfold StackDoesHaveAtLeastTwoElements.
    rewrite Hsize, length_app. cbn [length]. apply Nat.leb_le. lia. }
  change (l ++ [second; first]) with (l ++ [second] ++ [first]) in Hrep.
  rewrite app_assoc in Hrep.
  destruct (Pop_Represents _ _ _ Hrep) as [s1 [H1 Hrep1]].
  destruct (Pop_Represents _ _ _ Hrep1) as [s2 [H2 Hrep2]].
  exists s1, s2. auto.
Qed.

Lemma Calc_ADD (feof : bool) (w : Machine) (l : list Poly) (p q r : Poly) (n : nat) :
  Represents (stack w) (l ++ [q; p]) -> PolyAdd p q = Some r ->
  exists s, CalcInterpretOperation feof w (line_of ADD_STRING) n
            = Some (Returns (with_stack w s))
            /\ Represents s (l ++ [r]).
Proof.
  intros Hrep Hr. destruct (Pop_two _ _ _ _ Hrep) as [s1 [s2 [H1 [H2 [Hrep2 Htwo]]]]].
  unfold CalcInterpretOperation. eval_InstrCmp. cbv iota.
  unfold BinaryOperation. rewrite Htwo. cbn [negb]. rewrite H1. cbn [bind].
  rewrite H2. cbn [bind]. eval_InstrCmp. cbv iota.
  unfold CalcAdd. rewrite Hr. cbn [bind].
  destruct (Push_Represents s2 l r Hrep2) as [s3 [-> Hrep3]]. cbn [bind].
  exists s3. auto.
Qed.

Lemma Calc_SUB (feof : bool) (w : Machine) (l : list Poly) (p q r : Poly) (n : nat) :
  Represents (stack w) (l ++ [q; p]) -> PolySub p q = Some r ->
  exists s, CalcInterpretOperation feof w (line_of SUB_STRING) n
            = Some (Returns (with_stack w s))
            /\ Represents s (l ++ [r]).
Proof.
  intros Hrep Hr. destruct (Pop_two _ _ _ _ Hrep) as [s1 [s2 [H1 [H2 [Hrep2 Htwo]]]]].
  unfold CalcInterpretOperation. eval_InstrCmp. cbv iota.
  unfold BinaryOperation. rewrite Htwo. cbn [negb]. rewrite H1. cbn [bind].
  rewrite H2. cbn [bind]. eval_InstrCmp. cbv iota.
  unfold CalcSub. rewrite Hr. cbn [bind].
  destruct (Push_Represents s2 l r Hrep2) as [s3 [-> Hrep3]]. cbn [bind].
  exists s3. auto.
Qed.

Lemma Calc_MUL (feof : bool) (w : Machine) (l : list Poly) (p q r : Poly) (n : nat) :
  Represents (stack w) (l ++ [q; p]) -> PolyMul p q = Some r ->
  exists s, CalcInterpretOperation feof w (line_of MUL_STRING) n
            = Some (Returns (with_stack w s))
            /\ Represents s (l ++ [r]).
Proof.
  intros Hrep Hr. destruct (Pop_two _ _ _ _ Hrep) as [s1 [s2 [H1 [H2 [Hrep2 Htwo]]]]].
  unfold CalcInterpretOperation. eval_InstrCmp. cbv iota.
  unfold BinaryOperation. rewrite Htwo. cbn [negb]. rewrite H1. cbn [bind].
  rewrite H2. cbn [bind]. eval_InstrCmp. cbv iota.
  unfold CalcMul. rewrite Hr. cbn [bind].
  destruct (Push_Represents s2 l r Hrep2) as [s3 [-> Hrep3]]. cbn [bind].
  exists s3. auto.
Qed.

Lemma Calc_IS_EQ (feof : bool) (w : Machine) (l : list Poly) (p q : Poly) (n : nat) :
  Represents (stack w) (l ++ [q; p]) ->
  exists s, CalcInterpretOperation feof w (line_of IS_EQ_STRING) n
            = Some (Returns (printf (with_stack w s)
                               (if PolyIsEq p q then TRUE_STRING else FALSE_STRING)))
            /\ Represents s (l ++ [q; p]).
Proof.
  intros Hrep. destruct (Pop_two _ _ _ _ Hrep) as [s1 [s2 [H1 [H2 [Hrep2 Htwo]]]]].
  unfold CalcInterpretOperation. eval_InstrCmp. cbv iota.
  unfold BinaryOperation. rewrite Htwo. cbn [negb]. rewrite H1. cbn [bind].
  rewrite H2. cbn [bind]. eval_InstrCmp. cbv iota.
  destruct (Push_Represents s2 l q Hrep2) as [s3 [-> Hrep3]]. cbn [bind].
  destruct (Push_Represents s3 _ p Hrep3) as [s4 [-> Hrep4]]. cbn [bind].
  exists s4. split; [reflexivity |].
  rewrite <- app_assoc in Hrep4. exact Hrep4.
Qed.

Lemma strtoull_print_Z (c : Z) (rest : cstring) :
  0 <= c <= ULLONG_MAX ->
  isdigit (char_at rest 0) = false ->
  strtoull (print_Z c ++ rest) = (c, rest, 0).
Proof.
  intros Hc Hrest. unfold strtoull.
  assert (Hd : isdigit (char_at (print_Z c ++ rest) 0) = true)
    by (apply print_Z_head_digit; lia).
  destruct (print_Z c ++ rest) as [| a s] eqn:Es; [discriminate Hd |].
  cbn [char_at nth] in Hd.
  destruct (isdigit_not_space_sign a Hd) as [Hsp [Hm Hp]].
  cbn [skip_spaces]. rewrite Hsp, Hm, Hp. cbn [char_at nth]. rewrite Hd.
  rewrite <- Es.
  assert (Hr : read_digits (print_Z c ++ rest) 0 = (c, rest)).
  { destruct c as [| p | p]; cbn [print_Z].
    - cbn [app read_digits]. change (isdigit "0") with true. cbv iota.
      apply read_digits_stop. exact Hrest.
    - apply read_digits_pos. exact Hrest.
    - lia. }
  rewrite Hr.
  destruct (c >? ULLONG_MAX) eqn:E; [rewrite Z.gtb_ltb in E; lia | reflexivity].
Qed.

Lemma PopArray_Represents (l qs : list Poly) :
  forall s, Represents s (l ++ qs) ->
            exists s', PopArray (length qs) s = Some (qs, s') /\ Represents s' l.
Proof.
  induction qs as [| a qs IH] using rev_ind; intros s Hrep.
  - rewrite app_nil_r in Hrep. exists s. split; [reflexivity | exact Hrep].
  - rewrite app_assoc in Hrep.
    destruct (Pop_Represents _ _ _ Hrep) as [s1 [H1 Hrep1]].
    destruct (IH s1 Hrep1) as [s2 [H2 Hrep2]].
    rewrite length_app. cbn [length]. rewrite Nat.add_1_r. cbn [PopArray].
    rewrite H1. cbn [bind snd fst]. rewrite H2. cbn [bind snd fst].
    exists s2. auto.
Qed.

Lemma compose_line_parsed (feof : bool) (w : Machine) (k n : nat) :
  Z.of_nat k <= ULLONG_MAX ->
  CalcInterpretOperation feof w (compose_line k) n
  = if (Z.of_nat (StackSize (stack w)) - 1) mod 2 ^ 64 <? Z.of_nat k then
      DoHandleErrorCode w STACK_UNDERFLOW_CODE n
    else
      popped <- Pop (stack w) ;;
      filled <- PopArray k (snd popped) ;;
      result <- PolyCompose (fst popped) k (fst filled) ;;
      s2 <- Push (snd filled) result ;;
      Some (Returns (with_stack w s2)).
Proof.
  intros Hk. unfold CalcInterpretOperation, compose_line. eval_InstrCmp. cbv iota.
  change (strncmp_eq (COMPOSE_WITH_SPACE_STRING ++ print_nat k ++ [NEWLINE])
            DEG_BY_STRING DEG_BY_LEN) with false.
  change (strncmp_eq (COMPOSE_WITH_SPACE_STRING ++ print_nat k ++ [NEWLINE])
            AT_STRING AT_LEN) with false.
  change (strncmp_eq (COMPOSE_WITH_SPACE_STRING ++ print_nat k ++ [NEWLINE])
            COMPOSE_STRING COMPOSE_LEN) with true.
  cbv iota. unfold ParametricUnaryOperation.
  change (strncmp_eq (COMPOSE_WITH_SPACE_STRING ++ print_nat k ++ [NEWLINE])
            DEG_BY_STRING DEG_BY_LEN) with false.
  change (strncmp_eq (COMPOSE_WITH_SPACE_STRING ++ print_nat k ++ [NEWLINE])
            AT_STRING AT_LEN) with false.
  change (strncmp_eq (COMPOSE_WITH_SPACE_STRING ++ print_nat k ++ [NEWLINE])
            COMPOSE_STRING COMPOSE_LEN) with true.
  change (strncmp_eq (COMPOSE_WITH_SPACE_STRING ++ print_nat k ++ [NEWLINE])
            COMPOSE_WITH_SPACE_STRING (COMPOSE_LEN + 1)) with true.
  cbv iota.
  change (char_at (COMPOSE_WITH_SPACE_STRING ++ print_nat k ++ [NEWLINE])
            (COMPOSE_LEN + 1))
    with (char_at (print_nat k ++ [NEWLINE]) 0).
  change (skipn (COMPOSE_LEN + 1)
            (COMPOSE_WITH_SPACE_STRING ++ print_nat k ++ [NEWLINE]))
    with (print_nat k ++ [NEWLINE]).
  unfold print_nat.
  rewrite print_Z_head_digit by lia. cbn [andb].
  rewrite strtoull_print_Z by (first [lia | reflexivity]).
  change (bad_ending feof [NEWLINE]) with false.
  assert (Hv : IsComposeValid 0 (Z.of_nat k) = true).
  { unfold IsComposeValid. cbn [Z.eqb negb orb]. rewrite Z.gtb_ltb.
    destruct (ULLONG_MAX <? Z.of_nat k) eqn:E; [lia | reflexivity]. }
  rewrite Hv. cbn [negb orb]. rewrite Nat2Z.id.
  destruct ((Z.of_nat (StackSize (stack w)) - 1) mod 2 ^ 64 <? Z.of_nat k);
    [reflexivity |].
  destruct (Pop (stack w)) as [[main_to_compose s] |]; [| reflexivity].
  cbn [bind fst snd].
  destruct (PopArray k s) as [[arr s1] |]; reflexivity.
Qed.

Lemma Calc_COMPOSE (feof : bool) (w : Machine) (l qs : list Poly) (p r : Poly)
      (n : nat) :
  Represents (stack w) (l ++ qs ++ [p]) ->
  Z.of_nat (length (l ++ qs ++ [p])) <= ULLONG_MAX ->
  PolyCompose p (length qs) qs = Some r ->
  exists s, CalcInterpretOperation feof w (compose_line (length qs)) n
            = Some (Returns (with_stack w s))
            /\ Represents s (l ++ [r]).
Proof.
  intros Hrep Hlen Hr.
  assert (Hsize : StackSize (stack w) = length (l ++ qs ++ [p]))
    by (destruct Hrep as [H _]; exact H).
  rewrite !length_app in Hlen, Hsize. cbn [length] in Hlen, Hsize.
  rewrite compose_line_parsed by lia. rewrite Hsize.
  unfold ULLONG_MAX in Hlen.
  rewrite Z.mod_small by lia.
  destruct (Z.of_nat (length l + (length qs + 1)) - 1 <? Z.of_nat (length qs)) eqn:E;
    [apply Z.ltb_lt in E; lia |].
  rewrite !app_assoc in Hrep.
  destruct (Pop_Represents _ _ _ Hrep) as [s1 [-> Hrep1]]. cbn [bind fst snd].
  destruct (PopArray_Represents l qs s1 Hrep1) as [s2 [-> Hrep2]].
  cbn [bind fst snd]. rewrite Hr. cbn [bind].
  destruct (Push_Represents s2 l r Hrep2) as [s3 [-> Hrep3]]. cbn [bind].
  exists s3. auto.
Qed.

Lemma Calc_COMPOSE_underflow (feof : bool) (w : Machine) (l : list Poly) (k n : nat) :
  Represents (stack w) l -> (1 <= length l <= k)%nat -> Z.of_nat k <= ULLONG_MAX ->
  CalcInterpretOperation feof w (compose_line k) n
  = Some (Returns (reported w n "STACK UNDERFLOW")).
Proof.
  intros Hrep Hl Hk.
  assert (Hsize : StackSize (stack w) = length l) by (destruct Hrep as [H _]; exact H).
  rewrite compose_line_parsed by lia. rewrite Hsize.
  unfold ULLONG_MAX in Hk. rewrite Z.mod_small by lia.
  destruct (Z.of_nat (length l) - 1 <? Z.of_nat k) eqn:E;
    [reflexivity | apply Z.ltb_ge in E; lia].
Qed.

Lemma read_line_spec (input : cstring) :
  forall line remaining eof,
    read_line input = (line, remaining, eof) ->
    input = line ++ remaining
    /\ (input <> [] -> (length remaining < length input)%nat).
Proof.
  induction input as [| c input IH]; intros line remaining eof H.
  - inversion H. subst. split; [reflexivity | congruence].
  - cbn [read_line] in H. destruct (Ascii.eqb c NEWLINE).
    + inversion H. subst. split; [reflexivity |]. intros _. cbn [length]. lia.
    + destruct (read_line input) as [[line' remaining'] eof'].
      inversion H. subst. destruct (IH _ _ _ eq_refl) as [H1 H2].
      split; [cbn [app]; f_equal; exact H1 |]. intros _.
      cbn [length]. destruct input as [| a input'].
      * destruct line'; [| discriminate]. cbn [app] in H1. subst. cbn. lia.
      * specialize (H2 ltac:(discriminate)). lia.
Qed.

(** More turns than the input has characters are never used. *)
Lemma MainLoop_turns (turns : nat) :
  forall turns' input feof n w,
    (feof = true \/ length input < turns)%nat ->
    (feof = true \/ length input < turns')%nat ->
    MainLoop turns input feof n w = MainLoop turns' input feof n w.
Proof.
  induction turns as [| t IH]; intros turns' input feof n w H H'.
  - destruct H as [-> | H]; [| lia]. destruct turns'; reflexivity.
  - destruct feof.
    + destruct turns'; reflexivity.
    + destruct H as [H | H]; [discriminate |].
      destruct H' as [H' | H']; [discriminate |].
      destruct turns' as [| t']; [lia |]. cbn [MainLoop].
      unfold getline. destruct input as [| c input'].
      * destruct (CalcReadLine true w None (S n)) as [[w1 | status] |];
          try reflexivity.
        destruct t, t'; reflexivity.
      * pose proof (read_line_spec (c :: input')) as Hs.
        destruct (read_line (c :: input')) as [[line remaining] eof].
        destruct (Hs _ _ _ eq_refl) as [_ Hlt].
        specialize (Hlt ltac:(discriminate)).
        destruct (CalcReadLine eof w (Some line) (S n)) as [[w1 | status] |];
          try reflexivity.
        apply IH; right; lia.
Qed.

Lemma read_line_Forall (P : Ascii.ascii -> Prop) (input : cstring) :
  forall line remaining eof,
    read_line input = (line, remaining, eof) ->
    Forall P input -> Forall P line /\ Forall P remaining.
Proof.
  intros line remaining eof H Hall.
  destruct (read_line_spec input _ _ _ H) as [Heq _]. subst input.
  apply Forall_app in Hall. exact Hall.
Qed.

Lemma CalcReadLine_no_letter (feof : bool) (w : Machine) (l : list Poly)
      (line : option cstring) (n : nat) :
  Represents (stack w) l ->
  (forall text, line = Some text -> isalpha (char_at text 0) = false) ->
  exists w' l', CalcReadLine feof w line n = Some (Returns w')
                /\ Represents (stack w') l' /\ stdout w' = stdout w.
Proof.
  intros Hrep Hline. destruct line as [text |].
  - specialize (Hline text eq_refl).
    destruct (Ascii.eqb (char_at text 0) COMMENT_CHAR) eqn:Ec.
    { exists w, l. unfold CalcReadLine. rewrite Ec. auto. }
    destruct (Ascii.eqb (char_at text 0) NEWLINE) eqn:En.
    { exists w, l. unfold CalcReadLine. rewrite Ec, En. auto. }
    destruct (CalcReadLine_poly_line feof w l text n Hrep Hline Ec En)
      as [[p [s [-> [Hs _]]]] | ->].
    + exists (with_stack w s), (l ++ [p]). auto.
    + exists (reported w n "WRONG POLY"), l. auto.
  - exists w, l. auto.
Qed.

Lemma MainLoop_no_letter (turns : nat) :
  forall input feof n w l,
    Forall (fun c => isalpha c = false) input ->
    Represents (stack w) l ->
    (feof = true \/ length input < turns)%nat ->
    exists w' l', MainLoop turns input feof n w = Some (Returns w')
                  /\ Represents (stack w') l' /\ stdout w' = stdout w.
Proof.
  induction turns as [| t IH]; intros input feof n w l Hall Hrep H.
  - destruct H as [-> | H]; [| lia]. exists w, l. auto.
  - destruct feof; [exists w, l; auto |].
    destruct H as [H | H]; [discriminate |].
    cbn [MainLoop]. unfold getline. destruct input as [| c input'].
    + destruct (CalcReadLine_no_letter true w l None (S n) Hrep)
        as [w1 [l1 [-> [Hrep1 Hout1]]]]; [discriminate |].
      exists w1, l1. destruct t; auto.
    + pose proof (read_line_spec (c :: input')) as Hs.
      pose proof (read_line_Forall (fun c => isalpha c = false) (c :: input')) as Hf.
      destruct (read_line (c :: input')) as [[line remaining] eof].
      destruct (Hs _ _ _ eq_refl) as [Heq Hlt].
      specialize (Hlt ltac:(discriminate)).
      destruct (Hf _ _ _ eq_refl Hall) as [Hfl Hfr].
      destruct (CalcReadLine_no_letter eof w l (Some line) (S n) Hrep)
        as [w1 [l1 [-> [Hrep1 Hout1]]]].
      { intros text Ht. inversion Ht. subst text.
        destruct line as [| a line']; [reflexivity |].
        inversion Hfl. assumption. }
      destruct (IH remaining eof (S n) w1 l1 Hfr Hrep1 ltac:(right; lia))
        as [w2 [l2 [-> [Hrep2 Hout2]]]].
      exists w2, l2. split; [reflexivity |]. split; [exact Hrep2 | congruence].
Qed.

Lemma Empty_Represents (s : Tstack) (l : list Poly) :
  Represents s l -> Empty s = Some StackInit.
Proof.
  intros Hrep. unfold Empty. rewrite (proj1 Hrep).
  apply EmptyLoop_Represents. exact Hrep.
Qed.

Lemma Represents_StackInit : Represents StackInit [].
Proof. repeat split. cbn. lia. Qed.

(** * Further verified properties *)

(** X1: the sum of two canonical polynomials is defined, canonical again,
    and its value is the sum of the two values. *)
Theorem PolyAdd_canonical_sum (p q : Poly) :
  canonical p = true -> canonical q = true ->
  exists r, PolyAdd p q = Some r /\ canonical r = true
            /\ forall env d, eqm64 (eval env d r) (eval env d p + eval env d q).
Proof.
  intros Hp Hq. destruct (PolyAdd_canonical p q Hp Hq) as [r [Hr Hc]].
  exists r. split; [exact Hr |]. split; [exact Hc |].
  intros env d. apply PolyAdd_sem. exact Hr.
Qed.

Lemma PolyAdd_canonical_sum_witness :
  exists r, PolyAdd sample_p sample_q = Some r /\ canonical r = true
            /\ forall env d,
                eqm64 (eval env d r) (eval env d sample_p + eval env d sample_q).
Proof.
  apply (PolyAdd_canonical_sum sample_p sample_q); reflexivity.
Defined.

(** X2: [PolyAdd] is commutative, on every pair of arguments and result or
    failure alike. *)
Theorem PolyAdd_commutative (p q : Poly) : PolyAdd p q = PolyAdd q p.
Proof. apply PolyAdd_comm. Qed.

(** X3: the zero polynomial is neutral for [PolyAdd] on canonical
    polynomials, on either side. *)
Theorem PolyAdd_zero_neutral (p : Poly) :
  canonical p = true ->
  PolyAdd p PolyZero = Some p /\ PolyAdd PolyZero p = Some p.
Proof.
  intros Hc. split.
  - apply PolyAdd_zero_r. exact Hc.
  - apply PolyAdd_zero_l. exact Hc.
Qed.

Lemma PolyAdd_zero_neutral_witness :
  PolyAdd sample_p PolyZero = Some sample_p
  /\ PolyAdd PolyZero sample_p = Some sample_p.
Proof.
  apply (PolyAdd_zero_neutral sample_p). reflexivity.
Defined.

(** X4: on a canonical polynomial [PolyNeg] is defined, returns a canonical
    polynomial of the opposite value, and negating that one gives the
    original back. *)
Theorem PolyNeg_canonical_involutive (p : Poly) :
  canonical p = true ->
  exists n, PolyNeg p = Some n /\ canonical n = true
            /\ PolyNeg n = Some p
            /\ forall env d, eqm64 (eval env d n) (- eval env d p).
Proof.
  intros Hc. exists (Negate p).
  split; [apply PolyNeg_Negate; exact Hc |].
  split; [apply Negate_canonical; exact Hc |].
  split.
  - rewrite (PolyNeg_Negate _ (Negate_canonical p Hc)).
    rewrite (Negate_involutive p Hc). reflexivity.
  - apply Negate_sem.
Qed.

Lemma PolyNeg_canonical_involutive_witness :
  exists n, PolyNeg sample_p = Some n /\ canonical n = true
            /\ PolyNeg n = Some sample_p
            /\ forall env d, eqm64 (eval env d n) (- eval env d sample_p).
Proof.
  apply (PolyNeg_canonical_involutive sample_p). reflexivity.
Defined.

(** X5: the difference of two canonical polynomials is defined, canonical,
    and its value is the difference of the two values. *)
Theorem PolySub_canonical_difference (p q : Poly) :
  canonical p = true -> canonical q = true ->
  exists r, PolySub p q = Some r /\ canonical r = true
            /\ forall env d, eqm64 (eval env d r) (eval env d p - eval env d q).
Proof. apply PolySub_canonical_sem. Qed.

Lemma PolySub_canonical_difference_witness :
  exists r, PolySub sample_p sample_q = Some r /\ canonical r = true
            /\ forall env d,
                eqm64 (eval env d r) (eval env d sample_p - eval env d sample_q).
Proof.
  apply (PolySub_canonical_difference sample_p sample_q); reflexivity.
Defined.

(** X6: when the exponents of [p] are at most [B1], those of [q] at most
    [B2] and [B1 + B2 <= 2^31 - 1], the product [PolyMul p q] is defined,
    has sorted non-empty term lists with exponents at most [B1 + B2], and
    its value is the product of the two values. *)
Theorem PolyMul_bounded_product (B1 B2 : Z) (p q : Poly) :
  0 <= B1 -> 0 <= B2 -> B1 + B2 <= exp_max ->
  wfB B1 p = true -> wfB B2 q = true ->
  exists r, PolyMul p q = Some r /\ wfB (B1 + B2) r = true
            /\ forall env d, eqm64 (eval env d r) (eval env d p * eval env d q).
Proof.
  intros H1 H2 HB Hp Hq.
  destruct (PolyMul_wfB B1 B2 p q H1 H2 HB Hp Hq) as [r [Hr Hw]].
  exists r. split; [exact Hr |]. split; [exact Hw |].
  intros env d. apply (PolyMul_sem B1 B2); assumption.
Qed.

Lemma PolyMul_bounded_product_witness :
  exists r, PolyMul sample_p sample_q = Some r /\ wfB (3 + 2) r = true
            /\ forall env d,
                eqm64 (eval env d r) (eval env d sample_p * eval env d sample_q).
Proof.
  apply (PolyMul_bounded_product 3 2 sample_p sample_q).
  - lia.
  - lia.
  - vm_compute. discriminate.
  - reflexivity.
  - reflexivity.
Defined.

(** X7: on canonical polynomials the constant 1 is neutral for [PolyMul]
    and the constant 0 absorbing, on either side. *)
Theorem PolyMul_one_and_zero (p : Poly) :
  canonical p = true ->
  PolyMul p (Coeff 1) = Some p /\ PolyMul (Coeff 1) p = Some p
  /\ PolyMul p (Coeff 0) = Some (Coeff 0)
  /\ PolyMul (Coeff 0) p = Some (Coeff 0).
Proof.
  intros Hc. split; [| split; [| split]].
  - apply PolyMul_one_r. exact Hc.
  - apply PolyMul_one_l. exact Hc.
  - apply PolyMul_zero_r.
  - apply PolyMul_zero_l.
Qed.

Lemma PolyMul_one_and_zero_witness :
  PolyMul sample_p (Coeff 1) = Some sample_p
  /\ PolyMul (Coeff 1) sample_p = Some sample_p
  /\ PolyMul sample_p (Coeff 0) = Some (Coeff 0)
  /\ PolyMul (Coeff 0) sample_p = Some (Coeff 0).
Proof.
  apply (PolyMul_one_and_zero sample_p). reflexivity.
Defined.

(** X8: given [count] monomials with exponents in [0 .. B] whose
    coefficients satisfy the invariant, [PolyAddMonos] is defined, its
    result has non-empty strictly ascending term lists, and its value is
    the sum of the values of the monomials, whatever their order and
    duplicates. *)
Theorem PolyAddMonos_sorted_sum (B : Z) (count : nat) (monos : list Mono) :
  (count <= length monos)%nat ->
  Forall (wfB_mono B) (firstn count monos) ->
  exists r, PolyAddMonos count monos = Some r /\ wfB B r = true
            /\ forall env d,
                eqm64 (eval env d r) (evalMonos env d (firstn count monos)).
Proof.
  intros Hlen Hall.
  destruct (PolyAddMonos_wfB B count monos Hlen Hall) as [r [Hr Hw]].
  exists r. split; [exact Hr |]. split; [exact Hw |].
  intros env d. apply PolyAddMonos_sem. exact Hr.
Qed.

Lemma PolyAddMonos_sorted_sum_witness :
  exists r,
    PolyAddMonos 3 [MkMono (Coeff 5) 2; MkMono (Coeff 1) 0; MkMono (Coeff 2) 2]
    = Some r
    /\ wfB 2 r = true
    /\ forall env d,
        eqm64 (eval env d r)
              (evalMonos env d
                 (firstn 3 [MkMono (Coeff 5) 2; MkMono (Coeff 1) 0;
                            MkMono (Coeff 2) 2])).
Proof.
  apply (PolyAddMonos_sorted_sum
           2 3 [MkMono (Coeff 5) 2; MkMono (Coeff 1) 0; MkMono (Coeff 2) 2]).
  - simpl. lia.
  - repeat constructor; simpl; lia.
Defined.

(** X9: handing [PolyAddMonos], [PolyOwnMonos] or [PolyCloneMonos] the
    monomials of a canonical polynomial gives that polynomial back. *)
Theorem PolyAddMonos_of_canonical (arr : list Mono) :
  canonical (Terms arr) = true ->
  PolyAddMonos (length arr) arr = Some (Terms arr)
  /\ PolyOwnMonos (length arr) (Some arr) = Some (Terms arr)
  /\ PolyCloneMonos (length arr) (Some arr) = Some (Terms arr).
Proof.
  intros Hc.
  pose proof (PolyAddMonos_canonical arr Hc) as H.
  split; [exact H |]. split; [exact H |].
  unfold PolyCloneMonos. rewrite Nat.leb_refl, firstn_all.
  apply canonical_wfB in Hc. apply wfB_Terms in Hc.
  destruct Hc as [_ [_ [_ Hall]]].
  rewrite (mapM_MonoClone_wfB exp_max arr Hall). cbn [bind]. exact H.
Qed.

Lemma PolyAddMonos_of_canonical_witness :
  PolyAddMonos 2 [MkMono (Coeff 4) 0; MkMono (Coeff (-1)) 2] = Some sample_q
  /\ PolyOwnMonos 2 (Some [MkMono (Coeff 4) 0; MkMono (Coeff (-1)) 2])
     = Some sample_q
  /\ PolyCloneMonos 2 (Some [MkMono (Coeff 4) 0; MkMono (Coeff (-1)) 2])
     = Some sample_q.
Proof.
  apply (PolyAddMonos_of_canonical [MkMono (Coeff 4) 0; MkMono (Coeff (-1)) 2]).
  reflexivity.
Defined.

(** X10: [PolyIsEq] returns true exactly when its two arguments are the
    same value: same constants, or the same monomials in the same order. *)
Theorem PolyIsEq_iff_eq (p q : Poly) : PolyIsEq p q = true <-> p = q.
Proof.
  split.
  - apply PolyIsEq_true.
  - intros <-. apply PolyIsEq_refl.
Qed.

(** X11: for variable 0 of a canonical non-constant polynomial [PolyDegBy]
    returns the exponent of one of its monomials, which no other monomial
    exceeds. *)
Theorem PolyDegBy_outermost (arr : list Mono) :
  canonical (Terms arr) = true ->
  exists m, PolyDegBy (Terms arr) 0 = Some (m_exp m) /\ In m arr
            /\ Forall (fun n => m_exp n <= m_exp m) arr.
Proof.
  intros Hc. apply canonical_Terms in Hc. destruct Hc as [Hn [_ [Ha _]]].
  destruct (asc_last arr Ha Hn) as [m [Hm [Hin Hall]]].
  exists m. cbn [PolyDegBy]. rewrite Hm. auto.
Qed.

Lemma PolyDegBy_outermost_witness :
  exists m, PolyDegBy sample_p 0 = Some (m_exp m)
            /\ In m [MkMono (Coeff 1) 0; MkMono (Terms [MkMono (Coeff 2) 1]) 3]
            /\ Forall (fun n => m_exp n <= m_exp m)
                      [MkMono (Coeff 1) 0; MkMono (Terms [MkMono (Coeff 2) 1]) 3].
Proof.
  apply (PolyDegBy_outermost
           [MkMono (Coeff 1) 0; MkMono (Terms [MkMono (Coeff 2) 1]) 3]).
  reflexivity.
Defined.

(** X12: for a canonical [p], [PolyAt p x] is defined and its value under
    any valuation is the value of [p] with [x] for [x_0] and every other
    variable shifted down by one index. *)
Theorem PolyAt_substitutes_first (p : Poly) (x : Z) :
  canonical p = true ->
  exists r, PolyAt p x = Some r /\ wfB exp_max r = true
            /\ forall env, eqm64 (eval env 0 r) (eval (cons_env x env) 0 p).
Proof.
  intros Hc.
  destruct (PolyAt_wfB exp_max p x (canonical_wfB p Hc)) as [r [Hr Hw]].
  exists r. split; [exact Hr |]. split; [exact Hw |].
  apply (PolyAt_sem p r x Hr).
Qed.

Lemma PolyAt_substitutes_first_witness :
  exists r, PolyAt sample_p 2 = Some r /\ wfB exp_max r = true
            /\ forall env, eqm64 (eval env 0 r) (eval (cons_env 2 env) 0 sample_p).
Proof.
  apply (PolyAt_substitutes_first sample_p 2). reflexivity.
Defined.

(** X13: [PowerOf x n] fails (its assertion) exactly for a negative [n];
    otherwise it returns [x^n] in 64-bit arithmetic. *)
Theorem PowerOf_power (x n : Z) :
  (PowerOf x n = None <-> n < 0)
  /\ forall c, PowerOf x n = Some c -> eqm64 c (x ^ n).
Proof.
  split.
  - destruct n as [| k | k]; cbn [PowerOf]; split; intros H;
      try discriminate; try lia; reflexivity.
  - intros c H. apply (PowerOf_sem x n c H).
Qed.

(** X14: while [e * B <= 2^31 - 1], the [e]-th power by [PolyPower] of a
    polynomial with exponents at most [B] is defined, has exponents at most
    [e * B], and denotes the [e]-th power of the value. *)
Theorem PolyPower_bounded_power (p : Poly) (B e : Z) :
  0 <= B -> 0 <= e -> wfB B p = true -> e * B <= exp_max ->
  exists r, PolyPower p e = Some r /\ wfB (e * B) r = true
            /\ forall env d, eqm64 (eval env d r) (eval env d p ^ e).
Proof.
  intros HB He Hw Hle.
  destruct (PolyPower_wfB p B e HB He Hw Hle) as [r [Hr Hwr]].
  exists r. split; [exact Hr |]. split; [exact Hwr |].
  apply (PolyPower_sem p r B e); assumption.
Qed.

Lemma PolyPower_bounded_power_witness :
  exists r, PolyPower sample_q 5 = Some r /\ wfB (5 * 2) r = true
            /\ forall env d, eqm64 (eval env d r) (eval env d sample_q ^ 5).
Proof.
  apply (PolyPower_bounded_power sample_q 2 5).
  - lia.
  - lia.
  - reflexivity.
  - vm_compute. discriminate.
Defined.

(** X15: with no substituted polynomial ([k = 0]) [PolyCompose] never
    fails, whatever [p] and the array are, and returns a constant: the
    value of [p] with every variable at zero. *)
Theorem PolyCompose_nothing_is_constant (p : Poly) (q : list Poly) :
  exists c, PolyCompose p 0 q = Some (Coeff c)
            /\ eqm64 c (eval (fun _ => 0) 0 p).
Proof. apply PolyComposeHelper_k0. Qed.

(** X16: whenever [PolyClone] returns, the copy is the polynomial itself;
    and it fails exactly when some monomial array of the polynomial is
    empty. *)
Theorem PolyClone_copy_or_empty (p : Poly) :
  (forall r, PolyClone p = Some r -> r = p)
  /\ (PolyClone p = None <-> nonempty_terms p = false).
Proof.
  split; [apply PolyClone_Some |].
  split.
  - intros H. destruct (nonempty_terms p) eqn:E; [| reflexivity].
    rewrite (PolyClone_nonempty p E) in H. discriminate.
  - intros H. destruct (PolyClone p) as [r |] eqn:E; [| reflexivity].
    rewrite (PolyClone_defined_nonempty p r E) in H. discriminate.
Qed.

(** X17: for a canonical nonzero polynomial with exponents at most [B] and
    [PolyDepth p * B <= 2^31 - 1], [PolyDeg] lies between 0 and
    [PolyDepth p * B]; so within that bound [PolyDeg] is -1 only for the
    zero polynomial. *)
Theorem PolyDeg_within_bounds (B : Z) (p : Poly) :
  0 <= B -> canonical p = true -> wfB B p = true ->
  Z.of_nat (PolyDepth p) * B <= exp_max ->
  (PolyIsZero p = false -> 0 <= PolyDeg p <= Z.of_nat (PolyDepth p) * B)
  /\ (PolyDeg p = -1 <-> PolyIsZero p = true).
Proof.
  intros HB Hc Hw Hle.
  pose proof (PolyDeg_bounds B p HB Hc Hw Hle) as Hb.
  split; [exact Hb |]. split.
  - intros H. destruct (PolyIsZero p) eqn:E; [reflexivity |].
    specialize (Hb eq_refl). lia.
  - intros H. destruct p as [c |]; [| discriminate].
    cbn [PolyIsZero] in H. cbn [PolyDeg]. rewrite H. reflexivity.
Qed.

Lemma PolyDeg_within_bounds_witness :
  (PolyIsZero sample_p = false ->
   0 <= PolyDeg sample_p <= Z.of_nat (PolyDepth sample_p) * 3)
  /\ (PolyDeg sample_p = -1 <-> PolyIsZero sample_p = true).
Proof.
  apply (PolyDeg_within_bounds 3 sample_p).
  - lia.
  - reflexivity.
  - reflexivity.
  - vm_compute. discriminate.
Defined.

(** X18: pushing onto a stack that holds [l] never writes outside the
    array and gives a stack holding [l] with the polynomial on top; popping
    that stack returns the polynomial and a stack holding [l] again.  The
    array stays at least as long as, and at most four times as long as,
    the number of polynomials held. *)
Theorem Push_then_Pop (s : Tstack) (l : list Poly) (p : Poly) :
  Represents s l ->
  exists s1, Push s p = Some s1 /\ Represents s1 (l ++ [p])
             /\ exists s2, Pop s1 = Some (p, s2) /\ Represents s2 l.
Proof.
  intros Hrep. destruct (Push_Represents s l p Hrep) as [s1 [H1 Hrep1]].
  exists s1. split; [exact H1 |]. split; [exact Hrep1 |].
  apply Pop_Represents. exact Hrep1.
Qed.

Lemma Push_then_Pop_witness :
  exists s1, Push StackInit sample_p = Some s1
             /\ Represents s1 ([] ++ [sample_p])
             /\ exists s2, Pop s1 = Some (sample_p, s2) /\ Represents s2 [].
Proof.
  apply (Push_then_Pop StackInit [] sample_p).
  repeat split. simpl. lia.
Defined.

(** X19: on a stack holding [l], [Pop] fails exactly when [l] is empty and
    otherwise returns the last polynomial pushed, leaving the others; and
    the three queries answer for [l]: emptiness, length, and whether it
    has two elements. *)
Theorem Pop_and_queries (s : Tstack) (l : list Poly) :
  Represents s l ->
  (l = [] -> Pop s = None)
  /\ (forall l' p, l = l' ++ [p] ->
                   exists s', Pop s = Some (p, s') /\ Represents s' l')
  /\ StackIsEmpty s = is_nil l
  /\ StackSize s = length l
  /\ StackDoesHaveAtLeastTwoElements s = Nat.leb 2 (length l).
Proof.
  intros Hrep. split; [| split; [| split; [| split]]].
  - intros ->. destruct Hrep as [Hsize _]. unfold Pop. rewrite Hsize. reflexivity.
  - intros l' p ->. apply Pop_Represents. exact Hrep.
  - destruct Hrep as [Hsize _]. unfold StackIsEmpty. rewrite Hsize.
    destruct l; reflexivity.
  - destruct Hrep as [Hsize _]. exact Hsize.
  - destruct Hrep as [Hsize _]. unfold StackDoesHaveAtLeastTwoElements.
    rewrite Hsize. reflexivity.
Qed.

Lemma Pop_and_queries_witness :
  (@nil Poly = [] -> Pop StackInit = None)
  /\ (forall l' p, [] = l' ++ [p] ->
                   exists s', Pop StackInit = Some (p, s') /\ Represents s' l')
  /\ StackIsEmpty StackInit = is_nil (@nil Poly)
  /\ StackSize StackInit = length (@nil Poly)
  /\ StackDoesHaveAtLeastTwoElements StackInit = Nat.leb 2 (length (@nil Poly)).
Proof.
  apply (Pop_and_queries StackInit []).
  repeat split. simpl. lia.
Defined.

(** X20: the initial stack holds nothing, and [Empty] on a stack holding
    any [l] pops every polynomial and ends in the initial stack: size 0 and
    no array left. *)
Theorem Empty_releases (s : Tstack) (l : list Poly) :
  Represents s l ->
  Represents StackInit [] /\ Empty s = Some StackInit.
Proof.
  intros Hrep. split.
  - repeat split. simpl. lia.
  - unfold Empty. destruct Hrep as [Hsize Hrest]. rewrite Hsize.
    apply EmptyLoop_Represents. split; assumption.
Qed.

Lemma Empty_releases_witness :
  Represents StackInit [] /\ Empty sample_stack = Some StackInit.
Proof.
  apply (Empty_releases sample_stack [sample_q; sample_p]).
  repeat split. simpl. lia.
Defined.

(** * Reading and printing *)

(** X21: [PolyRead] returns on every line, from any state of [last] and of
    the handler: no assertion fires, no character outside the line is
    read, and more fuel than [3 * length + 3] changes nothing.  The
    polynomial returned has non-empty, strictly ascending monomial arrays
    with exponents in [0 .. 2^31 - 1]; the handler is as it was or holds
    [WRONG_POLY_CODE]; and when it holds no error, [last] points into the
    line. *)
Theorem PolyRead_returns (feof : bool) (string : cstring) (last : option cstring)
        (handler : ErrorHandler) :
  exists p last' h',
    PolyRead feof string last handler = Some (p, last', h')
    /\ (forall fuel, (3 * length string + 3 <= fuel)%nat ->
                     PolyReadFuel feof fuel string last handler
                     = Some (p, last', h'))
    /\ wfB exp_max p = true
    /\ (h' = handler \/ h' = ErrorHandlerSetCode handler WRONG_POLY_CODE)
    /\ (IsError h' = false ->
        exists pre l', last' = Some l' /\ string = pre ++ l').
Proof.
  destruct (readers_ok feof (S (length string)) string (Nat.lt_succ_diag_r _))
    as [HP _].
  destruct (HP (3 * length string + 3)%nat last handler (le_n _))
    as [p [last' [h' [Hr [Hwf [Hk Hl]]]]]].
  exists p, last', h'. split; [exact Hr |]. split.
  { intros fuel Hfuel.
    apply (proj1 (readers_fuel_mono feof (3 * length string + 3)) fuel _ _ _ _ Hfuel).
    exact Hr. }
  split; [exact Hwf |]. split; [exact Hk |].
  intros He. destruct (Hl He) as [l' [Hl' [pre Hpre]]]. exists pre, l'. auto.
Qed.

(** X22: reading what [PolyPrint] wrote for a canonical polynomial, followed
    by a comma, a newline or the end of the input, gives the polynomial
    back, leaves [last] at the character that follows, and sets no error. *)
Theorem PolyRead_of_PolyPrint (feof : bool) (p : Poly) (rest : cstring)
        (last : option cstring) (handler : ErrorHandler) :
  canonical p = true -> ends_poly feof rest = true -> IsError handler = false ->
  exists s, PolyPrint p = Some s
            /\ PolyRead feof (s ++ rest) last handler = Some (p, Some rest, handler).
Proof.
  intros Hcan Hrest Herr.
  destruct (PolyPrint_defined p (canonical_nonempty p Hcan)) as [s Hs].
  exists s. split; [exact Hs |].
  apply (PolyPrint_reads_back feof p Hcan s Hs rest _ last handler Hrest Herr).
  apply le_n.
Qed.

Lemma PolyRead_of_PolyPrint_witness :
  exists s, PolyPrint sample_p = Some s
            /\ PolyRead false (s ++ [NEWLINE]) None (NewErrorHandler 1)
               = Some (sample_p, Some [NEWLINE], NewErrorHandler 1).
Proof.
  apply (PolyRead_of_PolyPrint false sample_p [NEWLINE] None (NewErrorHandler 1));
    reflexivity.
Defined.

(** X23: [MonoRead] casts the exponent to [int] before it tests it.  For
    a monomial [(c,v)] with [c] canonical and nonzero and [0 <= v <=
    LONG_MAX], the line is refused exactly when the low 32 bits of [v] are
    negative as an [int]; otherwise it is accepted with the exponent [v]
    modulo [2^32], also when [v] is above [2^31 - 1]. *)
Theorem PolyRead_exponent_cast (feof : bool) (c : Poly) (v : Z) (rest : cstring)
        (last : option cstring) (handler : ErrorHandler) :
  canonical c = true -> PolyIsZero c = false -> 0 <= v <= LONG_MAX ->
  ends_poly feof rest = true -> IsError handler = false ->
  exists sc,
    PolyPrint c = Some sc
    /\ PolyRead feof (OPENING_BRACKET :: sc ++ SEPARATOR :: print_Z v
                      ++ CLOSING_BRACKET :: rest) last handler
       = if 0 <=? wrap32 v
         then Some (Interpret [MkMono c (wrap32 v)], Some rest, handler)
         else Some (PolyZero, Some (CLOSING_BRACKET :: rest),
                    ErrorHandlerSetCode handler WRONG_POLY_CODE).
Proof.
  intros Hcan Hz Hv Hrest Herr.
  destruct (PolyPrint_defined c (canonical_nonempty c Hcan)) as [sc Hsc].
  exists sc. split; [exact Hsc |].
  destruct (ends_poly_head feof rest Hrest) as [Hnd [Hnp Hnc]].
  unfold PolyRead.
  set (str := OPENING_BRACKET :: sc ++ SEPARATOR :: print_Z v
              ++ CLOSING_BRACKET :: rest).
  replace (3 * length str + 3)%nat with (S (S (3 * length str + 1))) by lia.
  cbn [PolyReadFuel]. unfold str at 1 2. cbn [char_at nth].
  change (isdigit OPENING_BRACKET || Ascii.eqb OPENING_BRACKET MINUS_SIGN)
    with false. cbv iota.
  rewrite Ascii.eqb_refl. cbn [PolyReadLoop].
  unfold str at 1. cbn [char_at nth].
  change (Ascii.eqb OPENING_BRACKET PLUS_SIGN) with false. cbv iota. cbn [bind].
  unfold str.
  rewrite (MonoRead_print feof c sc v rest
             (PolyPrint_reads_back feof c Hcan sc Hsc) Hz Hv _ last handler Herr
             (le_n _)).
  destruct (0 <=? wrap32 v) eqn:Ev; cbn [bind].
  - rewrite Herr. cbn [bind next]. rewrite m_p_Mk, Hz. cbn [andb negb].
    destruct (DynamicMonoArrayAdd_Holds NewDynamicMonoArray [] (MkMono c (wrap32 v))
                Holds_New) as [d' [-> Hh']].
    cbn [bind]. rewrite Hnp. cbv zeta. rewrite Hnc.
    destruct (Holds_Contents d' _ Hh') as [-> ->]. cbn [bind app length].
    rewrite PolyAddMonos_single.
    reflexivity.
  - rewrite IsError_wrong_poly. reflexivity.
Qed.

Lemma PolyRead_exponent_cast_witness :
  exists sc,
    PolyPrint (Coeff 1) = Some sc
    /\ PolyRead false (OPENING_BRACKET :: sc ++ SEPARATOR :: print_Z 4294967297
                       ++ CLOSING_BRACKET :: [NEWLINE]) None (NewErrorHandler 1)
       = if 0 <=? wrap32 4294967297
         then Some (Interpret [MkMono (Coeff 1) (wrap32 4294967297)],
                    Some [NEWLINE], NewErrorHandler 1)
         else Some (PolyZero, Some (CLOSING_BRACKET :: [NEWLINE]),
                    ErrorHandlerSetCode (NewErrorHandler 1) WRONG_POLY_CODE).
Proof.
  apply (PolyRead_exponent_cast false (Coeff 1) 4294967297 [NEWLINE] None
           (NewErrorHandler 1)); try reflexivity.
  unfold LONG_MAX. lia.
Defined.

(** * The calculator *)

(** X24: a line that does not begin with a letter never makes
    [CalcReadLine] fail, whatever it holds.  A comment or an empty line
    changes nothing; any other line either pushes one polynomial with
    well-formed monomial arrays and writes nothing, or leaves the stack as
    it is and writes [ERROR n WRONG POLY] to [stderr]. *)
Theorem CalcReadLine_polynomial_line (feof : bool) (w : Machine) (l : list Poly)
        (line : cstring) (n : nat) :
  Represents (stack w) l ->
  isalpha (char_at line 0) = false ->
  if Ascii.eqb (char_at line 0) COMMENT_CHAR || Ascii.eqb (char_at line 0) NEWLINE
  then CalcReadLine feof w (Some line) n = Some (Returns w)
  else
    (exists p s, CalcReadLine feof w (Some line) n = Some (Returns (with_stack w s))
                 /\ Represents s (l ++ [p]) /\ wfB exp_max p = true)
    \/ CalcReadLine feof w (Some line) n
       = Some (Returns (reported w n "WRONG POLY")).
Proof.
  intros Hrep Ha.
  destruct (Ascii.eqb (char_at line 0) COMMENT_CHAR) eqn:Ec.
  { unfold CalcReadLine. rewrite Ec. reflexivity. }
  destruct (Ascii.eqb (char_at line 0) NEWLINE) eqn:En.
  { unfold CalcReadLine. rewrite Ec, En. reflexivity. }
  apply (CalcReadLine_poly_line feof w l line n Hrep Ha Ec En).
Qed.

Lemma CalcReadLine_polynomial_line_witness :
  if Ascii.eqb (char_at (chars "(1,2") 0) COMMENT_CHAR
     || Ascii.eqb (char_at (chars "(1,2") 0) NEWLINE
  then CalcReadLine true sample_machine (Some (chars "(1,2")) 7
       = Some (Returns sample_machine)
  else
    (exists p s, CalcReadLine true sample_machine (Some (chars "(1,2")) 7
                 = Some (Returns (with_stack sample_machine s))
                 /\ Represents s ([sample_q; sample_p] ++ [p])
                 /\ wfB exp_max p = true)
    \/ CalcReadLine true sample_machine (Some (chars "(1,2")) 7
       = Some (Returns (reported sample_machine 7 "WRONG POLY")).
Proof.
  apply (CalcReadLine_polynomial_line true sample_machine [sample_q; sample_p]
           (chars "(1,2") 7).
  - repeat split. simpl. lia.
  - reflexivity.
Defined.

(** X25: the line [PolyPrint] writes for a canonical polynomial is read
    back by [CalcReadLine] as that polynomial, pushed on the stack with no
    output; and [PRINT] then writes the same line to [stdout] and leaves
    the stack as it is. *)
Theorem CalcReadLine_prints_back (feof feof' : bool) (w : Machine) (l : list Poly)
        (p : Poly) (n n' : nat) :
  Represents (stack w) l -> canonical p = true ->
  exists text s1,
    PolyPrint p = Some text
    /\ CalcReadLine feof w (Some (line_of text)) n = Some (Returns (with_stack w s1))
    /\ Represents s1 (l ++ [p])
    /\ exists s2,
        CalcReadLine feof' (with_stack w s1) (Some (line_of PRINT_STRING)) n'
        = Some (Returns (printf (with_stack w s2) (line_of text)))
        /\ Represents s2 (l ++ [p]).
Proof.
  intros Hrep Hcan.
  destruct (PolyPrint_defined p (canonical_nonempty p Hcan)) as [text Htext].
  destruct (CalcReadLine_printed feof w l p text n Hrep Hcan Htext) as [s1 [H1 Hrep1]].
  exists text, s1. split; [exact Htext |]. split; [exact H1 |].
  split; [exact Hrep1 |].
  destruct (CalcReadLine_PRINT feof' (with_stack w s1) l p text n' Hrep1 Htext)
    as [s2 [H2 Hrep2]].
  exists s2. split; [exact H2 | exact Hrep2].
Qed.

Lemma CalcReadLine_prints_back_witness :
  exists text s1,
    PolyPrint sample_p = Some text
    /\ CalcReadLine false sample_machine (Some (line_of text)) 1
       = Some (Returns (with_stack sample_machine s1))
    /\ Represents s1 ([sample_q; sample_p] ++ [sample_p])
    /\ exists s2,
        CalcReadLine true (with_stack sample_machine s1)
          (Some (line_of PRINT_STRING)) 2
        = Some (Returns (printf (with_stack sample_machine s2) (line_of text)))
        /\ Represents s2 ([sample_q; sample_p] ++ [sample_p]).
Proof.
  apply (CalcReadLine_prints_back false true sample_machine [sample_q; sample_p]
           sample_p 1 2).
  - repeat split. simpl. lia.
  - reflexivity.
Defined.

(** X26: with [p] on top of the stack and [q] below it, both canonical,
    [ADD] replaces the two by their sum and [SUB] by [p - q] (the top minus
    the one below), each canonical again; [IS_EQ] writes [1] exactly when
    the two are the same polynomial and [0] otherwise, and puts both back
    in their order. *)
Theorem BinaryOperation_operands (feof : bool) (w : Machine) (l : list Poly)
        (p q : Poly) (n : nat) :
  Represents (stack w) (l ++ [q; p]) -> canonical p = true -> canonical q = true ->
  (exists r s,
      CalcInterpretOperation feof w (line_of ADD_STRING) n
      = Some (Returns (with_stack w s))
      /\ Represents s (l ++ [r]) /\ canonical r = true
      /\ forall env d, eqm64 (eval env d r) (eval env d p + eval env d q))
  /\ (exists r s,
         CalcInterpretOperation feof w (line_of SUB_STRING) n
         = Some (Returns (with_stack w s))
         /\ Represents s (l ++ [r]) /\ canonical r = true
         /\ forall env d, eqm64 (eval env d r) (eval env d p - eval env d q))
  /\ (exists s,
         CalcInterpretOperation feof w (line_of IS_EQ_STRING) n
         = Some (Returns (printf (with_stack w s)
                            (if PolyIsEq p q then TRUE_STRING else FALSE_STRING)))
         /\ Represents s (l ++ [q; p]))
  /\ (PolyIsEq p q = true <-> p = q).
Proof.
  intros Hrep Hp Hq. split; [| split; [| split]].
  - destruct (PolyAdd_canonical p q Hp Hq) as [r [Hr Hc]].
    destruct (Calc_ADD feof w l p q r n Hrep Hr) as [s [Hs Hrs]].
    exists r, s. split; [exact Hs |]. split; [exact Hrs |]. split; [exact Hc |].
    intros env d. apply PolyAdd_sem. exact Hr.
  - destruct (PolySub_canonical_sem p q Hp Hq) as [r [Hr [Hc Hsem]]].
    destruct (Calc_SUB feof w l p q r n Hrep Hr) as [s [Hs Hrs]].
    exists r, s. auto.
  - apply Calc_IS_EQ. exact Hrep.
  - split; [apply PolyIsEq_true | intros ->; apply PolyIsEq_refl].
Qed.

Lemma BinaryOperation_operands_witness :
  (exists r s,
      CalcInterpretOperation false sample_machine (line_of ADD_STRING) 3
      = Some (Returns (with_stack sample_machine s))
      /\ Represents s ([] ++ [r]) /\ canonical r = true
      /\ forall env d,
          eqm64 (eval env d r) (eval env d sample_p + eval env d sample_q))
  /\ (exists r s,
         CalcInterpretOperation false sample_machine (line_of SUB_STRING) 3
         = Some (Returns (with_stack sample_machine s))
         /\ Represents s ([] ++ [r]) /\ canonical r = true
         /\ forall env d,
             eqm64 (eval env d r) (eval env d sample_p - eval env d sample_q))
  /\ (exists s,
         CalcInterpretOperation false sample_machine (line_of IS_EQ_STRING) 3
         = Some (Returns (printf (with_stack sample_machine s)
                            (if PolyIsEq sample_p sample_q
                             then TRUE_STRING else FALSE_STRING)))
         /\ Represents s ([] ++ [sample_q; sample_p]))
  /\ (PolyIsEq sample_p sample_q = true <-> sample_p = sample_q).
Proof.
  apply (BinaryOperation_operands false sample_machine [] sample_p sample_q 3).
  - repeat split. simpl. lia.
  - reflexivity.
  - reflexivity.
Defined.

(** X27: a command that takes one polynomial, given an empty stack, and a
    command that takes two, given fewer than two, changes nothing and
    writes [ERROR n STACK UNDERFLOW] to [stderr]. *)
Theorem underflow_reported (feof : bool) (w : Machine) (n : nat) (instr : cstring) :
  (st_size (stack w) = 0%nat
   /\ In instr [IS_COEFF_STRING; IS_ZERO_STRING; CLONE_STRING; NEG_STRING;
               DEG_STRING; PRINT_STRING; POP_STRING])
  \/ ((st_size (stack w) < 2)%nat
      /\ In instr [ADD_STRING; MUL_STRING; SUB_STRING; IS_EQ_STRING]) ->
  CalcInterpretOperation feof w (line_of instr) n
  = Some (Returns (reported w n "STACK UNDERFLOW")).
Proof.
  intros [[Hsize Hin] | [Hsize Hin]]; cbn [In] in Hin.
  - assert (He : StackIsEmpty (stack w) = true)
      by (unfold StackIsEmpty; rewrite Hsize; reflexivity).
    repeat (destruct Hin as [<- | Hin];
            [unfold CalcInterpretOperation; eval_InstrCmp; cbv iota;
             unfold UnaryOperation; rewrite He; reflexivity |]).
    contradiction.
  - assert (He : StackDoesHaveAtLeastTwoElements (stack w) = false)
      by (unfold StackDoesHaveAtLeastTwoElements; apply Nat.leb_gt; lia).
    repeat (destruct Hin as [<- | Hin];
            [unfold CalcInterpretOperation; eval_InstrCmp; cbv iota;
             unfold BinaryOperation; rewrite He; reflexivity |]).
    contradiction.
Qed.

Lemma underflow_reported_witness :
  CalcInterpretOperation false (with_stack sample_machine StackInit)
    (line_of MUL_STRING) 4
  = Some (Returns (reported (with_stack sample_machine StackInit) 4
                     "STACK UNDERFLOW")).
Proof.
  apply (underflow_reported false (with_stack sample_machine StackInit) 4 MUL_STRING).
  right. split; [simpl; lia | simpl; auto].
Defined.

(** X28: [COMPOSE k] takes [k + 1] polynomials.  With [p] on top of the
    stack and [qs], [k] polynomials, below it, it replaces them by
    [PolyCompose(p, k, qs)], where [qs[0]] is the deepest of them; with at
    least one but fewer than [k + 1] polynomials on the stack it changes
    nothing and writes [ERROR n STACK UNDERFLOW]. *)
Theorem COMPOSE_operands (feof : bool) (w : Machine) (l qs : list Poly) (p : Poly)
        (n : nat) :
  Represents (stack w) (l ++ qs ++ [p]) ->
  Z.of_nat (length (l ++ qs ++ [p])) <= ULLONG_MAX ->
  (forall r, PolyCompose p (length qs) qs = Some r ->
             exists s, CalcInterpretOperation feof w (compose_line (length qs)) n
                       = Some (Returns (with_stack w s))
                       /\ Represents s (l ++ [r]))
  /\ (forall k, (length (l ++ qs ++ [p]) <= k)%nat -> Z.of_nat k <= ULLONG_MAX ->
                CalcInterpretOperation feof w (compose_line k) n
                = Some (Returns (reported w n "STACK UNDERFLOW"))).
Proof.
  intros Hrep Hlen. split.
  - intros r Hr. apply (Calc_COMPOSE feof w l qs p r n Hrep Hlen Hr).
  - intros k Hk Hmax.
    apply (Calc_COMPOSE_underflow feof w (l ++ qs ++ [p]) k n Hrep); [| exact Hmax].
    split; [| exact Hk]. rewrite !length_app. cbn [length]. lia.
Qed.

Lemma COMPOSE_operands_witness :
  (forall r, PolyCompose sample_p (length [sample_q]) [sample_q] = Some r ->
             exists s, CalcInterpretOperation false sample_machine
                         (compose_line (length [sample_q])) 5
                       = Some (Returns (with_stack sample_machine s))
                       /\ Represents s ([] ++ [r]))
  /\ (forall k, (length ([] ++ [sample_q] ++ [sample_p]) <= k)%nat ->
                Z.of_nat k <= ULLONG_MAX ->
                CalcInterpretOperation false sample_machine (compose_line k) 5
                = Some (Returns (reported sample_machine 5 "STACK UNDERFLOW"))).
Proof.
  apply (COMPOSE_operands false sample_machine [] [sample_q] sample_p 5).
  - repeat split. simpl. lia.
  - unfold ULLONG_MAX. simpl. lia.
Defined.

(** X29: on an empty stack [COMPOSE k] is not answered with [STACK
    UNDERFLOW] for any [k]: [StackSize(s) - 1] is computed in [size_t],
    where it is [2^64 - 1], so the test passes and [Pop] is called on the
    empty stack, where it reads outside the array. *)
Theorem COMPOSE_on_empty_stack (feof : bool) (w : Machine) (k n : nat) :
  st_size (stack w) = 0%nat -> Z.of_nat k <= ULLONG_MAX ->
  CalcInterpretOperation feof w (compose_line k) n = None.
Proof.
  intros Hsize Hk. rewrite compose_line_parsed by lia.
  unfold StackSize. rewrite Hsize.
  change ((Z.of_nat 0 - 1) mod 2 ^ 64) with ULLONG_MAX.
  destruct (ULLONG_MAX <? Z.of_nat k) eqn:E; [apply Z.ltb_lt in E; lia |].
  unfold Pop. rewrite Hsize. reflexivity.
Qed.

Lemma COMPOSE_on_empty_stack_witness :
  CalcInterpretOperation true (with_stack sample_machine StackInit)
    (compose_line 0) 1 = None.
Proof.
  apply (COMPOSE_on_empty_stack true (with_stack sample_machine StackInit) 0 1).
  - reflexivity.
  - unfold ULLONG_MAX. simpl. lia.
Defined.

(** X30: on an input without a letter, and so without a command, [main]
    returns: no line makes it fail, it writes nothing to [stdout], and
    [Empty] leaves the stack as [StackInit] made it, every polynomial
    read released. *)
Theorem main_without_commands (input : cstring) :
  Forall (fun c => isalpha c = false) input ->
  exists w, main input = Some (Returns w)
            /\ stack w = StackInit /\ stdout w = [].
Proof.
  intros Hall. unfold main.
  destruct (MainLoop_no_letter (length input + 1) input false 0
              {| stack := StackInit; stdout := []; stderr := [] |} []
              Hall Represents_StackInit ltac:(right; lia))
    as [w1 [l1 [-> [Hrep1 Hout1]]]].
  rewrite (Empty_Represents _ _ Hrep1). cbn [bind].
  eexists. split; [reflexivity |]. split; [reflexivity | exact Hout1].
Qed.

Lemma main_without_commands_witness :
  exists w, main (line_of (chars "(1,2)+(3,4)") ++ chars "(5") = Some (Returns w)
            /\ stack w = StackInit /\ stdout w = [].
Proof.
  apply (main_without_commands (line_of (chars "(1,2)+(3,4)") ++ chars "(5")).
  repeat constructor.
Defined.
